(** * openrouter-proxy: key rotation, rate-limit feedback and relay

    A shallow embedding of the TypeScript sources
    [src/keyManager.ts], [src/utils.ts] and [src/routes.ts], with what
    they use of [src/config.ts] and [src/constants.ts], and the
    properties of the key pool, the rate-limit extractor, the catalog
    filter, the access check, the request handler and the streaming
    relay.

    Conventions.
    - Instants are integers, milliseconds since the epoch, as
      [Date.now()] returns them.  A synchronous block of the program
      runs to completion inside one tick of the clock, so every clock
      read of one such block is the same instant [now].
    - JavaScript runs each callback to completion: the only points at
      which another request can touch the key pool are the [await]s.
    - Strings are sequences of 8-bit code units; this is exact for
      ASCII text.
    - The time zone of the process is a parameter [tz] of what reads
      local time, which is the preventive cooldown of [getNextKey]
      alone. *)

From Stdlib Require Import Ascii.
From stdpp Require Import base numbers option list strings pretty gmap fin_maps.

(** ** Completion records: a call returns normally or throws *)

Inductive error :=
  | SyntaxError
  | TypeError
  | RangeError
  | Error (message : string).

Inductive completion (A : Type) :=
  | Normal (a : A)
  | Throw (e : error).
Arguments Normal {A} a.
Arguments Throw {A} e.

(** Sequencing: the first throw ends the computation. *)
Global Instance completion_bind : MBind completion := fun A B k c =>
  match c with
  | Normal a => k a
  | Throw e => Throw e
  end.

(** ** Numbers and dates, as far as the key pool uses them *)

(** The numbers handed to [disableKey] come out of [parseInt]: an
    integer, or NaN. *)
Inductive number :=
  | NaN
  | Num (z : Z).

(** [if (n)] on a number. *)
Definition number_truthy (n : number) : bool :=
  match n with
  | NaN => false
  | Num z => negb (z =? 0)%Z
  end.

Module Date.

(** A [Date] holds a time value or is an Invalid Date. *)
Inductive t :=
  | Invalid
  | Time (ms : Z).

(** The largest time value, [8.64e15]. *)
Definition MAX_TIME : Z := 8640000000000000.

(** [new Date(v)] for an integral number [v] (TimeClip). *)
Definition make (v : Z) : t :=
  if (Z.abs v <=? MAX_TIME)%Z then Time v else Invalid.

(** [a < b], [a > b] and [a >= b] compare the time values; a
    comparison with an Invalid Date (NaN) is false. *)
Definition ltb (a b : t) : bool :=
  match a, b with
  | Time x, Time y => (x <? y)%Z
  | _, _ => false
  end.

Definition gtb (a b : t) : bool := ltb b a.

Definition geb (a b : t) : bool :=
  match a, b with
  | Time x, Time y => (y <=? x)%Z
  | _, _ => false
  end.

End Date.

Arguments Date.make : simpl never.
Arguments Date.ltb : simpl never.
Arguments Date.gtb : simpl never.
Arguments Date.geb : simpl never.

(** ** The key pool ([src/keyManager.ts]) *)

Record KeyManager := mkKeyManager {
  keys : list string;
  cooldownSeconds : Z;
  currentIndex : nat;
  disabledUntil : gmap string Date.t;
  (** [true] while a lock promise is installed, [false] for [null] *)
  lockPromise : bool
}.

Definition set_currentIndex (i : nat) (km : KeyManager) : KeyManager :=
  mkKeyManager (keys km) (cooldownSeconds km) i (disabledUntil km) (lockPromise km).

Definition set_disabledUntil (m : gmap string Date.t) (km : KeyManager) : KeyManager :=
  mkKeyManager (keys km) (cooldownSeconds km) (currentIndex km) m (lockPromise km).

Definition set_lockPromise (l : bool) (km : KeyManager) : KeyManager :=
  mkKeyManager (keys km) (cooldownSeconds km) (currentIndex km) (disabledUntil km) l.

(** The constructor; on an empty key list the process exits. *)
Definition new_KeyManager (ks : list string) (cooldown : Z) : option KeyManager :=
  match ks with
  | [] => None
  | _ => Some (mkKeyManager ks cooldown 0 ∅ false)
  end.

Section disableKey.
Local Open Scope Z_scope.

(** [new Date(Date.now() + this.cooldownSeconds * 1000)] *)
Definition defaultCooldown (now : Z) (km : KeyManager) : Date.t :=
  Date.make (now + cooldownSeconds km * 1000).

(** The three-way guess of the unit of a reset time. For an integral
    [resetTimeMs] the test [resetTimeMs > Date.now() / 1000] is the
    test against the quotient rounded down. *)
Definition resetDatetime (now resetTimeMs : Z) : Date.t :=
  if now <? resetTimeMs then Date.make resetTimeMs
  else if now / 1000 <? resetTimeMs then Date.make resetTimeMs
  else Date.make (resetTimeMs * 1000).

(** The date stored by [disableKey]. The inner [try] cannot throw:
    [toISOString] is only called there on a date that compared
    greater than the current one, hence a valid one. *)
Definition resolveDisabledUntil (now : Z) (km : KeyManager)
    (resetTimeMs : option number) : Date.t :=
  match resetTimeMs with
  | Some n =>
      if number_truthy n then
        match n with
        | Num h =>
            let d := resetDatetime now h in
            if Date.gtb d (Date.Time now) then d else defaultCooldown now km
        | NaN => defaultCooldown now km
        end
      else defaultCooldown now km
  | None => defaultCooldown now km
  end.

(** [disableKey(key, resetTimeMs?)], run at instant [now] with the
    lock free. The closing log line formats the stored date with
    [toISOString], which throws a RangeError on an Invalid Date; the
    entry is set before that and the lock is released by [finally]. *)
Definition disableKey (key : string) (resetTimeMs : option number) (now : Z)
    (km : KeyManager) : completion unit * KeyManager :=
  let d := resolveDisabledUntil now km resetTimeMs in
  let km' := set_disabledUntil (<[key := d]> (disabledUntil km)) km in
  (match d with
   | Date.Time _ => Normal tt
   | Date.Invalid => Throw RangeError
   end, set_lockPromise false km').

End disableKey.

(** The time zone of the process. [LocalTZA tz t true] is the offset of
    local time from UTC, in milliseconds, at the instant [t];
    [LocalTZA tz t false] is the offset by which the local time value
    [t] is read (where a shift of the clocks repeats or skips local
    times, a time zone settles which offset that is). *)
Record TimeZone := mkTimeZone {
  LocalTZA : Z -> bool -> Z
}.

(** [LocalTime(t)] and [UTC(t)] of the language. *)
Definition LocalTime (tz : TimeZone) (t : Z) : Z := (t + LocalTZA tz t true)%Z.

Definition UTC (tz : TimeZone) (t : Z) : Z := (t - LocalTZA tz t false)%Z.

Section getNextKey.

Variable tz : TimeZone.

(** The date set by the preventive cooldown: [new Date()] moved by
    [setSeconds(getSeconds() + cooldownSeconds)], for an integral
    number of seconds. [setSeconds] works on the fields of local time:
    it takes the local time of the date, puts its seconds to the sum,
    which carries into the minutes and further, and converts the local
    time so obtained back; the result goes through TimeClip. Where the
    offset is the same at both ends this is [cooldownSeconds] seconds
    later; across a shift of the clocks it is not. *)
Definition cooldownDate (now cooldown : Z) : Date.t :=
  Date.make (UTC tz (LocalTime tz now + cooldown * 1000)).

(** What the two [return key] sites share: the optional cooldown. *)
Definition applyCooldown (key : string) (cooldown now : Z)
    (km : KeyManager) : KeyManager :=
  if (0 <? cooldown)%Z
  then set_disabledUntil (<[key := cooldownDate now cooldown]> (disabledUntil km)) km
  else km.

(** The [for] loop of [getNextKey] with [n] iterations left, started
    after [i] iterations. It returns the key it found, the number of
    candidates it examined, and the pool. The cursor is always inside
    the key list (it starts at 0 in a non-empty list and is reduced
    modulo the length), so [this.keys[this.currentIndex]] is a key. *)
Fixpoint scan (n i : nat) (cooldown now : Z) (km : KeyManager)
    : option string * nat * KeyManager :=
  match n with
  | O => (None, i, km)
  | S n' =>
      let key := keys km !!! currentIndex km in
      let km1 := set_currentIndex ((currentIndex km + 1) `mod` length (keys km)) km in
      match disabledUntil km1 !! key with
      | Some until =>
          if Date.geb (Date.Time now) until then
            let km2 := set_disabledUntil (delete key (disabledUntil km1)) km1 in
            (Some key, S i, applyCooldown key cooldown now km2)
          else scan n' (S i) cooldown now km1
      | None => (Some key, S i, applyCooldown key cooldown now km1)
      end
  end.

(** The reducer of [soonestAvailable]: [current < earliest ? current
    : earliest], a date kept as its time value. An Invalid Date never
    compares smaller. *)
Definition earlier (current : Date.t) (earliest : Z) : Z :=
  if Date.ltb current (Date.Time earliest)
  then match current with Date.Time c => c | Date.Invalid => earliest end
  else earliest.

(** The soonest date of the map: the [reduce] over its values, from
    the far-future date [new Date(8640000000000000)]. The result does
    not depend on the order of the values. *)
Definition soonestAvailable (m : gmap string Date.t) : Z :=
  foldr earlier Date.MAX_TIME (map_to_list m).*2.

Inductive attempt_result :=
  | Returned (key : string)
  | Suspended (waitMs : Z).

(** One pass through [getNextKey] up to its [return key] or up to the
    [await] on the timer, at instant [now], entered with the lock
    free. On the second path the lock is released before the timer is
    armed; on the first, by [finally]. The argument [cooldown] is a
    whole number of seconds; the program itself calls [getNextKey]
    without argument, that is with 0. *)
Definition attempt (cooldown now : Z) (km : KeyManager)
    : attempt_result * nat * KeyManager :=
  let km0 := set_lockPromise true km in
  match scan (length (keys km0)) 0 cooldown now km0 with
  | (Some key, i, km1) => (Returned key, i, set_lockPromise false km1)
  | (None, i, km1) =>
      let waitMs := Z.max 0 (soonestAvailable (disabledUntil km1) - now) in
      (Suspended waitMs, i, set_lockPromise false km1)
  end.

(** The timers of Node: a delay below 1 or above [2^31 - 1] is set to
    1 millisecond. *)
Definition TIMEOUT_MAX : Z := 2147483647.

Definition timerDelay (ms : Z) : Z :=
  if ((ms <? 1) || (TIMEOUT_MAX <? ms))%Z then 1%Z else ms.

(** What surrounds one suspended caller: [fires now ms] is the instant
    at which a timeout armed at [now] for [ms] milliseconds runs its
    callback, and [meanwhile from to km] is the pool as the other
    requests leave it between the suspension at [from] and that
    callback at [to]. *)
Record world := mkWorld {
  fires : Z -> Z -> Z;
  meanwhile : Z -> Z -> KeyManager -> KeyManager
}.

(** [getNextKey]: attempts, each followed by a sleep and the
    recursive call, at most [fuel] times. The result is the key, the
    instant of the return and the pool. *)
Fixpoint getNextKey (w : world) (fuel : nat) (cooldown now : Z) (km : KeyManager)
    : option (string * Z * KeyManager) :=
  match attempt cooldown now km with
  | (Returned key, _, km') => Some (key, now, km')
  | (Suspended waitMs, _, km') =>
      match fuel with
      | O => None
      | S fuel' =>
          let woken := fires w now waitMs in
          getNextKey w fuel' cooldown woken (meanwhile w now woken km')
      end
  end.

End getNextKey.

(** ** Vocabulary for the properties of the key pool *)


(** A key is eligible at [now] when it has no entry, or an entry whose
    date has been reached. *)
Definition eligible (now : Z) (m : gmap string Date.t) (key : string) : bool :=
  match m !! key with
  | Some until => Date.geb (Date.Time now) until
  | None => true
  end.

(** The [j]-th candidate counted from the cursor. *)
Definition candidate (km : KeyManager) (j : nat) : string :=
  keys km !!! ((currentIndex km + j) `mod` length (keys km)).

(** The cursor points into the key list (so the list is not empty). *)
Definition cursor_ok (km : KeyManager) : Prop :=
  currentIndex km < length (keys km).

(** What a scan leaves when it selects [key] after examining [j + 1]
    candidates. *)
Definition selected (tz : TimeZone) (key : string) (j : nat) (cooldown now : Z)
    (km : KeyManager) : KeyManager :=
  applyCooldown tz key cooldown now
    (set_disabledUntil (delete key (disabledUntil km))
       (set_currentIndex ((currentIndex km + S j) `mod` length (keys km)) km)).

(** A well-formed pool between two callbacks: the cursor points into
    the key list, the lock is free, and every penalty entry belongs to
    a key of the pool and holds a valid date. *)
Definition pool_ok (km : KeyManager) : Prop :=
  cursor_ok km
  /\ lockPromise km = false
  /\ forall key d, disabledUntil km !! key = Some d ->
       key ∈ keys km /\ exists T, d = Date.Time T /\ (T <= Date.MAX_TIME)%Z.

(** Calls of [getNextKey] one after the other, each with its cooldown
    argument and the instant at which it is made, the one before
    having returned: [None] when one of them is still waiting after
    [fuel] timers. *)
Fixpoint acquisitions (tz : TimeZone) (w : world) (fuel : nat) (calls : list (Z * Z))
    (km : KeyManager) : option (list string * KeyManager) :=
  match calls with
  | [] => Some ([], km)
  | (cooldown, now) :: calls' =>
      match getNextKey tz w fuel cooldown now km with
      | Some (key, _, km1) =>
          match acquisitions tz w fuel calls' km1 with
          | Some (rest, km2) => Some (key :: rest, km2)
          | None => None
          end
      | None => None
      end
  end.

(** Sample time zones: universal time, a zone at a fixed offset, and
    a zone that, from the instant [shift] on, is at [after] instead of
    [before], its clocks being moved back ([after < before]): the
    local times of the repeated stretch are read with the offset
    [before]. *)
Definition zone_UTC : TimeZone := mkTimeZone (fun _ _ => 0%Z).

Definition zone_fixed (offset : Z) : TimeZone := mkTimeZone (fun _ _ => offset).

Definition zone_shifting (shift before after : Z) : TimeZone :=
  mkTimeZone (fun t isUTC =>
                if isUTC then (if (t <? shift)%Z then before else after)
                else (if (t <? shift + before)%Z then before else after)).

(** Sample pools. *)
Definition pool1 : KeyManager := mkKeyManager ["k"] 60 0 ∅ false.
Definition pool2 : KeyManager := mkKeyManager ["a"; "c"] 60 0 ∅ false.

(** The one-key pool after its key was penalized at instant 0 for the
    default cooldown, that is until instant 60000. *)
Definition penalized1 : KeyManager := (disableKey "k" None 0 pool1).2.

(** A world in which nothing else touches the pool, with timers that
    fire on time. *)
Definition quiet_world : world :=
  mkWorld (fun now ms => now + timerDelay ms)%Z (fun _ _ km => km).

(** A world in which, one millisecond before each wake-up of the
    suspended caller, another request that holds the key ["k"] receives
    a rate-limit reply and penalizes that key. *)
Definition renewing_world : world :=
  mkWorld (fun now ms => now + timerDelay ms)%Z
          (fun _ woken km => (disableKey "k" None (woken - 1) km).2).

(** ** Strings *)

Definition LF : ascii := "010"%char.

(** The white space and line terminators of [\s] and of [trimStart]
    among the code units below 256: tab, line feed, vertical tab, form
    feed, carriage return, space and no-break space. *)
Definition is_space (a : ascii) : bool :=
  let n := N_of_ascii a in
  ((9 <=? n) && (n <=? 13) || (n =? 32) || (n =? 160))%N.

Fixpoint trimStart (s : string) : string :=
  match s with
  | String a s' => if is_space a then trimStart s' else s
  | EmptyString => s
  end.

(** [s.startsWith(p)] *)
Fixpoint startsWith (s p : string) {struct p} : bool :=
  match p, s with
  | EmptyString, _ => true
  | String a p', String b s' => Ascii.eqb a b && startsWith s' p'
  | String _ _, EmptyString => false
  end.

(** [s.indexOf(p)], with [None] for -1. *)
Definition indexOf (s p : string) : option nat := String.index 0 p s.

(** [s.includes(p)] *)
Definition includes (s p : string) : bool :=
  match indexOf s p with Some _ => true | None => false end.

(** [s.substring(i)], up to the end. *)
Definition substring_from (i : nat) (s : string) : string :=
  String.substring i (String.length s - i) s.

(** ** Values read from JSON ([src/utils.ts]) *)

(** What [JSON.parse] returns. A number is carried by its canonical
    rendering ([Number::toString], as in ["0"], ["1700000000"],
    ["1.5"]), the only view this program takes of it; an object by its
    member list, one member per name, in order. *)
#[local] Unset Elimination Schemes.
Inductive json :=
  | JNull
  | JBool (b : bool)
  | JNum (text : string)
  | JStr (s : string)
  | JArr (items : list json)
  | JObj (members : list (string * json)).

#[local] Set Elimination Schemes.

(** A JavaScript value of this program: [undefined], or a value from
    [JSON.parse]. *)
Inductive value :=
  | Undefined
  | Val (v : json).

(** A member that may be missing, as a value. *)
Definition of_option (o : option json) : value :=
  match o with
  | Some v => Val v
  | None => Undefined
  end.

Fixpoint member (name : string) (members : list (string * json)) : option json :=
  match members with
  | [] => None
  | (n, v) :: rest => if String.eqb n name then Some v else member name rest
  end.

(** [o.name] and [o['name']], for the member names this program uses:
    none of them is an index, [length], or a name of a built-in
    prototype, so only an object can have one. Reading a member of
    [undefined] or [null] throws. *)
Definition get (o : value) (name : string) : completion value :=
  match o with
  | Undefined | Val JNull => Throw TypeError
  | Val (JObj members) => Normal (of_option (member name members))
  | Val _ => Normal Undefined
  end.

(** [o.name = v] on an object that has the member already: the member
    keeps its place. *)
Fixpoint set_member (name : string) (v : json) (members : list (string * json))
    : list (string * json) :=
  match members with
  | [] => [(name, v)]
  | (n, x) :: rest =>
      if String.eqb n name then (n, v) :: rest else (n, x) :: set_member name v rest
  end.

(** Truthiness. *)
Definition truthy (v : value) : bool :=
  match v with
  | Undefined | Val JNull => false
  | Val (JBool b) => b
  | Val (JNum text) => negb (String.eqb text "0")
  | Val (JStr s) => negb (String.eqb s "")
  | Val (JArr _) | Val (JObj _) => true
  end.

Arguments truthy : simpl never.

(** [typeof v === 'object'] *)
Definition typeof_object (v : value) : bool :=
  match v with
  | Val JNull | Val (JArr _) | Val (JObj _) => true
  | _ => false
  end.

(** [v === 'text'] *)
Definition is_string (v : value) (text : string) : bool :=
  match v with
  | Val (JStr s) => String.eqb s text
  | _ => false
  end.

(** [ToString] of a parsed value. An array is joined with commas, [null]
    elements as empty strings. A plain object gives ["[object Object]"],
    unless it has a member named [toString]: a member from JSON is never
    callable, so that the conversion finds no method that returns a
    primitive, and throws. *)
Fixpoint ToString (v : json) : completion string :=
  match v with
  | JNull => Normal "null"
  | JBool true => Normal "true"
  | JBool false => Normal "false"
  | JNum text => Normal text
  | JStr s => Normal s
  | JArr items =>
      (fix join (l : list json) : completion string :=
         match l with
         | [] => Normal ""
         | x :: rest =>
             s ← match x with JNull => Normal "" | _ => ToString x end;
             match rest with
             | [] => Normal s
             | _ => r ← join rest; Normal (s +:+ "," +:+ r)
             end
         end) items
  | JObj members =>
      match member "toString" members with
      | Some _ => Throw TypeError
      | None => Normal "[object Object]"
      end
  end.

Definition is_digit (a : ascii) : bool :=
  let n := N_of_ascii a in ((48 <=? n) && (n <=? 57))%N.

(** The value of the longest prefix of decimal digits, [None] when
    there is no digit. *)
Fixpoint digits (acc : option Z) (s : string) : option Z :=
  match s with
  | String a s' =>
      if is_digit a
      then digits (Some (default 0 acc * 10 + Z.of_N (N_of_ascii a) - 48)%Z) s'
      else acc
  | EmptyString => acc
  end.

(** [parseInt(text, 10)]: leading white space, a sign, then the digits;
    NaN without a digit. (A value beyond 2^53 is rounded by the
    program; no such value is a valid time.) *)
Definition parseInt_string (text : string) : number :=
  match trimStart text with
  | String "-" s => match digits None s with Some z => Num (- z) | None => NaN end
  | String "+" s => match digits None s with Some z => Num z | None => NaN end
  | s => match digits None s with Some z => Num z | None => NaN end
  end.

(** [parseInt(v, 10)] *)
Definition parseInt (v : json) : completion number :=
  text ← ToString v; Normal (parseInt_string text).

(** [h['x-ratelimit-reset-requests'] || h['x-ratelimit-reset-tokens']
     || h['x-ratelimit-reset'] || undefined] *)
Definition resetHeader (h : value) : completion value :=
  a ← get h "x-ratelimit-reset-requests";
  if truthy a then Normal a else
  b ← get h "x-ratelimit-reset-tokens";
  if truthy b then Normal b else
  c ← get h "x-ratelimit-reset";
  if truthy c then Normal c else Normal Undefined.

(** The condition of the [if] of [checkRateLimit]; the last [match] is
    the test [typeof bodyObj.error === 'string'] and what follows it. *)
Definition isRateLimitError (bodyObj : value) : completion bool :=
  error ← get bodyObj "error";
  if truthy error then
    if typeof_object error then
      type ← get error "type";
      if is_string type "rate_limit_exceeded" then Normal true else
      code ← get error "code";
      if is_string code "rate_limit_exceeded" then Normal true else
      Normal false
    else
      match error with
      | Val (JStr text) =>
          Normal (includes text "rate limit" || includes text "rate_limit"
                  || includes text "too many requests")
      | _ => Normal false
      end
  else Normal false.

(** The body of the [try] of [checkRateLimit] after [JSON.parse]:
    [Some] result for a [return] inside the [if], [None] when control
    leaves the [try] without returning. *)
Definition checkRateLimit_parsed (bodyObj : value)
    : completion (option (bool * option number)) :=
  limited ← isRateLimitError bodyObj;
  if (limited : bool) then
    error ← get bodyObj "error";
    errorHeaders ← (if truthy error then get error "headers" else Normal error);
    resetTimeMs ← (if truthy error && truthy errorHeaders
                   then resetHeader errorHeaders else Normal Undefined);
    topHeaders ← (if negb (truthy resetTimeMs) then get bodyObj "headers"
                  else Normal Undefined);
    resetTimeMs ← (if negb (truthy resetTimeMs) && truthy topHeaders
                   then resetHeader topHeaders else Normal resetTimeMs);
    match resetTimeMs with
    | Val raw =>
        if truthy resetTimeMs
        then n ← parseInt raw; Normal (Some (true, Some n))
        else Normal (Some (true, None))
    | Undefined => Normal (Some (true, None))
    end
  else Normal None.

(** The price members a free model has at ["0"]. *)
Definition prices : list string :=
  ["prompt"; "completion"; "request"; "image"; "web_search"; "internal_reasoning"].

(** [model.pricing && prices.every(k => model.pricing[k] === '0')] *)
Definition isFreeModel (model : json) : completion bool :=
  pricing ← get (Val model) "pricing";
  if truthy pricing then
    (fix every (ks : list string) : completion bool :=
       match ks with
       | [] => Normal true
       | k :: ks' =>
           p ← get pricing k;
           if is_string p "0" then every ks' else Normal false
       end) prices
  else Normal false.

(** The [for] loop of [removePaidModels]: the free models, in order. *)
Fixpoint clearData (models : list json) : completion (list json) :=
  match models with
  | [] => Normal []
  | model :: rest =>
      free ← isFreeModel model;
      kept ← clearData rest;
      Normal (if (free : bool) then model :: kept else kept)
  end.

(** The body of the [try] of [removePaidModels] after [JSON.parse]:
    [Some] for the filtered document, [None] when control leaves the
    [try] without returning. *)
Definition removePaidModels_parsed (data : json) : completion (option json) :=
  list ← get (Val data) "data";
  match list, data with
  | Val (JArr models), JObj members =>
      kept ← clearData models;
      match kept with
      | [] => Normal None
      | _ => Normal (Some (JObj (set_member "data" (JArr kept) members)))
      end
  | _, _ => Normal None
  end.

Section parsing.

(** The parser and the printer of the platform: [JSON_parse body] is
    [None] when [JSON.parse] throws a SyntaxError. *)
Variable JSON_parse : string -> option json.
Variable JSON_stringify : json -> string.

(** [checkRateLimit(body)]: whatever is thrown inside the [try] is
    caught, and the function returns [[false, undefined]]. *)
Definition checkRateLimit (body : string) : bool * option number :=
  match JSON_parse body with
  | Some bodyObj =>
      match checkRateLimit_parsed (Val bodyObj) with
      | Normal (Some result) => result
      | Normal None => (false, None)
      | Throw _ => (false, None)
      end
  | None => (false, None)
  end.

(** [removePaidModels(body)], with the [free_only] switch of the
    configuration. *)
Definition removePaidModels (free_only : bool) (body : string) : string :=
  if negb free_only then body else
  match JSON_parse body with
  | Some data =>
      match removePaidModels_parsed data with
      | Normal (Some filtered) => JSON_stringify filtered
      | Normal None => body
      | Throw _ => body
      end
  | None => body
  end.

End parsing.

(** ** The access check ([verifyAccessKey], [src/utils.ts]) *)

(** Folding of the ASCII letters, the only case folding that can make
    a code unit match a letter of [Bearer]. *)
Definition lower (a : ascii) : ascii :=
  let n := N_of_ascii a in
  if ((65 <=? n) && (n <=? 90))%N then ascii_of_N (n + 32) else a.

(** What is left of [s] after the prefix [p], compared without case. *)
Fixpoint strip_prefix_ci (p s : string) {struct p} : option string :=
  match p, s with
  | EmptyString, _ => Some s
  | String a p', String b s' =>
      if Ascii.eqb (lower a) (lower b) then strip_prefix_ci p' s' else None
  | String _ _, EmptyString => None
  end.

Fixpoint no_space (s : string) : bool :=
  match s with
  | String a s' => negb (is_space a) && no_space s'
  | EmptyString => true
  end.

(** [authorization.match(/^Bearer\s+(\S+)$/i)]: the first group, when
    the header is the word, at least one white space, and a non-empty
    rest without white space. *)
Definition matchBearer (authorization : string) : option string :=
  match strip_prefix_ci "Bearer" authorization with
  | Some rest =>
      let token := trimStart rest in
      if (String.length token <? String.length rest)
         && (0 <? String.length token) && no_space token
      then Some token else None
  | None => None
  end.

(** [verifyAccessKey(authorization)], with [config.access.key]. *)
Definition verifyAccessKey (accessKey : string) (authorization : option string)
    : completion bool :=
  if String.eqb accessKey "" then Normal true else
  match authorization with
  | None | Some EmptyString => Throw (Error "缺少授權標頭")
  | Some header =>
      match matchBearer header with
      | None => Throw (Error "無效的授權標頭格式")
      | Some token =>
          if negb (String.eqb token accessKey)
          then Throw (Error "無效的訪問金鑰")
          else Normal true
      end
  end.

(** The last step of [normalizeAndValidateConfig] ([src/config.ts]): a
    configured key that is not a string is replaced by the empty
    string. *)
Definition normalizeAccessKey (configured : value) : string :=
  match configured with
  | Val (JStr key) => key
  | _ => ""
  end.

(** ** The request handler ([router.all], [src/routes.ts]) *)

Record Config := mkConfig {
  access_key : string;
  public_endpoints : list string
}.

Record Request := mkRequest {
  (** [req.params[0]], the path below [/api/v1/] *)
  path : string;
  (** [req.headers.authorization] *)
  authorization : option string
}.

(** A response: the status and, for the responses built here, the
    text of the [error] member. *)
Record Response := mkResponse {
  status : Z;
  error_text : string
}.

(** The calls made on the key pool while a request is handled. *)
Inductive pool_call :=
  | CallGetNextKey
  | CallDisableKey (key : string) (resetTimeMs : option number).

Definition isPublic (cfg : Config) (req : Request) : bool :=
  existsb (fun ep => startsWith ("/api/v1/" +:+ path req) ep) (public_endpoints cfg).

(** [error instanceof Error ? error.message : '未授權'] *)
Definition error_message (e : error) : string :=
  match e with
  | Error message => message
  | SyntaxError | TypeError | RangeError => ""
  end.

(** The access check at the head of the handler: [Some] response when
    the handler returns there. *)
Definition authorize (cfg : Config) (req : Request) : option Response :=
  if negb (isPublic cfg req) then
    match verifyAccessKey (access_key cfg) (authorization req) with
    | Normal _ => None
    | Throw e => Some (mkResponse 401 (error_message e))
    end
  else None.

Section handler.

Variable tz : TimeZone.

(** The world of the caller while it waits for a key, and the rest of
    the handler once it has one: the exchange with the upstream, which
    gives the response, the pool, and the calls made on the pool. *)
Variable w : world.
Variable forward :
  Request -> string -> Z -> KeyManager -> Response * KeyManager * list pool_call.

(** The handler of [/api/v1/*], started at [now]: [None] while the
    request is still waiting for a key after [fuel] timers. *)
Definition handler (fuel : nat) (cfg : Config) (req : Request) (now : Z)
    (km : KeyManager) : option (Response * KeyManager * list pool_call) :=
  match authorize cfg req with
  | Some unauthorized => Some (unauthorized, km, [])
  | None =>
      if isPublic cfg req then Some (forward req "" now km)
      else
        match getNextKey tz w fuel 0 now km with
        | None => None
        | Some (apiKey, woken, km') =>
            if String.eqb apiKey ""
            then Some (mkResponse 503 "目前沒有可用的 API 金鑰", km', [CallGetNextKey])
            else
              let '(response, km'', calls) := forward req apiKey woken km' in
              Some (response, km'', CallGetNextKey :: calls)
        end
  end.

End handler.

(** ** The streaming relay ([proxyWithHTTP], [src/routes.ts]) *)

Definition blank_line : string := String LF (String LF EmptyString).

(** The text of a chunk is the chunk itself, code unit for byte, when
    every byte is below 128. The listener works on the text
    [chunk.toString()] of each chunk; for a chunk with other bytes
    that text depends on where the stream was cut, and is not
    modelled: what is said of the bytes received is said of chunks of
    ASCII bytes. *)
Fixpoint isASCII (s : string) : bool :=
  match s with
  | String a s' => (N_of_ascii a <? 128)%N && isASCII s'
  | EmptyString => true
  end.

(** [chunkStr.trimStart().startsWith(':')], on the text of the
    chunk. *)
Definition isComment (chunkStr : string) : bool :=
  startsWith (trimStart chunkStr) ":".

(** The [while] loop of the [data] listener: the messages written and
    what stays in the buffer. Each turn takes at least two code units
    off the buffer, so its length bounds the number of turns. *)
Fixpoint drain (turns : nat) (buffer : string) : list string * string :=
  match turns with
  | O => ([], buffer)
  | S turns' =>
      match indexOf buffer blank_line with
      | Some idx =>
          let message := String.substring 0 (idx + 2) buffer in
          let '(messages, rest) := drain turns' (substring_from (idx + 2) buffer) in
          (message :: messages, rest)
      | None => ([], buffer)
      end
  end.

(** The [data] listener, from the text [chunkStr] of the chunk on:
    what it writes to the client for one chunk, and the buffer it
    leaves. *)
Definition onData (chunkStr buffer : string) : list string * string :=
  let buffer := buffer +:+ chunkStr in
  if isComment chunkStr then ([chunkStr], buffer)
  else drain (String.length buffer) buffer.

(** The [end] listener. *)
Definition onEnd (buffer : string) : list string :=
  if (0 <? String.length buffer) then [buffer] else [].

(** Everything written to the client for a stream that arrives as
    chunks with the texts [chunks] and then ends. *)
Fixpoint relay (chunks : list string) (buffer : string) : list string :=
  match chunks with
  | [] => onEnd buffer
  | chunkStr :: chunks' =>
      let '(written, buffer') := onData chunkStr buffer in
      written ++ relay chunks' buffer'
  end.

(** The bytes of a list of strings, end to end. *)
Definition bytes (l : list string) : string := foldr String.append "" l.

(** The sample stream: a comment frame and a data frame. *)
Definition comment_frame : string := ":hi" +:+ blank_line.
Definition data_frame : string := "a:1" +:+ blank_line.

(** ** Vocabulary for the properties of the extractor and the filter *)

Definition RESET_HEADERS : list string :=
  ["x-ratelimit-reset-requests"; "x-ratelimit-reset-tokens"; "x-ratelimit-reset"].

(** The first of the reset headers that a header map holds with a
    truthy value. *)
Definition firstHeader (headers : option json) : option json :=
  match headers with
  | Some (JObj members) =>
      head (omap (fun name =>
                    match member name members with
                    | Some v => if truthy (Val v) then Some v else None
                    | None => None
                    end) RESET_HEADERS)
  | _ => None
  end.

(** The header map of an error field. *)
Definition errorHeaders (error : json) : option json :=
  match error with
  | JObj errorMembers => member "headers" errorMembers
  | _ => None
  end.

(** The header value a limited body carries: from the header map of
    the error object, else from the top-level one. *)
Definition rawResetTime (bodyMembers : list (string * json)) (error : json)
    : option json :=
  match firstHeader (errorHeaders error) with
  | Some raw => Some raw
  | None => firstHeader (member "headers" bodyMembers)
  end.

(** The reset time as the specification words it: the first of the
    reset headers that a header map holds at all, whatever its value;
    from the header map of the error object, else from the top-level
    one. *)
Definition firstPresent (headers : option json) : option json :=
  match headers with
  | Some (JObj members) => head (omap (fun name => member name members) RESET_HEADERS)
  | _ => None
  end.

Definition presentResetTime (bodyMembers : list (string * json)) (error : json)
    : option json :=
  match firstPresent (errorHeaders error) with
  | Some raw => Some raw
  | None => firstPresent (member "headers" bodyMembers)
  end.

(** The result [resumeAt] is the value [raw] itself: both are absent,
    or they are the same number. *)
Definition is_raw_value (resumeAt : option number) (raw : option json) : Prop :=
  match resumeAt, raw with
  | None, None => True
  | Some (Num z), Some (JNum text) => text = pretty z
  | _, _ => False
  end.

(** The error field has the shape of a rate-limit error. *)
Definition rateLimitShaped (error : json) : Prop :=
  match error with
  | JObj errorMembers =>
      member "type" errorMembers = Some (JStr "rate_limit_exceeded")
      \/ member "code" errorMembers = Some (JStr "rate_limit_exceeded")
  | JStr text =>
      includes text "rate limit" = true
      \/ includes text "rate_limit" = true
      \/ includes text "too many requests" = true
  | _ => False
  end.

(** The parsed value has no error field. *)
Definition noErrorField (v : json) : Prop :=
  match v with
  | JObj members => member "error" members = None
  | _ => True
  end.

(** The price member [name] of a pricing object is the string
    ["0"]. *)
Definition zero (pricing : list (string * json)) (name : string) : bool :=
  match member name pricing with
  | Some (JStr p) => String.eqb p "0"
  | _ => false
  end.

(** A model that is free as the specification words it: its pricing
    is an object whose prompt, completion, request, image, web search
    and internal reasoning prices are all the string ["0"]. *)
Definition zeroPriced (model : json) : bool :=
  match model with
  | JObj members =>
      match member "pricing" members with
      | Some (JObj pricing) =>
          zero pricing "prompt" && zero pricing "completion"
          && zero pricing "request" && zero pricing "image"
          && zero pricing "web_search" && zero pricing "internal_reasoning"
      | _ => false
      end
  | _ => false
  end.

(** [JSON.parse] as far as the samples need it: the empty object, the
    empty array, and text that is not JSON. *)
Definition sample_parse (body : string) : option json :=
  if String.eqb body "{}" then Some (JObj [])
  else if String.eqb body "[]" then Some (JArr [])
  else None.

(** Sample documents. *)
Definition free_model : json :=
  JObj [("pricing", JObj [("prompt", JStr "0"); ("completion", JStr "0");
                          ("request", JStr "0"); ("image", JStr "0");
                          ("web_search", JStr "0"); ("internal_reasoning", JStr "0")])].

Definition paid_model : json :=
  JObj [("pricing", JObj [("prompt", JStr "1"); ("completion", JStr "0");
                          ("request", JStr "0"); ("image", JStr "0");
                          ("web_search", JStr "0"); ("internal_reasoning", JStr "0")])].

Definition catalog : json := JObj [("data", JArr [free_model; paid_model])].

(** [{"error": {"type": "rate_limit_exceeded",
                "headers": {"x-ratelimit-reset": {"toString": 1}}}}] *)
Definition limited_unprintable : json :=
  JObj [("error",
         JObj [("type", JStr "rate_limit_exceeded");
               ("headers",
                JObj [("x-ratelimit-reset", JObj [("toString", JNum "1")])])])].

(** [{"error": {"code": "rate_limit_exceeded",
                "headers": {"x-ratelimit-reset-requests": "",
                            "x-ratelimit-reset-tokens": "6m0s"}},
      "headers": {"x-ratelimit-reset": "1700000000"}}] *)
Definition limited_duration : json :=
  JObj [("error",
         JObj [("code", JStr "rate_limit_exceeded");
               ("headers",
                JObj [("x-ratelimit-reset-requests", JStr "");
                      ("x-ratelimit-reset-tokens", JStr "6m0s")])]);
        ("headers", JObj [("x-ratelimit-reset", JStr "1700000000")])].

(** ** The rendering of a key in the log ([maskKey], [src/keyManager.ts]) *)

(** [maskKey(key)], the rendering of a key in the log lines. *)
Definition maskKey (key : string) : string :=
  if String.length key <=? 8 then "****"
  else (String.substring 0 4 key +:+ "****")
       +:+ substring_from (String.length key - 4) key.

(** ** Runs of the key pool *)

(** What the requests do to the pool, one atomic block at a time: an
    attempt of [getNextKey], or a [disableKey]. *)
Inductive pool_op :=
  | Acquire (cooldown now : Z)
  | Penalize (key : string) (resetTimeMs : option number) (now : Z).

Definition pool_step (tz : TimeZone) (km : KeyManager) (op : pool_op) : KeyManager :=
  match op with
  | Acquire cooldown now => (attempt tz cooldown now km).2
  | Penalize key resetTimeMs now => (disableKey key resetTimeMs now km).2
  end.

(** The pool after the blocks [ops], in this order. *)
Definition pool_run (tz : TimeZone) (ops : list pool_op) (km : KeyManager) : KeyManager :=
  foldl (pool_step tz) km ops.

(** The results of the attempts among the blocks [ops], in this
    order. *)
Fixpoint pool_results (tz : TimeZone) (ops : list pool_op) (km : KeyManager)
    : list attempt_result :=
  match ops with
  | [] => []
  | op :: ops' =>
      match op with
      | Acquire cooldown now => [(attempt tz cooldown now km).1.1]
      | Penalize _ _ _ => []
      end ++ pool_results tz ops' (pool_step tz km op)
  end.

(** The block is a [disableKey] of [key]. *)
Definition penalizes (key : string) (op : pool_op) : Prop :=
  match op with
  | Penalize k _ _ => k = key
  | Acquire _ _ => False
  end.

(** The block is no attempt made at [T] or later. *)
Definition made_before (T : Z) (op : pool_op) : Prop :=
  match op with
  | Acquire _ now => (now < T)%Z
  | Penalize _ _ _ => True
  end.

(** Since the pool [km] was left, nobody has penalized a key: the key
    list of [km1] is that of [km], and each entry of [km1] is as it
    was in [km], or was removed, its date reached at [b]. *)
Definition only_released (b : Z) (km km1 : KeyManager) : Prop :=
  keys km1 = keys km
  /\ forall key,
       disabledUntil km1 !! key = disabledUntil km !! key
       \/ (disabledUntil km1 !! key = None
           /\ eligible b (disabledUntil km) key = true).

(** The block is an attempt without cooldown, made at [b] at the
    latest. *)
Definition acquires_by (b : Z) (op : pool_op) : Prop :=
  match op with
  | Acquire cooldown now => (cooldown <= 0)%Z /\ (now <= b)%Z
  | Penalize _ _ _ => False
  end.



(** The two-key pool after ["c"] was penalized at instant 0 for the
    default cooldown, that is until instant 60000; and a history of
    that pool: an attempt, a penalty of the other key, and an attempt
    one millisecond before ["c"] resumes. *)
Definition penalized_c : KeyManager := (disableKey "c" None 0 pool2).2.

Definition history_c : list pool_op :=
  [Acquire 0 1000; Penalize "a" None 2000; Acquire 0 59999].

(** ** More on strings *)

(** [s.toLowerCase()] with the folding of the ASCII letters: the
    comparisons of this program are with ASCII names, which no other
    code unit can fold to. *)
Fixpoint toLowerCase (s : string) : string :=
  match s with
  | String a s' => String (lower a) (toLowerCase s')
  | EmptyString => EmptyString
  end.

(** A string of white space only. *)
Fixpoint all_space (s : string) : bool :=
  match s with
  | String a s' => is_space a && all_space s'
  | EmptyString => true
  end.

(** A string of decimal digits only. *)
Fixpoint all_digit (s : string) : bool :=
  match s with
  | String a s' => is_digit a && all_digit s'
  | EmptyString => true
  end.

(** The first code unit is a decimal digit. *)
Definition starts_with_digit (s : string) : bool :=
  match s with
  | String a _ => is_digit a
  | EmptyString => false
  end.

(** The largest integer below which every integer is a number of the
    program, [2^53]. *)
Definition MAX_SAFE : Z := 9007199254740992.

(** ** The headers sent upstream ([prepareForwardHeaders],
    [src/utils.ts]; [proxyWithHTTP], [src/routes.ts]) *)

(** A value of [req.headers]: a string, a list of strings, or
    [undefined]. *)
Inductive header_value :=
  | HString (s : string)
  | HArray (l : list string)
  | HUndefined.

(** The test on [lowerKey]. *)
Definition forwardable (key : string) : bool :=
  let lowerKey := toLowerCase key in
  negb (String.eqb lowerKey "host")
  && negb (String.eqb lowerKey "content-length")
  && negb (String.eqb lowerKey "connection")
  && negb (String.eqb lowerKey "authorization").

(** [headers[key] = v] on an object created by [{}]: the name
    [__proto__] is the accessor of the prototype, and setting it to a
    string creates no member. *)
Definition assign (key v : string) (headers : gmap string string)
    : gmap string string :=
  if String.eqb key "__proto__" then headers else <[key := v]> headers.

(** One turn of the loop of [prepareForwardHeaders]. *)
Definition forwardHeader (headers : gmap string string)
    (entry : string * header_value) : gmap string string :=
  let '(key, value) := entry in
  if forwardable key then
    match value with
    | HString s => assign key s headers
    | HArray (first :: _) => assign key first headers
    | HArray [] | HUndefined => headers
    end
  else headers.

(** [prepareForwardHeaders(request)], on the entries of
    [request.headers] in their order. *)
Definition prepareForwardHeaders (entries : list (string * header_value))
    : gmap string string :=
  foldl forwardHeader ∅ entries.

(** The headers of the upstream request of [proxyWithHTTP] and of
    [handleModelsEndpoint]. *)
Definition forwardHeaders (entries : list (string * header_value))
    (apiKey : string) : gmap string string :=
  let headers := prepareForwardHeaders entries in
  if String.eqb apiKey "" then headers
  else <["Authorization" := "Bearer " +:+ apiKey]> headers.

(** What a header value forwards: the string, or the first of the
    list. *)
Definition forwarded_value (value : header_value) : option string :=
  match value with
  | HString s => Some s
  | HArray l => head l
  | HUndefined => None
  end.

(** ** The reply of the upstream on the buffered path ([proxyWithHTTP],
    [src/routes.ts]) *)

Section proxyWithHTTP.

Variable JSON_parse : string -> option json.

(** The branch of [proxyWithHTTP] for a response that is not streamed,
    once the upstream has answered with [upstream_status] and the body
    [data], at instant [now]: the status and the body sent to the
    client, the pool, and the calls made on the pool. What
    [disableKey] throws is caught. *)
Definition proxyBuffered (apiKey : string) (upstream_status : Z) (data : string)
    (now : Z) (km : KeyManager) : (Z * string) * KeyManager * list pool_call :=
  if (400 <=? upstream_status)%Z then
    let '(hasRateLimitError, resetTimeMs) := checkRateLimit JSON_parse data in
    if hasRateLimitError && negb (String.eqb apiKey "") then
      ((upstream_status, data), (disableKey apiKey resetTimeMs now km).2,
       [CallDisableKey apiKey resetTimeMs])
    else ((upstream_status, data), km, [])
  else ((upstream_status, data), km, []).

End proxyWithHTTP.

(** [{"error": {"code": 429, "message": "Rate limit exceeded"}}] *)
Definition limited_by_status : json :=
  JObj [("error", JObj [("code", JNum "429"); ("message", JStr "Rate limit exceeded")])].

(** [{"error": {"code": "rate_limit_exceeded"},
      "headers": {"x-ratelimit-reset": "1700000030000"}}] *)
Definition limited_until : json :=
  JObj [("error", JObj [("code", JStr "rate_limit_exceeded")]);
        ("headers", JObj [("x-ratelimit-reset", JStr "1700000030000")])].

(** ** Errors of the completions path ([handleCompletions],
    [src/routes.ts]) *)

(** [error.error || error.message] *)
Definition apiErrorPayload (error_error : value) (error_message : string) : json :=
  match error_error with
  | Val v => if truthy error_error then v else JStr error_message
  | Undefined => JStr error_message
  end.

(** The reply to an API error: the status [error.status || 500] and
    the document [error.error || { error: error.message }]. *)
Definition apiErrorReply (error_status : option Z) (error_error : value)
    (error_message : string) : Z * json :=
  (match error_status with
   | Some s => if (s =? 0)%Z then 500%Z else s
   | None => 500%Z
   end,
   match error_error with
   | Val v => if truthy error_error then v else JObj [("error", JStr error_message)]
   | Undefined => JObj [("error", JStr error_message)]
   end).

Section handleCompletions.

Variable JSON_parse : string -> option json.
Variable JSON_stringify : json -> string.

(** The [catch] of [handleCompletions] for an [OpenAI.APIError] with
    the members [status], [error] and [message], at instant [now]: the
    reply, the pool, and the calls made on the pool. What [disableKey]
    throws is not caught here: the reply is then left to the caller. *)
Definition onAPIError (apiKey : string) (error_status : option Z)
    (error_error : value) (error_message : string) (now : Z) (km : KeyManager)
    : completion (Z * json) * KeyManager * list pool_call :=
  let errorBody := JSON_stringify (apiErrorPayload error_error error_message) in
  let '(hasRateLimitError, resetTimeMs) := checkRateLimit JSON_parse errorBody in
  let reply := apiErrorReply error_status error_error error_message in
  if (hasRateLimitError : bool) then
    let '(outcome, km') := disableKey apiKey resetTimeMs now km in
    ((_ ← outcome; Normal reply), km', [CallDisableKey apiKey resetTimeMs])
  else (Normal reply, km, []).

End handleCompletions.

(** [{"type": "rate_limit_exceeded", "message": "slow down"}] *)
Definition inner_error : json :=
  JObj [("type", JStr "rate_limit_exceeded"); ("message", JStr "slow down")].

(** ** The arguments of the completions call ([handleCompletions],
    [src/routes.ts]) *)

Definition unsupportedParams : list string :=
  ["include_reasoning"; "transforms"; "route"; "provider"].

(** [delete o[name]] *)
Definition delete_member (name : string) (members : list (string * json))
    : list (string * json) :=
  List.filter (fun m => negb (String.eqb m.1 name)) members.

(** The members copied by [{ ...requestBody }]: those of an object,
    the elements of an array or the code units of a string under their
    indices, and none for [undefined] and the other values. *)
Definition spread (requestBody : value) : list (string * json) :=
  match requestBody with
  | Val (JObj members) => members
  | Val (JArr items) => imap (fun i item => (pretty i, item)) items
  | Val (JStr s) =>
      imap (fun i c => (pretty i, JStr (String c EmptyString)))
        (String.list_ascii_of_string s)
  | _ => []
  end.

(** One turn of the loop over [unsupportedParams], on the pair of
    [completionArgs] and [extraBody]. *)
Definition moveParam (acc : list (string * json) * list (string * json))
    (param : string) : list (string * json) * list (string * json) :=
  match member param acc.1 with
  | Some v => (delete_member param acc.1, acc.2 ++ [(param, v)])
  | None => acc
  end.

(** [completionArgs] and [extraBody] after the loop. *)
Definition splitArgs (requestBody : value)
    : list (string * json) * list (string * json) :=
  foldl moveParam (delete_member "stream" (spread requestBody), []) unsupportedParams.

(** A member of an object literal, whose value may be [undefined]. *)
Fixpoint field (name : string) (fields : list (string * value)) : option value :=
  match fields with
  | [] => None
  | (n, v) :: rest => if String.eqb n name then Some v else field name rest
  end.

(** A later member of an object literal overrides an earlier one of
    the same name, in its place. *)
Fixpoint set_field (name : string) (v : value) (fields : list (string * value))
    : list (string * value) :=
  match fields with
  | [] => [(name, v)]
  | (n, x) :: rest =>
      if String.eqb n name then (n, v) :: rest else (n, x) :: set_field name v rest
  end.

(** The argument of [create]:
    [{ ...completionArgs, stream: isStream, extra_body: ... }]. *)
Definition createArgs (requestBody : value) (isStream : bool)
    : list (string * value) :=
  let '(completionArgs, extraBody) := splitArgs requestBody in
  set_field "extra_body"
    (match extraBody with
     | [] => Undefined
     | _ => Val (JObj extraBody)
     end)
    (set_field "stream" (Val (JBool isStream))
       ((fun m : string * json => (m.1, Val m.2)) <$> completionArgs)).

(** ** The endpoint lists ([src/constants.ts]) and the choice of the
    upstream call ([router.all], [src/routes.ts]) *)

Definition OPENAI_ENDPOINTS : list string :=
  ["/api/v1/chat/completions"; "/api/v1/completions"].

Definition COMPLETION_ENDPOINTS : list string :=
  ["/api/v1/chat/completions"; "/api/v1/completions"].

Definition MODELS_ENDPOINTS : list string := ["/api/v1/models"].

(** [endpoints.some(ep => `/api/v1/${path}`.startsWith(ep))] *)
Definition someStartsWith (endpoints : list string) (path : string) : bool :=
  existsb (fun ep => startsWith ("/api/v1/" +:+ path) ep) endpoints.

(** The function the handler hands the request to, with the flags it
    passes on. *)
Inductive upstream_call :=
  | HandleCompletions (isStream : bool)
  | HandleModelsEndpoint
  | ProxyWithHTTP (isStream isCompletion : bool).

Definition dispatch (free_only : bool) (path : string) (isStream : bool)
    : upstream_call :=
  let isCompletion := someStartsWith COMPLETION_ENDPOINTS path in
  let isOpenAI := someStartsWith OPENAI_ENDPOINTS path in
  let isModels := someStartsWith MODELS_ENDPOINTS path in
  if isOpenAI then HandleCompletions isStream
  else if isModels && free_only then HandleModelsEndpoint
  else ProxyWithHTTP isStream isCompletion.

(** ** The configuration ([normalizeAndValidateConfig],
    [src/config.ts]) *)

(** The public endpoints: the default when the configured value is
    not an array; else its non-empty strings, each with a leading
    slash. *)
Definition normalizePublicEndpoints (configured : value) : list string :=
  match configured with
  | Val (JArr items) =>
      omap (fun endpoint =>
              match endpoint with
              | JStr s =>
                  if String.eqb s "" then None
                  else if startsWith s "/" then Some s
                  else Some ("/" +:+ s)
              | _ => None
              end) items
  | _ => ["/api/v1/models"]
  end.

(** [s.replace(/\/+$/, '')] *)
Fixpoint stripTrailingSlashes (s : string) : string :=
  match s with
  | EmptyString => EmptyString
  | String a s' =>
      match stripTrailingSlashes s' with
      | EmptyString => if Ascii.eqb a "/" then EmptyString else String a EmptyString
      | rest => String a rest
      end
  end.

(** The base URL: the default when the configured value is not a
    string, and no slash at the end. *)
Definition normalizeBaseUrl (configured : value) : string :=
  stripTrailingSlashes
    match configured with
    | Val (JStr base_url) => base_url
    | _ => "https://openrouter.ai/api/v1"
    end.

(** A run of [n] slashes. *)
Fixpoint slashes (n : nat) : string :=
  match n with
  | O => EmptyString
  | S n' => String "/" (slashes n')
  end.

(** The last code unit is a slash. *)
Fixpoint endsWithSlash (s : string) : bool :=
  match s with
  | EmptyString => false
  | String a EmptyString => Ascii.eqb a "/"
  | String _ s' => endsWithSlash s'
  end.

(** ** Vocabulary for the properties of the relay and of the filter *)

(** A message of the relay: it ends with its first blank line. *)
Definition isFrame (message : string) : Prop :=
  exists idx, indexOf message blank_line = Some idx
              /\ String.length message = idx + 2.

(** A printer and a parser for the sample: every document is printed
    as ["filtered"], which parses to the catalog of the free model. *)
Definition sample_stringify (v : json) : string := "filtered".

Definition sample_reparse (body : string) : option json :=
  if String.eqb body "filtered"
  then Some (JObj [("data", JArr [free_model])])
  else Some catalog.

(** * Properties *)

(** ** Properties of the key pool *)

Lemma candidate_0 km : cursor_ok km -> candidate km 0 = keys km !!! currentIndex km.
Proof.
  intros Hc. unfold candidate. by rewrite Nat.add_0_r, Nat.mod_small.
Qed.

Lemma candidate_step km j :
  candidate (set_currentIndex ((currentIndex km + 1) `mod` length (keys km)) km) j
  = candidate km (S j).
Proof.
  unfold candidate; simpl. f_equal.
  rewrite Nat.Div0.add_mod_idemp_l. f_equal. lia.
Qed.

Lemma cursor_ok_step km :
  cursor_ok km ->
  cursor_ok (set_currentIndex ((currentIndex km + 1) `mod` length (keys km)) km).
Proof.
  unfold cursor_ok; simpl. intros H. apply Nat.mod_upper_bound. lia.
Qed.

Lemma eligible_false now m key :
  eligible now m key = false ->
  exists until, m !! key = Some until /\ Date.geb (Date.Time now) until = false.
Proof.
  unfold eligible. destruct (m !! key) as [u|]; [eauto | done].
Qed.

(** A scan over candidates that are all ineligible examines each of
    them, moves the cursor past each, and changes nothing else. *)
Lemma scan_all_ineligible tz n i cooldown now km :
  cursor_ok km ->
  (forall j, j < n -> eligible now (disabledUntil km) (candidate km j) = false) ->
  scan tz n i cooldown now km
  = (None, i + n, set_currentIndex ((currentIndex km + n) `mod` length (keys km)) km).
Proof.
  revert i km. induction n as [|n IH]; intros i km Hc Hin.
  - simpl. rewrite !Nat.add_0_r, Nat.mod_small by done. by destruct km.
  - simpl.
    destruct (eligible_false now (disabledUntil km) (candidate km 0)) as (u & Hu & Hge);
      [apply Hin; lia|].
    rewrite candidate_0 in Hu by done. rewrite Hu, Hge.
    rewrite IH.
    + simpl. rewrite Nat.Div0.add_mod_idemp_l.
      replace (i + S n) with (S (i + n)) by lia.
      replace (currentIndex km + 1 + n) with (currentIndex km + S n) by lia.
      reflexivity.
    + by apply cursor_ok_step.
    + intros j Hj. rewrite candidate_step. simpl. apply Hin. lia.
Qed.

(** A scan selects the first eligible candidate. *)
Lemma scan_first_eligible tz n i j cooldown now km :
  cursor_ok km ->
  j < n ->
  (forall j', j' < j -> eligible now (disabledUntil km) (candidate km j') = false) ->
  eligible now (disabledUntil km) (candidate km j) = true ->
  scan tz n i cooldown now km
  = (Some (candidate km j), i + S j, selected tz (candidate km j) j cooldown now km).
Proof.
  revert n i km. induction j as [|j IH]; intros n i km Hc Hj Hin Hel.
  - destruct n as [|n]; [lia|]. simpl.
    rewrite candidate_0 in Hel |- * by done.
    unfold eligible in Hel. unfold selected.
    destruct (disabledUntil km !! (keys km !!! currentIndex km)) as [u|] eqn:Hu.
    + rewrite Hel. by replace (i + 1) with (S i) by lia.
    + rewrite (delete_id (disabledUntil km)) by done.
      replace (i + 1) with (S i) by lia. by destruct km.
  - destruct n as [|n]; [lia|]. simpl.
    destruct (eligible_false now (disabledUntil km) (candidate km 0)) as (u & Hu & Hge);
      [apply Hin; lia|].
    rewrite candidate_0 in Hu by done. rewrite Hu, Hge.
    rewrite (IH n (S i)).
    + rewrite candidate_step. unfold selected. simpl.
      rewrite Nat.Div0.add_mod_idemp_l.
      replace (i + S (S j)) with (S (i + S j)) by lia.
      replace (currentIndex km + 1 + S j) with (currentIndex km + S (S j)) by lia.
      reflexivity.
    + by apply cursor_ok_step.
    + lia.
    + intros j' Hj'. rewrite candidate_step. simpl. apply Hin. lia.
    + rewrite candidate_step. simpl. exact Hel.
Qed.




Lemma earlier_le current earliest : (earlier current earliest <= earliest)%Z.
Proof.
  unfold earlier, Date.ltb. destruct current as [|c]; [lia|].
  destruct (Z.ltb_spec c earliest); lia.
Qed.

Lemma foldr_earlier_le_max l : (foldr earlier Date.MAX_TIME l <= Date.MAX_TIME)%Z.
Proof.
  induction l as [|d l IH]; simpl; [lia|].
  pose proof (earlier_le d (foldr earlier Date.MAX_TIME l)). lia.
Qed.






Lemma candidate_elem_of km j : cursor_ok km -> candidate km j ∈ keys km.
Proof.
  intros Hc. unfold candidate. apply list_elem_of_lookup_total_2.
  apply Nat.mod_upper_bound. unfold cursor_ok in Hc. lia.
Qed.

(** With some key eligible, an attempt returns the first eligible
    candidate in rotation order. *)
Lemma attempt_first_eligible tz cooldown now km j :
  cursor_ok km ->
  j < length (keys km) ->
  (forall j', j' < j -> eligible now (disabledUntil km) (candidate km j') = false) ->
  eligible now (disabledUntil km) (candidate km j) = true ->
  attempt tz cooldown now km
  = (Returned (candidate km j), S j,
     set_lockPromise false (selected tz (candidate km j) j cooldown now km)).
Proof.
  intros Hc Hj Hin Hel. unfold attempt.
  rewrite (scan_first_eligible tz _ _ j); try done.
  unfold selected, applyCooldown. simpl. by destruct (0 <? cooldown)%Z.
Qed.

Lemma eligible_prefix now km n :
  (forall j, j < n -> eligible now (disabledUntil km) (candidate km j) = false)
  \/ (exists j, j < n
        /\ (forall j', j' < j -> eligible now (disabledUntil km) (candidate km j') = false)
        /\ eligible now (disabledUntil km) (candidate km j) = true).
Proof.
  induction n as [|n [IH | (j & Hj & Hpre & Hel)]].
  - left. intros j Hj. lia.
  - destruct (eligible now (disabledUntil km) (candidate km n)) eqn:Hn.
    + right. exists n. split; [lia|]. split; [|done]. intros j' Hj'. by apply IH.
    + left. intros j Hj. destruct (decide (j = n)) as [->|]; [done|]. apply IH. lia.
  - right. exists j. split; [lia|]. done.
Qed.

(** The two ways an attempt can end. *)
Lemma attempt_cases tz cooldown now km :
  cursor_ok km ->
  ((forall key, key ∈ keys km -> eligible now (disabledUntil km) key = false)
   /\ attempt tz cooldown now km
      = (Suspended (Z.max 0 (soonestAvailable (disabledUntil km) - now)),
         length (keys km), set_lockPromise false km))
  \/ (exists j, j < length (keys km)
        /\ (forall j', j' < j -> eligible now (disabledUntil km) (candidate km j') = false)
        /\ eligible now (disabledUntil km) (candidate km j) = true
        /\ attempt tz cooldown now km
           = (Returned (candidate km j), S j,
              set_lockPromise false (selected tz (candidate km j) j cooldown now km))).
Proof.
  intros Hc.
  destruct (eligible_prefix now km (length (keys km))) as [Hall | (j & Hj & Hpre & Hel)].
  - left. assert (forall key, key ∈ keys km -> eligible now (disabledUntil km) key = false)
      as Hkeys.
    { intros key Hkey. apply list_elem_of_lookup_total_1 in Hkey as (i & Hi & <-).
      specialize (Hall ((i + length (keys km) - currentIndex km) `mod` length (keys km))).
      unfold candidate in Hall. unfold cursor_ok in Hc.
      rewrite Nat.Div0.add_mod_idemp_r in Hall.
      replace (currentIndex km + (i + length (keys km) - currentIndex km))
        with (i + 1 * length (keys km)) in Hall by lia.
      rewrite Nat.Div0.mod_add, (Nat.mod_small i) in Hall by lia.
      apply Hall. apply Nat.mod_upper_bound. lia. }
    split; [done|].
    unfold attempt. rewrite scan_all_ineligible; simpl; [| done |].
    + replace (currentIndex km + length (keys km))
        with (currentIndex km + 1 * length (keys km)) by lia.
      rewrite Nat.Div0.mod_add, Nat.mod_small by done.
      by destruct km.
    + intros j _. apply Hkeys. by apply (candidate_elem_of (set_lockPromise true km)).
  - right. exists j. repeat split; try done. by apply attempt_first_eligible.
Qed.

(** *** Penalization *)

Lemma disableKey_state key hint now km :
  (disableKey key hint now km).2
  = set_lockPromise false
      (set_disabledUntil
         (<[key := resolveDisabledUntil now km hint]> (disabledUntil km)) km).
Proof. reflexivity. Qed.

(** A reset time that is not ahead of the clock never survives: read as
    milliseconds it is not in the future, and read as seconds it is at
    most a thousandth of the clock, so a thousand times it is not in
    the future either. *)
Lemma resetDatetime_not_future now h :
  (h <= now)%Z -> Date.gtb (resetDatetime now h) (Date.Time now) = false.
Proof.
  intros Hle. unfold resetDatetime, Date.gtb, Date.ltb, Date.make.
  destruct (Z.ltb_spec now h); [lia|].
  destruct (Z.ltb_spec (now `div` 1000) h).
  - destruct (Z.abs h <=? Date.MAX_TIME)%Z; [|done]. apply Z.ltb_ge. lia.
  - destruct (Z.abs (h * 1000) <=? Date.MAX_TIME)%Z; [|done]. apply Z.ltb_ge.
    pose proof (Z.mul_div_le now 1000). lia.
Qed.

(** C3. [disableKey(key, resetTimeMs)] overwrites the entry of [key]
    with one date and touches nothing else. Without a reset time the
    date is the clock plus the default cooldown, exactly
    [now + 1000 * cooldownSeconds] when that is a valid time value. A
    reset time above the clock in milliseconds is read as milliseconds;
    one above the clock in seconds, but not above the clock in
    milliseconds, is read as milliseconds too; a smaller one is read as
    seconds and multiplied by 1000. In each of the three cases the date
    so read is kept when it is strictly in the future, and replaced by
    the clock plus the default cooldown otherwise. A reset time that
    is not a number counts as none. The clock is not before the
    epoch. *)
Theorem disableKey_resumeAt key hint now km :
  (0 <= now)%Z ->
  exists resumeAt,
    (disableKey key hint now km).2
    = set_lockPromise false
        (set_disabledUntil (<[key := resumeAt]> (disabledUntil km)) km)
    /\ disabledUntil (disableKey key hint now km).2 !! key = Some resumeAt
    /\ (hint = None ->
        resumeAt = Date.make (now + cooldownSeconds km * 1000)
        /\ ((Z.abs (now + cooldownSeconds km * 1000) <= Date.MAX_TIME)%Z ->
            resumeAt = Date.Time (now + cooldownSeconds km * 1000)))
    /\ (hint = Some NaN -> resumeAt = Date.make (now + cooldownSeconds km * 1000))
    /\ (forall h, hint = Some (Num h) ->
        let or_default (d : Date.t) :=
          if Date.gtb d (Date.Time now) then d
          else Date.make (now + cooldownSeconds km * 1000) in
        ((now < h)%Z -> resumeAt = or_default (Date.make h))
        /\ ((now `div` 1000 < h <= now)%Z -> resumeAt = or_default (Date.make h))
        /\ ((h <= now `div` 1000)%Z -> resumeAt = or_default (Date.make (h * 1000)))).
Proof.
  intros Hnow.
  exists (resolveDisabledUntil now km hint).
  split; [apply disableKey_state|].
  split; [rewrite disableKey_state; simpl; apply lookup_insert_eq|].
  split.
  - intros ->. simpl. unfold defaultCooldown. split; [done|].
    intros Hr. unfold Date.make.
    by destruct (Z.leb_spec (Z.abs (now + cooldownSeconds km * 1000)) Date.MAX_TIME);
      [|lia].
  - split; [by intros ->|].
    intros h -> or_default. subst or_default. cbv beta.
    assert (resolveDisabledUntil now km (Some (Num h))
            = if Date.gtb (resetDatetime now h) (Date.Time now)
              then resetDatetime now h
              else Date.make (now + cooldownSeconds km * 1000)) as Hres.
    { unfold resolveDisabledUntil. destruct (number_truthy (Num h)) eqn:Ht; [done|].
      simpl in Ht. apply negb_false_iff, Z.eqb_eq in Ht. subst h.
      by rewrite resetDatetime_not_future. }
    rewrite Hres. unfold resetDatetime.
    pose proof (Z.mul_div_le now 1000).
    assert (now `div` 1000 <= now)%Z by (apply Z.div_le_upper_bound; lia).
    repeat split; intros Hh.
    + by destruct (Z.ltb_spec now h); [|lia].
    + destruct (Z.ltb_spec now h); [lia|].
      by destruct (Z.ltb_spec (now `div` 1000) h); [|lia].
    + destruct (Z.ltb_spec now h); [lia|].
      by destruct (Z.ltb_spec (now `div` 1000) h); [lia|].
Qed.

Lemma disableKey_resumeAt_witness :
  disabledUntil
    (disableKey "k" (Some (Num 1700000030000)) 1700000000000 pool1).2 !! "k"
  = Some (Date.Time 1700000030000).
Proof.
  destruct (disableKey_resumeAt "k" (Some (Num 1700000030000)) 1700000000000 pool1)
    as (r & _ & Hlook & _ & _ & Hh); [lia|].
  destruct (Hh 1700000030000%Z eq_refl) as (Hms & _ & _).
  rewrite Hlook, Hms by lia. reflexivity.
Defined.

(** *** Acquisition *)

Lemma cursor_ok_selected tz key j cooldown now km :
  cursor_ok km -> cursor_ok (set_lockPromise false (selected tz key j cooldown now km)).
Proof.
  unfold cursor_ok, selected, applyCooldown. intros Hc.
  destruct (0 <? cooldown)%Z; simpl; apply Nat.mod_upper_bound; lia.
Qed.

Lemma keys_selected tz key j cooldown now km :
  keys (set_lockPromise false (selected tz key j cooldown now km)) = keys km.
Proof. unfold selected, applyCooldown. by destruct (0 <? cooldown)%Z. Qed.

Lemma disabledUntil_selected tz key j cooldown now km :
  disabledUntil (set_lockPromise false (selected tz key j cooldown now km))
  = if (0 <? cooldown)%Z
    then <[key := cooldownDate tz now cooldown]> (delete key (disabledUntil km))
    else delete key (disabledUntil km).
Proof. unfold selected, applyCooldown. by destruct (0 <? cooldown)%Z. Qed.

Lemma currentIndex_selected tz key j cooldown now km :
  currentIndex (set_lockPromise false (selected tz key j cooldown now km))
  = (currentIndex km + S j) `mod` length (keys km).
Proof. unfold selected, applyCooldown. by destruct (0 <? cooldown)%Z. Qed.

(** An attempt keeps the key list and leaves the cursor inside it and
    the lock free. *)
Lemma attempt_invariants tz cooldown now km :
  cursor_ok km ->
  keys (attempt tz cooldown now km).2 = keys km
  /\ cursor_ok (attempt tz cooldown now km).2
  /\ lockPromise (attempt tz cooldown now km).2 = false.
Proof.
  intros Hc.
  destruct (attempt_cases tz cooldown now km Hc) as [[_ ->] | (j & _ & _ & _ & ->)]; simpl.
  - done.
  - split; [apply keys_selected|]. split; [by apply cursor_ok_selected|].
    unfold selected, applyCooldown. by destruct (0 <? cooldown)%Z.
Qed.

(** The cursor moves by one, modulo the number of keys, for every
    candidate examined, whether or not it is the one returned. *)
Lemma attempt_cursor tz cooldown now km :
  cursor_ok km ->
  currentIndex (attempt tz cooldown now km).2
  = (currentIndex km + (attempt tz cooldown now km).1.2) `mod` length (keys km)
  /\ 1 <= (attempt tz cooldown now km).1.2 <= length (keys km).
Proof.
  intros Hc.
  destruct (attempt_cases tz cooldown now km Hc) as [[_ ->] | (j & Hj & _ & _ & ->)]; simpl.
  - replace (currentIndex km + length (keys km))
      with (currentIndex km + 1 * length (keys km)) by lia.
    rewrite Nat.Div0.mod_add, Nat.mod_small by done.
    unfold cursor_ok in Hc. split; [done | lia].
  - change (currentIndex (set_lockPromise false
              (selected tz (candidate km j) j cooldown now km))
            = (currentIndex km + S j) `mod` length (keys km) /\ 1 <= S j <= length (keys km)).
    rewrite currentIndex_selected. split; [done | lia].
Qed.

Lemma eligible_pending now m key T :
  m !! key = Some (Date.Time T) -> (now < T)%Z -> eligible now m key = false.
Proof.
  intros Hm Hlt. unfold eligible, Date.geb. rewrite Hm. apply Z.leb_gt. lia.
Qed.

Lemma eligible_resumed now m key T :
  m !! key = Some (Date.Time T) -> (T <= now)%Z -> eligible now m key = true.
Proof.
  intros Hm Hlt. unfold eligible, Date.geb. rewrite Hm. apply Z.leb_le. lia.
Qed.

(** While its date lies ahead, a key is not returned and its entry
    stays. *)
Lemma attempt_skips_pending tz cooldown now km c T :
  cursor_ok km ->
  disabledUntil km !! c = Some (Date.Time T) ->
  (now < T)%Z ->
  (attempt tz cooldown now km).1.1 <> Returned c
  /\ disabledUntil (attempt tz cooldown now km).2 !! c = Some (Date.Time T).
Proof.
  intros Hc Hm Hlt.
  pose proof (eligible_pending now _ c T Hm Hlt) as Hne.
  destruct (attempt_cases tz cooldown now km Hc) as [[_ ->] | (j & _ & _ & Hel & ->)].
  - simpl. done.
  - assert (candidate km j <> c) as Hneq by (intros Heq; rewrite Heq in Hel; congruence).
    split; [simpl; congruence|].
    cbn [snd]. rewrite disabledUntil_selected.
    destruct (0 <? cooldown)%Z.
    + by rewrite lookup_insert_ne, lookup_delete_ne.
    + by rewrite lookup_delete_ne.
Qed.

Lemma attempt_skips_ineligible tz cooldown now km c :
  cursor_ok km ->
  eligible now (disabledUntil km) c = false ->
  (attempt tz cooldown now km).1.1 <> Returned c
  /\ disabledUntil (attempt tz cooldown now km).2 !! c = disabledUntil km !! c.
Proof.
  intros Hc Hne.
  destruct (attempt_cases tz cooldown now km Hc) as [[_ ->] | (j & _ & _ & Hel & ->)].
  - simpl. done.
  - assert (candidate km j <> c) as Hneq by (intros Heq; rewrite Heq in Hel; congruence).
    split; [simpl; congruence|].
    cbn [snd]. rewrite disabledUntil_selected.
    destruct (0 <? cooldown)%Z.
    + by rewrite lookup_insert_ne, lookup_delete_ne.
    + by rewrite lookup_delete_ne.
Qed.

(** An attempt changes the entry of no key but the one it returns. *)
Lemma attempt_keeps_others tz cooldown now km c :
  cursor_ok km ->
  (attempt tz cooldown now km).1.1 <> Returned c ->
  disabledUntil (attempt tz cooldown now km).2 !! c = disabledUntil km !! c.
Proof.
  intros Hc Hr.
  destruct (attempt_cases tz cooldown now km Hc) as [[_ Ha] | (j & _ & _ & _ & Ha)];
    rewrite Ha in Hr |- *; cbn [fst snd] in *; [done|].
  assert (candidate km j <> c) as Hneq by congruence.
  rewrite disabledUntil_selected. destruct (0 <? cooldown)%Z.
  - by rewrite lookup_insert_ne, lookup_delete_ne.
  - by rewrite lookup_delete_ne.
Qed.

(** *** Histories *)

Lemma pool_run_cons tz op ops km :
  pool_run tz (op :: ops) km = pool_run tz ops (pool_step tz km op).
Proof. reflexivity. Qed.

Lemma pool_results_cons tz op ops km :
  pool_results tz (op :: ops) km
  = match op with
    | Acquire cooldown now => [(attempt tz cooldown now km).1.1]
    | Penalize _ _ _ => []
    end ++ pool_results tz ops (pool_step tz km op).
Proof. reflexivity. Qed.

Lemma cursor_ok_pool_step tz km op : cursor_ok km -> cursor_ok (pool_step tz km op).
Proof.
  intros Hc. destruct op as [cooldown now | key hint now]; cbn [pool_step]; [|done].
  by destruct (attempt_invariants tz cooldown now km Hc) as (_ & ? & _).
Qed.

(** A block that neither penalizes [c] nor returns it leaves the entry
    of [c] as it is. *)
Lemma pool_step_keeps_entry tz km op c :
  cursor_ok km ->
  ~ penalizes c op ->
  (forall cooldown now, op = Acquire cooldown now ->
     (attempt tz cooldown now km).1.1 <> Returned c) ->
  disabledUntil (pool_step tz km op) !! c = disabledUntil km !! c.
Proof.
  intros Hc Hp Hr. destruct op as [cooldown now | key hint now]; cbn [pool_step].
  - apply attempt_keeps_others; [done | by apply Hr].
  - rewrite disableKey_state. cbn [disabledUntil set_lockPromise set_disabledUntil].
    by rewrite lookup_insert_ne.
Qed.

Lemma pool_run_keeps_entry tz ops km c :
  cursor_ok km ->
  Forall (fun op => ~ penalizes c op) ops ->
  Returned c ∉ pool_results tz ops km ->
  disabledUntil (pool_run tz ops km) !! c = disabledUntil km !! c
  /\ cursor_ok (pool_run tz ops km).
Proof.
  revert km. induction ops as [|op ops IH]; intros km Hc Hall Hnot; [done|].
  apply Forall_cons in Hall as [Hp Hall].
  rewrite pool_results_cons in Hnot. rewrite pool_run_cons.
  apply not_elem_of_app in Hnot as [Hhead Hrest].
  destruct (IH (pool_step tz km op)) as [-> Hc'];
    [by apply cursor_ok_pool_step | done | done |].
  split; [|done]. apply pool_step_keeps_entry; [done | done |].
  intros cooldown now -> Heq. apply Hhead. rewrite Heq. by apply list_elem_of_singleton.
Qed.

(** While the date of [c] cannot be reached, no attempt returns [c],
    whatever else is done to the pool short of penalizing [c] again. *)
Lemma pool_run_holds_key tz ops km c d T :
  cursor_ok km ->
  disabledUntil km !! c = Some d ->
  (forall t, (t < T)%Z -> Date.geb (Date.Time t) d = false) ->
  Forall (fun op => ~ penalizes c op) ops ->
  Forall (made_before T) ops ->
  Returned c ∉ pool_results tz ops km.
Proof.
  revert km. induction ops as [|op ops IH]; intros km Hc Hm Hd Hpen Hbef;
    [apply not_elem_of_nil|].
  apply Forall_cons in Hpen as [Hp Hpen]. apply Forall_cons in Hbef as [Hb Hbef].
  rewrite pool_results_cons.
  assert (forall cooldown now, op = Acquire cooldown now ->
            (attempt tz cooldown now km).1.1 <> Returned c) as Hr.
  { intros cooldown now ->. simpl in Hb. apply attempt_skips_ineligible; [done|].
    unfold eligible. rewrite Hm. by apply Hd. }
  apply not_elem_of_app. split.
  - destruct op as [cooldown now|]; [|apply not_elem_of_nil].
    intros Hin%list_elem_of_singleton. by apply (Hr cooldown now).
  - apply IH; [by apply cursor_ok_pool_step | | done..].
    by rewrite pool_step_keeps_entry.
Qed.

(** C1 (as amended). After [disableKey(c, hint)] has stored the date
    [T] for [c], take any history of the pool in which [c] is not
    penalized again: attempts of [getNextKey] by any callers, with any
    cooldown arguments, and calls of [disableKey] on other keys. If
    its attempts are all made before [T], none of them returns [c].
    And as long as [c] has not been returned, a further attempt made
    before [T] does not return [c], and one made at or after [T]
    returns [c] as soon as its scan reaches [c], that is, when the
    candidates ahead of [c] in rotation order are all ineligible. *)
Theorem penalized_key_returns_at_resume tz km c hint now0 T ops :
  cursor_ok km ->
  disabledUntil (disableKey c hint now0 km).2 !! c = Some (Date.Time T) ->
  Forall (fun op => ~ penalizes c op) ops ->
  let km0 := (disableKey c hint now0 km).2 in
  let km1 := pool_run tz ops km0 in
  (Forall (made_before T) ops -> Returned c ∉ pool_results tz ops km0)
  /\ (Returned c ∉ pool_results tz ops km0 ->
      forall cooldown t,
        ((t < T)%Z -> (attempt tz cooldown t km1).1.1 <> Returned c)
        /\ ((T <= t)%Z ->
            forall j,
              j < length (keys km1) ->
              candidate km1 j = c ->
              (forall j', j' < j ->
                 eligible t (disabledUntil km1) (candidate km1 j') = false) ->
              (attempt tz cooldown t km1).1.1 = Returned c)).
Proof.
  intros Hc Hm Hpen km0 km1.
  assert (cursor_ok km0) as Hc0 by done.
  split.
  - intros Hbef. apply (pool_run_holds_key tz ops km0 c (Date.Time T) T); try done.
    intros t Ht. unfold Date.geb. apply Z.leb_gt. lia.
  - intros Hnot cooldown t.
    destruct (pool_run_keeps_entry tz ops km0 c Hc0 Hpen Hnot) as [Hm1 Hc1].
    fold km1 in Hm1, Hc1. subst km0. rewrite Hm in Hm1.
    split.
    + intros Ht. by apply (attempt_skips_pending tz cooldown t km1 c T).
    + intros Ht j Hj Hcand Hpre.
      rewrite (attempt_first_eligible tz cooldown t km1 j); try done.
      * simpl. by rewrite Hcand.
      * rewrite Hcand. by apply (eligible_resumed t _ c T).
Qed.

Lemma penalized_key_returns_at_resume_witness :
  (Returned "c" ∉ pool_results zone_UTC history_c penalized_c)
  /\ (attempt zone_UTC 0 60000 (pool_run zone_UTC history_c penalized_c)).1.1
     = Returned "c".
Proof.
  assert (cursor_ok pool2) as Hc by (unfold cursor_ok; simpl; lia).
  assert (disabledUntil (disableKey "c" None 0 pool2).2 !! "c" = Some (Date.Time 60000))
    as Hm by (vm_compute; reflexivity).
  assert (Forall (fun op => ~ penalizes "c" op) history_c) as Hpen
    by (repeat (apply Forall_cons; split); try apply Forall_nil; simpl;
        try tauto; discriminate).
  destruct (penalized_key_returns_at_resume zone_UTC pool2 "c" None 0 60000 history_c
              Hc Hm Hpen) as [Hnot Hret].
  assert (Returned "c" ∉ pool_results zone_UTC history_c penalized_c) as H.
  { apply Hnot. repeat (apply Forall_cons; split); try apply Forall_nil; simpl;
      try tauto; lia. }
  split; [exact H|].
  destruct (Hret H 0%Z 60000%Z) as [_ Hat].
  apply (Hat ltac:(lia) 0).
  - vm_compute. lia.
  - vm_compute. reflexivity.
  - intros j' Hj'. lia.
Defined.

(** The claim C1 as the specification states it fails in a pool of
    two keys: the first attempt at the resume time returns the key the
    cursor stands on, not the key that has just become eligible. *)
Lemma first_attempt_at_resume_may_return_other_key :
  ~ (forall tz km c hint now0 T cooldown t,
       cursor_ok km ->
       disabledUntil (disableKey c hint now0 km).2 !! c = Some (Date.Time T) ->
       (now0 < T)%Z ->
       (T <= t)%Z ->
       (attempt tz cooldown t (disableKey c hint now0 km).2).1.1 = Returned c).
Proof.
  intros H.
  specialize (H zone_UTC pool2 "c" None 0%Z 60000%Z 0%Z 60000%Z).
  assert ((attempt zone_UTC 0 60000 (disableKey "c" None 0 pool2).2).1.1 = Returned "a")
    as Ha by (vm_compute; reflexivity).
  rewrite Ha in H. discriminate H.
  - unfold cursor_ok. simpl. lia.
  - vm_compute. reflexivity.
  - lia.
  - lia.
Qed.

(** *** Unfolding a call *)

Lemma getNextKey_returned tz w fuel cooldown now km key i km' :
  attempt tz cooldown now km = (Returned key, i, km') ->
  getNextKey tz w fuel cooldown now km = Some (key, now, km').
Proof. intros H. destruct fuel; simpl; by rewrite H. Qed.





(** *** Rotation *)

Lemma eligible_later t0 t m key :
  (t0 <= t)%Z -> eligible t0 m key = true -> eligible t m key = true.
Proof.
  unfold eligible, Date.geb. intros Hle. destruct (m !! key) as [[|d]|]; try done.
  rewrite !Z.leb_le. lia.
Qed.

Lemma eligible_delete t m key key' :
  eligible t m key = true -> eligible t (delete key' m) key = true.
Proof.
  unfold eligible. destruct (decide (key' = key)) as [->|Hne].
  - by rewrite lookup_delete_eq.
  - by rewrite lookup_delete_ne.
Qed.

Lemma candidate_selected tz key j cooldown now km i :
  candidate (set_lockPromise false (selected tz key j cooldown now km)) i
  = candidate km (S j + i).
Proof.
  unfold candidate. rewrite keys_selected, currentIndex_selected.
  rewrite Nat.Div0.add_mod_idemp_l. do 2 f_equal. lia.
Qed.

(** With no cooldown argument and every key eligible, an attempt
    returns the key under the cursor and examines nothing else. *)
Lemma attempt_head tz cooldown now km :
  cursor_ok km ->
  eligible now (disabledUntil km) (candidate km 0) = true ->
  attempt tz cooldown now km
  = (Returned (candidate km 0), 1,
     set_lockPromise false (selected tz (candidate km 0) 0 cooldown now km)).
Proof.
  intros Hc Hel. apply attempt_first_eligible; try done.
  - unfold cursor_ok in Hc. lia.
  - intros j' Hj'. lia.
Qed.

Lemma acquisitions_round_robin tz w fuel cooldown t0 ts km :
  cursor_ok km ->
  (cooldown <= 0)%Z ->
  (forall key, key ∈ keys km -> eligible t0 (disabledUntil km) key = true) ->
  Forall (fun t => (t0 <= t)%Z) ts ->
  exists km',
    acquisitions tz w fuel ((fun t => (cooldown, t)) <$> ts) km
    = Some (candidate km <$> seq 0 (length ts), km')
    /\ currentIndex km' = (currentIndex km + length ts) `mod` length (keys km)
    /\ keys km' = keys km.
Proof.
  intros Hc Hcd. revert km Hc.
  induction ts as [|t ts IH]; intros km Hc Hel Hall.
  - exists km. simpl. by rewrite Nat.add_0_r, Nat.mod_small.
  - apply Forall_cons in Hall as [Ht Hall].
    rewrite fmap_cons. cbn [acquisitions].
    rewrite (getNextKey_returned tz _ _ _ _ _ _ _ _ (attempt_head tz cooldown t km Hc
      (eligible_later t0 t _ _ Ht (Hel _ (candidate_elem_of km 0 Hc))))).
    set (km1 := set_lockPromise false (selected tz (candidate km 0) 0 cooldown t km)).
    assert (cursor_ok km1) as Hc1 by by apply cursor_ok_selected.
    destruct (IH km1 Hc1) as (km' & -> & Hcur & Hkeys); [|done|].
    { intros key Hkey. subst km1. rewrite keys_selected in Hkey.
      rewrite disabledUntil_selected.
      destruct (Z.ltb_spec 0 cooldown); [lia|].
      apply eligible_delete. by apply Hel. }
    exists km'. split; [|split].
    + simpl. do 2 f_equal.
      rewrite <-fmap_S_seq, <-list_fmap_compose. f_equal.
      apply list_fmap_ext. intros i x _. simpl. subst km1.
      by rewrite candidate_selected.
    + rewrite Hcur. subst km1. rewrite keys_selected, currentIndex_selected.
      rewrite Nat.Div0.add_mod_idemp_l. simpl. f_equal. lia.
    + rewrite Hkeys. subst km1. by rewrite keys_selected.
Qed.

Lemma acquisitions_length tz w fuel calls km results km' :
  acquisitions tz w fuel calls km = Some (results, km') ->
  length results = length calls.
Proof.
  revert km results. induction calls as [|[cooldown now] calls IH];
    intros km results Hacq; simpl in Hacq.
  - by simplify_eq.
  - destruct (getNextKey tz w fuel cooldown now km) as [[[key t] km1]|]; [|done].
    destruct (acquisitions tz w fuel calls km1) as [[rest km2]|] eqn:Hrest; [|done].
    simplify_eq. simpl. f_equal. by apply (IH km1).
Qed.

Lemma rotate_Permutation {A} n (l : list A) : rotate n l ≡ₚ l.
Proof.
  unfold rotate. rewrite Permutation_app_comm. by rewrite take_drop.
Qed.

(** The candidates of one full turn, from any starting point, are the
    key list rotated. *)
Lemma candidates_rotate km s :
  cursor_ok km ->
  candidate km <$> seq s (length (keys km)) = rotate (currentIndex km + s) (keys km).
Proof.
  intros Hc. unfold cursor_ok in Hc. apply list_eq. intros i.
  destruct (decide (i < length (keys km))) as [Hi | Hi].
  - rewrite list_lookup_fmap, lookup_seq_lt by done. simpl.
    rewrite lookup_rotate_r by done. unfold candidate, rotate_nat_add.
    rewrite <-!Nat2Z.inj_add, <-Nat2Z.inj_mod, Nat2Z.id.
    rewrite Nat.add_assoc.
    symmetry. apply list_lookup_lookup_total_lt. apply Nat.mod_upper_bound. lia.
  - rewrite !lookup_ge_None_2; [done | |].
    + rewrite length_rotate. lia.
    + rewrite length_fmap, length_seq. lia.
Qed.

(** C2. In a pool of [N >= 1] keys in which every key is eligible (no
    penalty is pending), calls of [getNextKey] without cooldown
    argument, made one after the other with no penalization in
    between, each return at once, and return the candidates in rotation
    order: the [i]-th call returns the key at position
    [(cursor + i) mod N]. Hence any [N] consecutive calls return the
    key list rotated, every key of the pool once, before a key comes
    again. And in every attempt, in any pool, the cursor advances by
    one modulo [N] for each candidate examined, whether or not that
    candidate is chosen: an attempt that finds the [j] candidates
    ahead ineligible and the next one eligible returns that one, having
    examined [j + 1] candidates, and leaves the cursor [j + 1] places
    further; an attempt that finds every key ineligible has examined
    all [N], and leaves the cursor [N] places further, where it
    was. *)
Theorem getNextKey_round_robin tz w fuel cooldown t0 ts km :
  cursor_ok km ->
  (cooldown <= 0)%Z ->
  (forall key, key ∈ keys km -> eligible t0 (disabledUntil km) key = true) ->
  Forall (fun t => (t0 <= t)%Z) ts ->
  let N := length (keys km) in
  exists results km',
    acquisitions tz w fuel ((fun t => (cooldown, t)) <$> ts) km = Some (results, km')
    /\ currentIndex km' = (currentIndex km + length ts) `mod` N
    /\ (forall i, i < length ts ->
          results !! i = Some (keys km !!! ((currentIndex km + i) `mod` N)))
    /\ (forall s, s + N <= length ts ->
          take N (drop s results) = rotate (currentIndex km + s) (keys km)
          /\ take N (drop s results) ≡ₚ keys km)
    /\ (forall cooldown' now km0 j,
          cursor_ok km0 ->
          j < length (keys km0) ->
          (forall j', j' < j ->
             eligible now (disabledUntil km0) (candidate km0 j') = false) ->
          eligible now (disabledUntil km0) (candidate km0 j) = true ->
          (attempt tz cooldown' now km0).1
          = (Returned (keys km0 !!! ((currentIndex km0 + j) `mod` length (keys km0))),
             S j)
          /\ currentIndex (attempt tz cooldown' now km0).2
             = (currentIndex km0 + S j) `mod` length (keys km0))
    /\ (forall cooldown' now km0,
          cursor_ok km0 ->
          (forall key, key ∈ keys km0 ->
             eligible now (disabledUntil km0) key = false) ->
          (exists waitMs,
             (attempt tz cooldown' now km0).1 = (Suspended waitMs, length (keys km0)))
          /\ currentIndex (attempt tz cooldown' now km0).2
             = (currentIndex km0 + length (keys km0)) `mod` length (keys km0)
          /\ currentIndex (attempt tz cooldown' now km0).2 = currentIndex km0).
Proof.
  intros Hc Hcd Hel Hall N.
  destruct (acquisitions_round_robin tz w fuel cooldown t0 ts km Hc Hcd Hel Hall)
    as (km' & Hres & Hcur & _).
  exists (candidate km <$> seq 0 (length ts)), km'.
  split; [done|]. split; [done|]. split; [|split; [|split]].
  - intros i Hi. by rewrite list_lookup_fmap, lookup_seq_lt.
  - intros s Hs.
    assert (take N (drop s (candidate km <$> seq 0 (length ts)))
            = rotate (currentIndex km + s) (keys km)) as Hwin.
    { rewrite <-fmap_drop, <-fmap_take, drop_seq, take_seq.
      replace (N `min` (length ts - s)) with N by lia.
      by rewrite <-candidates_rotate. }
    split; [done|]. rewrite Hwin. apply rotate_Permutation.
  - intros cooldown' now km0 j Hc0 Hj Hpre Hel0.
    rewrite (attempt_first_eligible tz cooldown' now km0 j) by done. cbn [fst snd].
    split; [done|]. apply currentIndex_selected.
  - intros cooldown' now km0 Hc0 Hnone.
    destruct (attempt_cases tz cooldown' now km0 Hc0)
      as [[_ Ha] | (j & Hj & _ & Hel0 & _)].
    + rewrite Ha. cbn [fst snd]. split; [by eexists|].
      replace (currentIndex km0 + length (keys km0))
        with (currentIndex km0 + 1 * length (keys km0)) by lia.
      by rewrite Nat.Div0.mod_add, Nat.mod_small.
    + rewrite Hnone in Hel0; [done|]. by apply candidate_elem_of.
Qed.

Lemma getNextKey_round_robin_witness :
  exists km',
    acquisitions zone_UTC renewing_world 0 ((fun t => (0, t)) <$> [10; 20; 30; 40; 50])%Z pool2
    = Some (["a"; "c"; "a"; "c"; "a"], km')
    /\ currentIndex km' = 1.
Proof.
  assert (cursor_ok pool2) as Hc by (unfold cursor_ok; simpl; lia).
  assert (forall key, key ∈ keys pool2 -> eligible 10 (disabledUntil pool2) key = true)
    as Hel by (intros key _; reflexivity).
  assert (Forall (fun t => (10 <= t)%Z) [10; 20; 30; 40; 50]%Z) as Hall
    by (repeat constructor; lia).
  destruct (getNextKey_round_robin zone_UTC renewing_world 0 0 10 [10; 20; 30; 40; 50]%Z pool2 Hc
              ltac:(lia) Hel Hall) as (results & km' & Hres & Hcur & Hith & _).
  exists km'. split; [|exact Hcur].
  rewrite Hres. do 2 f_equal. apply list_eq. intros i.
  destruct (decide (i < 5)) as [Hi | Hi].
  - rewrite (Hith i Hi).
    do 5 (destruct i as [|i]; [reflexivity|]). lia.
  - apply acquisitions_length in Hres. simpl in Hres.
    rewrite !lookup_ge_None_2; [done | simpl; lia | lia].
Defined.

(** *** The pool stays well formed *)




(** An attempt without cooldown argument keeps the pool well formed. *)
Lemma pool_ok_attempt tz cooldown now km :
  pool_ok km -> (cooldown <= 0)%Z -> pool_ok (attempt tz cooldown now km).2.
Proof.
  intros (Hc & Hl & Hentries) Hcd.
  destruct (attempt_invariants tz cooldown now km Hc) as (Hk & Hc' & Hl').
  split; [done|]. split; [done|]. rewrite Hk.
  destruct (attempt_cases tz cooldown now km Hc) as [[_ ->] | (j & _ & _ & _ & ->)].
  - simpl. apply Hentries.
  - cbn [snd]. rewrite disabledUntil_selected.
    destruct (Z.ltb_spec 0 cooldown); [lia|].
    intros key d Hd. apply lookup_delete_Some in Hd as [_ Hd]. by apply Hentries.
Qed.

(** *** Waiting for the soonest date *)

Section waiting.

Variable tz : TimeZone.
Variables (cooldown now : Z) (km : KeyManager).

Hypothesis cursor_in_range : cursor_ok km.
Hypothesis lock_free : lockPromise km = false.
Hypothesis entries_of_pool :
  forall key, is_Some (disabledUntil km !! key) -> key ∈ keys km.
Hypothesis all_pending :
  forall key, key ∈ keys km ->
    exists T, disabledUntil km !! key = Some (Date.Time T)
              /\ (now < T <= Date.MAX_TIME)%Z.





End waiting.



(** *** Other requests that only acquire keys *)

Lemma only_released_refl b km : only_released b km km.
Proof. split; [done|]. intros key. by left. Qed.

Lemma only_released_trans b km km1 km2 :
  only_released b km km1 -> only_released b km1 km2 -> only_released b km km2.
Proof.
  intros [Hk1 H1] [Hk2 H2]. split; [congruence|]. intros key.
  destruct (H2 key) as [H2e | [H2n H2el]].
  - rewrite H2e. apply H1.
  - right. split; [done|].
    destruct (H1 key) as [H1e | [H1n H1el]]; [|done].
    unfold eligible in *. by rewrite <- H1e.
Qed.

(** An attempt without cooldown argument penalizes nothing: it removes
    at most the entry of the key it returns, whose date is reached. *)
Lemma attempt_only_released tz cooldown s b km :
  pool_ok km -> (cooldown <= 0)%Z -> (s <= b)%Z ->
  only_released b km (attempt tz cooldown s km).2.
Proof.
  intros (Hc & Hl & _) Hcd Hsb.
  destruct (attempt_invariants tz cooldown s km Hc) as (Hk & _ & _).
  split; [done|]. intros key.
  destruct (attempt_cases tz cooldown s km Hc) as [[_ ->] | (j & _ & _ & Hel & ->)];
    cbn [snd].
  - by left.
  - rewrite disabledUntil_selected. destruct (Z.ltb_spec 0 cooldown); [lia|].
    destruct (decide (key = candidate km j)) as [->|Hne].
    + right. split; [apply lookup_delete_eq|]. by apply (eligible_later s).
    + left. by rewrite lookup_delete_ne.
Qed.

(** So does every run of such attempts made up to the instant [b]. *)
Lemma pool_run_only_released tz ops b km :
  pool_ok km ->
  Forall (acquires_by b) ops ->
  only_released b km (pool_run tz ops km) /\ pool_ok (pool_run tz ops km).
Proof.
  revert km. induction ops as [|op ops IH]; intros km Hok Hall.
  - split; [apply only_released_refl | done].
  - apply Forall_cons in Hall as [Hop Hall]. rewrite pool_run_cons.
    destruct op as [cooldown s | key hint s]; [|done]. destruct Hop as [Hcd Hs].
    cbn [pool_step].
    destruct (IH (attempt tz cooldown s km).2) as [Hrel Hok'];
      [by apply pool_ok_attempt | done |].
    split; [|done].
    apply (only_released_trans _ _ (attempt tz cooldown s km).2); [|done].
    by apply attempt_only_released.
Qed.


Section interference.

Variable tz : TimeZone.
Variable w : world.
Variables (cooldown quiet_from : Z).

Hypothesis timers_not_early :
  forall a ms, (a + timerDelay ms <= fires w a ms)%Z.
Hypothesis others_keep_pool_ok :
  forall a b km, pool_ok km -> pool_ok (meanwhile w a b km).
Hypothesis others_stop_penalizing :
  forall a b km, (quiet_from <= a)%Z -> (a <= b)%Z -> pool_ok km ->
    only_released b km (meanwhile w a b km).




End interference.








(** ** Properties of the rate-limit extractor *)

Lemma bind_Normal {A B} (a : A) (k : A -> completion B) : (Normal a ≫= k) = k a.
Proof. reflexivity. Qed.

Lemma get_member members name :
  get (Val (JObj members)) name = Normal (of_option (member name members)).
Proof. reflexivity. Qed.

Lemma get_headers_of_error error :
  truthy (Val error) = true ->
  get (Val error) "headers" = Normal (of_option (errorHeaders error)).
Proof. by destruct error. Qed.

(** Case analysis on the three reset headers of a header map: each is
    missing, falsy or truthy. *)
Ltac case_reset_headers members :=
  let a := fresh "a" in let b := fresh "b" in let c := fresh "c" in
  let Ea := fresh "Ea" in let Eb := fresh "Eb" in let Ec := fresh "Ec" in
  let Ha := fresh "Ha" in let Hb := fresh "Hb" in let Hc := fresh "Hc" in
  destruct (member "x-ratelimit-reset-requests" members) as [a|] eqn:Ea;
    [destruct (truthy (Val a)) eqn:Ha|];
  (destruct (member "x-ratelimit-reset-tokens" members) as [b|] eqn:Eb;
    [destruct (truthy (Val b)) eqn:Hb|]);
  (destruct (member "x-ratelimit-reset" members) as [c|] eqn:Ec;
    [destruct (truthy (Val c)) eqn:Hc|]);
  repeat (cbn -[truthy]; rewrite ?Ea, ?Eb, ?Ec, ?Ha, ?Hb, ?Hc).

Lemma resetHeader_first (h : json) :
  truthy (Val h) = true ->
  resetHeader (Val h) = Normal (of_option (firstHeader (Some h))).
Proof.
  intros Ht. destruct h as [| b | text | text | items | members]; try done.
  unfold resetHeader, firstHeader, RESET_HEADERS. rewrite !get_member.
  case_reset_headers members; done.
Qed.

Lemma firstHeader_falsy (h : json) :
  truthy (Val h) = false -> firstHeader (Some h) = None.
Proof. by destruct h. Qed.

Lemma firstHeader_truthy headers raw :
  firstHeader headers = Some raw -> truthy (Val raw) = true.
Proof.
  destruct headers as [[| | | | |members]|]; try done.
  unfold firstHeader, RESET_HEADERS.
  case_reset_headers members; intros Heq; by simplify_eq.
Qed.

(** [headers && (headers[..] || .. || undefined)], guarded as in the
    program. *)
Lemma guarded_resetHeader (headers : option json) :
  (if truthy (of_option headers) then resetHeader (of_option headers)
   else Normal Undefined)
  = Normal (of_option (firstHeader headers)).
Proof.
  destruct headers as [h|]; [|done]. cbn [of_option]. destruct (truthy (Val h)) eqn:Hh.
  - by apply resetHeader_first.
  - by rewrite firstHeader_falsy.
Qed.

Lemma includes_nonempty text p :
  includes text p = true -> p <> "" -> text <> "".
Proof.
  intros Hin Hp ->. unfold includes, indexOf in Hin. destruct p; [done|]. done.
Qed.

Lemma rateLimitShaped_truthy error : rateLimitShaped error -> truthy (Val error) = true.
Proof.
  destruct error as [| b | text | text | items | members]; try done.
  intros H. simpl. apply negb_true_iff, String.eqb_neq.
  destruct H as [H | [H | H]]; by apply (includes_nonempty _ _ H).
Qed.

Lemma isRateLimitError_shaped members error :
  member "error" members = Some error ->
  rateLimitShaped error ->
  isRateLimitError (Val (JObj members)) = Normal true.
Proof.
  intros Hm Hs. pose proof (rateLimitShaped_truthy _ Hs) as Ht.
  unfold isRateLimitError. simpl. rewrite Hm. simpl. rewrite Ht.
  destruct error as [| b | text | text | items | errorMembers]; try done.
  - simpl. destruct Hs as [-> | [-> | ->]]; by rewrite ?orb_true_r.
  - simpl. destruct Hs as [-> | ->]; simpl; [done|].
    by destruct (member "type" errorMembers) as [[]|]; simpl;
      try destruct (String.eqb _ _).
Qed.

Lemma checkRateLimit_parsed_shaped members error :
  member "error" members = Some error ->
  rateLimitShaped error ->
  checkRateLimit_parsed (Val (JObj members))
  = match rawResetTime members error with
    | Some raw => n ← parseInt raw; Normal (Some (true, Some n))
    | None => Normal (Some (true, None))
    end.
Proof.
  intros Hm Hs. pose proof (rateLimitShaped_truthy _ Hs) as Ht.
  unfold checkRateLimit_parsed.
  rewrite (isRateLimitError_shaped _ _ Hm Hs), bind_Normal.
  rewrite !get_member, Hm, bind_Normal. cbn [of_option]. rewrite Ht.
  rewrite get_headers_of_error, bind_Normal by done.
  rewrite andb_true_l, guarded_resetHeader, bind_Normal.
  unfold rawResetTime.
  destruct (firstHeader (errorHeaders error)) as [raw|] eqn:Hraw; cbn [of_option].
  - rewrite (firstHeader_truthy _ _ Hraw). cbn [negb andb].
    rewrite !bind_Normal. by rewrite (firstHeader_truthy _ _ Hraw).
  - change (truthy Undefined) with false. cbn [negb andb].
    rewrite bind_Normal, guarded_resetHeader, bind_Normal.
    destruct (firstHeader (member "headers" members)) as [raw|] eqn:Hraw2;
      cbn [of_option]; [|done].
    by rewrite (firstHeader_truthy _ _ Hraw2).
Qed.

Lemma checkRateLimit_parsed_no_error v :
  noErrorField v ->
  checkRateLimit_parsed (Val v) = Normal None
  \/ checkRateLimit_parsed (Val v) = Throw TypeError.
Proof.
  intros Hno. destruct v as [| b | text | text | items | members]; try (by left).
  - by right.
  - left. unfold checkRateLimit_parsed, isRateLimitError.
    rewrite (get_member members "error"). simpl in Hno. by rewrite Hno.
Qed.

Section extractor.

Variable JSON_parse : string -> option json.

(** C6. [checkRateLimit] is a total function: whatever is thrown
    while the body is parsed and inspected is caught. It returns
    [[false, undefined]] for every body that [JSON.parse] rejects, and
    for every body that parses to a value without an error field. *)
Theorem checkRateLimit_no_signal body :
  (JSON_parse body = None -> checkRateLimit JSON_parse body = (false, None))
  /\ (forall v, JSON_parse body = Some v -> noErrorField v ->
        checkRateLimit JSON_parse body = (false, None)).
Proof.
  unfold checkRateLimit. split.
  - by intros ->.
  - intros v -> Hno.
    by destruct (checkRateLimit_parsed_no_error v Hno) as [-> | ->].
Qed.

(** C7 (as amended). For a body whose error field is an object with
    type or code equal to ["rate_limit_exceeded"], or a string that
    contains one of the three phrases, the header value looked at is
    the first truthy one among the three reset headers, on the header
    map of the error object and, when there is none, on the top-level
    header map. Without such a value the result is [[true, undefined]].
    With a value that converts to the string [text], as every string
    and every number does, the result is [[true, parseInt(text, 10)]]:
    the number read off the head of the text, not the value itself. *)
Theorem checkRateLimit_signal body members error :
  JSON_parse body = Some (JObj members) ->
  member "error" members = Some error ->
  rateLimitShaped error ->
  match rawResetTime members error with
  | None => checkRateLimit JSON_parse body = (true, None)
  | Some raw =>
      truthy (Val raw) = true
      /\ (forall text, ToString raw = Normal text ->
            checkRateLimit JSON_parse body = (true, Some (parseInt_string text)))
      /\ (forall text, raw = JStr text \/ raw = JNum text ->
            checkRateLimit JSON_parse body = (true, Some (parseInt_string text)))
  end.
Proof.
  intros Hp Hm Hs. unfold checkRateLimit.
  rewrite Hp, (checkRateLimit_parsed_shaped _ _ Hm Hs).
  destruct (rawResetTime members error) as [raw|] eqn:Hraw; [|done].
  assert (forall text, ToString raw = Normal text ->
            match n ← parseInt raw; Normal (Some (true, Some n)) with
            | Normal (Some result) => result
            | _ => (false, None)
            end = (true, Some (parseInt_string text))) as Hconv.
  { intros text Htext. unfold parseInt. by rewrite Htext. }
  split; [|split].
  - unfold rawResetTime in Hraw.
    destruct (firstHeader (errorHeaders error)) as [r|] eqn:Hr.
    + injection Hraw as <-. by apply (firstHeader_truthy _ _ Hr).
    + by apply (firstHeader_truthy _ _ Hraw).
  - exact Hconv.
  - intros text [-> | ->]; by apply Hconv.
Qed.

End extractor.

Lemma checkRateLimit_no_signal_witness :
  checkRateLimit sample_parse "Bad Gateway" = (false, None)
  /\ checkRateLimit sample_parse "{}" = (false, None)
  /\ checkRateLimit sample_parse "[]" = (false, None).
Proof.
  destruct (checkRateLimit_no_signal sample_parse "Bad Gateway") as [Hbad _].
  destruct (checkRateLimit_no_signal sample_parse "{}") as [_ Hobj].
  destruct (checkRateLimit_no_signal sample_parse "[]") as [_ Harr].
  split; [apply Hbad; reflexivity|].
  split; [apply (Hobj (JObj [])); reflexivity | apply (Harr (JArr [])); reflexivity].
Defined.

(** On the second sample the empty first header is passed over, the
    duration ["6m0s"] of the next one is read as the number 6, and the
    top-level header is not consulted. *)
Lemma checkRateLimit_signal_witness :
  checkRateLimit (fun _ => Some limited_duration) "body" = (true, Some (Num 6)).
Proof.
  pose proof (checkRateLimit_signal (fun _ => Some limited_duration) "body"
                _ _ eq_refl eq_refl (or_intror eq_refl)) as H.
  exact (proj2 (proj2 H) "6m0s" (or_introl eq_refl)).
Defined.

(** The claim C7 as the specification states it fails on the same
    sample: the first reset header that is present is the empty string
    of [x-ratelimit-reset-requests], and the result is neither that
    value nor the text of the next header, but the number 6. *)
Lemma checkRateLimit_reset_is_not_first_raw_value :
  ~ (forall JSON_parse body members error,
       JSON_parse body = Some (JObj members) ->
       member "error" members = Some error ->
       rateLimitShaped error ->
       (checkRateLimit JSON_parse body).1 = true
       /\ is_raw_value (checkRateLimit JSON_parse body).2
                       (presentResetTime members error)).
Proof.
  intros H.
  destruct (H (fun _ => Some limited_duration) "body" _ _ eq_refl eq_refl
              (or_intror eq_refl)) as [_ Hraw].
  exact Hraw.
Qed.

(** A reset header that holds a value without a string conversion. On
    the first sample the error type is the sentinel, and the function
    logs that it found a rate-limit error; [parseInt] then throws
    inside the [try], and the [catch] written for bodies that do not
    parse makes the result [[false, undefined]]. *)
Lemma checkRateLimit_unprintable_header :
  rawResetTime
    [("error",
      JObj [("type", JStr "rate_limit_exceeded");
            ("headers", JObj [("x-ratelimit-reset", JObj [("toString", JNum "1")])])])]
    (JObj [("type", JStr "rate_limit_exceeded");
           ("headers", JObj [("x-ratelimit-reset", JObj [("toString", JNum "1")])])])
  = Some (JObj [("toString", JNum "1")])
  /\ ToString (JObj [("toString", JNum "1")]) = Throw TypeError
  /\ checkRateLimit (fun _ => Some limited_unprintable) "body" = (false, None).
Proof. repeat split. Qed.

(** ** Properties of the catalog filter *)

Lemma every_price_zero pricing ks :
  (fix every (ks : list string) : completion bool :=
     match ks with
     | [] => Normal true
     | k :: ks' =>
         p ← get (Val (JObj pricing)) k;
         if is_string p "0" then every ks' else Normal false
     end) ks
  = Normal (forallb (zero pricing) ks).
Proof.
  induction ks as [|k ks IH]; [done|].
  rewrite get_member, bind_Normal. cbn [forallb]. unfold zero at 1.
  destruct (member k pricing) as [[| | | p | |]|]; try done.
  cbn [of_option is_string]. by destruct (String.eqb p "0").
Qed.

Lemma isFreeModel_zeroPriced model :
  model <> JNull -> isFreeModel model = Normal (zeroPriced model).
Proof.
  intros Hnull. destruct model as [| b | text | text | items | members]; try done.
  unfold isFreeModel, zeroPriced. rewrite get_member, bind_Normal.
  destruct (member "pricing" members) as [pricing|]; [|done]. cbn [of_option].
  destruct (truthy (Val pricing)) eqn:Ht.
  - destruct pricing as [| b | text | text | items | pricing]; try done.
    rewrite every_price_zero. unfold prices. cbn [forallb].
    by rewrite andb_true_r, !andb_assoc.
  - by destruct pricing.
Qed.

Lemma clearData_filter models :
  JNull ∉ models -> clearData models = Normal (List.filter zeroPriced models).
Proof.
  induction models as [|model models IH]; intros Hnull; [done|].
  apply not_elem_of_cons in Hnull as [Hm Hnull].
  cbn [clearData List.filter].
  rewrite isFreeModel_zeroPriced, bind_Normal, IH, bind_Normal by done. done.
Qed.

Lemma member_set_member_eq name v members :
  member name (set_member name v members) = Some v.
Proof.
  induction members as [|[n x] members IH]; simpl.
  - by rewrite String.eqb_refl.
  - destruct (String.eqb n name) eqn:Hn; simpl; by rewrite Hn.
Qed.

Lemma member_set_member_ne name name' v members :
  name <> name' -> member name' (set_member name v members) = member name' members.
Proof.
  intros Hne. induction members as [|[n x] members IH]; simpl.
  - by apply String.eqb_neq in Hne as ->.
  - destruct (String.eqb n name) eqn:Hn; simpl; [|by rewrite IH].
    apply String.eqb_eq in Hn as ->.
    by apply String.eqb_neq in Hne as ->.
Qed.

Lemma zero_spec pricing name :
  zero pricing name = true <-> member name pricing = Some (JStr "0").
Proof.
  unfold zero. destruct (member name pricing) as [[| | | p | |]|]; split; try done.
  - intros Heq%String.eqb_eq. by subst.
  - intros [= ->]. reflexivity.
Qed.

Lemma zeroPriced_spec model :
  zeroPriced model = true
  <-> exists m pricing,
        model = JObj m
        /\ member "pricing" m = Some (JObj pricing)
        /\ member "prompt" pricing = Some (JStr "0")
        /\ member "completion" pricing = Some (JStr "0")
        /\ member "request" pricing = Some (JStr "0")
        /\ member "image" pricing = Some (JStr "0")
        /\ member "web_search" pricing = Some (JStr "0")
        /\ member "internal_reasoning" pricing = Some (JStr "0").
Proof.
  split.
  - destruct model as [| | | | |m]; try done. unfold zeroPriced.
    destruct (member "pricing" m) as [[| | | | |pricing]|] eqn:Hp; try done.
    rewrite !andb_true_iff, !zero_spec. intros (((((? & ?) & ?) & ?) & ?) & ?).
    by exists m, pricing.
  - intros (m & pricing & -> & Hp & ? & ? & ? & ? & ? & ?).
    unfold zeroPriced. rewrite Hp, !andb_true_iff, !zero_spec. done.
Qed.

Section filter.

Variable JSON_parse : string -> option json.
Variable JSON_stringify : json -> string.

(** C8. With the filter switched on, on a body that parses to an
    object whose [data] member is a list of model descriptors (none of
    them [null]): the descriptors kept are exactly those whose pricing
    is an object with the six prices [prompt], [completion],
    [request], [image], [web_search] and [internal_reasoning] all at
    the string ["0"], in their order. When there is one, the result is
    the document printed again with [data] replaced, in place, by the
    descriptors kept, and with every other member as it was; when
    there is none, the result is the body itself. On the example of
    two descriptors, the first with all prices at ["0"] and the second
    with one of the six prices not at ["0"], such as a prompt price of
    ["1"], only the first is kept. *)
Theorem removePaidModels_keeps_free body members models :
  JSON_parse body = Some (JObj members) ->
  member "data" members = Some (JArr models) ->
  JNull ∉ models ->
  let kept := List.filter zeroPriced models in
  let filtered := set_member "data" (JArr kept) members in
  removePaidModels JSON_parse JSON_stringify true body
  = match kept with
    | [] => body
    | _ => JSON_stringify (JObj filtered)
    end
  /\ (forall model,
        model ∈ kept
        <-> model ∈ models
            /\ exists m pricing,
                 model = JObj m
                 /\ member "pricing" m = Some (JObj pricing)
                 /\ member "prompt" pricing = Some (JStr "0")
                 /\ member "completion" pricing = Some (JStr "0")
                 /\ member "request" pricing = Some (JStr "0")
                 /\ member "image" pricing = Some (JStr "0")
                 /\ member "web_search" pricing = Some (JStr "0")
                 /\ member "internal_reasoning" pricing = Some (JStr "0"))
  /\ member "data" filtered = Some (JArr kept)
  /\ (forall name, name <> "data" -> member name filtered = member name members)
  /\ (forall pricing,
        members = [("data", JArr models)] ->
        models = [free_model; JObj [("pricing", JObj pricing)]] ->
        member "prompt" pricing <> Some (JStr "0")
        \/ member "completion" pricing <> Some (JStr "0")
        \/ member "request" pricing <> Some (JStr "0")
        \/ member "image" pricing <> Some (JStr "0")
        \/ member "web_search" pricing <> Some (JStr "0")
        \/ member "internal_reasoning" pricing <> Some (JStr "0") ->
        removePaidModels JSON_parse JSON_stringify true body
        = JSON_stringify (JObj [("data", JArr [free_model])])).
Proof.
  intros Hp Hd Hnull kept filtered.
  assert (removePaidModels JSON_parse JSON_stringify true body
          = match kept with
            | [] => body
            | _ => JSON_stringify (JObj filtered)
            end) as Hres.
  { unfold removePaidModels, removePaidModels_parsed. cbn [negb].
    rewrite Hp, get_member, Hd, bind_Normal. cbn [of_option].
    rewrite clearData_filter, bind_Normal by done. fold kept.
    by destruct kept. }
  split; [done|]. split.
  { intros model. subst kept.
    rewrite list_elem_of_In, filter_In, <- list_elem_of_In, zeroPriced_spec. done. }
  split; [apply member_set_member_eq|].
  split; [intros name Hne; by apply member_set_member_ne|].
  intros pricing -> Hm Hpaid. rewrite Hres. subst kept filtered. rewrite Hm.
  cbn [List.filter]. change (zeroPriced free_model) with true. cbv iota.
  assert (zeroPriced (JObj [("pricing", JObj pricing)]) = false) as ->; [|done].
  apply not_true_is_false. rewrite zeroPriced_spec.
  intros (m & pricing' & [= <-] & [= <-] & ? & ? & ? & ? & ? & ?).
  destruct Hpaid as [H | [H | [H | [H | [H | H]]]]]; by apply H.
Qed.

End filter.

Lemma removePaidModels_keeps_free_witness :
  removePaidModels (fun _ => Some catalog)
    (fun v => match v with
              | JObj [("data", JArr [_])] => "one model"
              | _ => "other"
              end) true "body"
  = "one model".
Proof.
  pose proof (removePaidModels_keeps_free (fun _ => Some catalog)
    (fun v => match v with
              | JObj [("data", JArr [_])] => "one model"
              | _ => "other"
              end) "body" _ _ eq_refl eq_refl) as H.
  apply H.
  intros Hin. repeat (apply elem_of_cons in Hin as [Hin | Hin]; [discriminate Hin|]).
  by apply elem_of_nil in Hin.
Defined.

(** ** Properties of the streaming relay *)

Lemma length_append (a b : string) :
  String.length (a +:+ b) = String.length a + String.length b.
Proof. induction a as [|c a IH]; simpl; [done | by rewrite IH]. Qed.

Lemma substring_all s : String.substring 0 (String.length s) s = s.
Proof. induction s as [|c s IH]; simpl; [done | by rewrite IH]. Qed.

Lemma substring_split n s :
  String.substring 0 n s +:+ substring_from n s = s.
Proof.
  unfold substring_from. revert n. induction s as [|c s IH]; intros [|n]; try done.
  - simpl. by rewrite substring_all.
  - simpl. unfold String.app. simpl. f_equal. apply IH.
Qed.

Lemma append_assoc (a b c : string) : (a +:+ b) +:+ c = a +:+ (b +:+ c).
Proof.
  unfold String.app. induction a as [|x a IH]; simpl; [done | by rewrite IH].
Qed.

Lemma append_nil_r (a : string) : a +:+ "" = a.
Proof.
  unfold String.app. induction a as [|x a IH]; simpl; [done | by rewrite IH].
Qed.

Lemma bytes_cons x l : bytes (x :: l) = x +:+ bytes l.
Proof. reflexivity. Qed.

Lemma bytes_app l1 l2 : bytes (l1 ++ l2) = bytes l1 +:+ bytes l2.
Proof.
  induction l1 as [|x l1 IH]; [done|].
  rewrite <-app_comm_cons, !bytes_cons, IH. by rewrite append_assoc.
Qed.

(** The loop moves bytes from the buffer to the client, and neither
    drops nor adds any. *)
Lemma drain_bytes turns buffer :
  bytes (drain turns buffer).1 +:+ (drain turns buffer).2 = buffer.
Proof.
  revert buffer. induction turns as [|turns IH]; intros buffer; [done|].
  simpl. destruct (indexOf buffer blank_line) as [idx|]; [|done].
  specialize (IH (substring_from (idx + 2) buffer)).
  destruct (drain turns (substring_from (idx + 2) buffer)) as [messages rest].
  cbn [fst snd] in *. rewrite bytes_cons, append_assoc, IH.
  apply substring_split.
Qed.

Lemma onData_length chunkStr buffer :
  String.length (bytes (onData chunkStr buffer).1)
  + String.length (onData chunkStr buffer).2
  = String.length buffer + String.length chunkStr
    + (if isComment chunkStr then String.length chunkStr else 0).
Proof.
  unfold onData. destruct (isComment chunkStr).
  - cbn [fst snd]. rewrite bytes_cons, !length_append. simpl. lia.
  - rewrite <-length_append, drain_bytes, length_append. lia.
Qed.

(** Every chunk taken for a comment reaches the client twice: once
    from the listener, and once more from the buffer, where the
    listener had put it before looking at it. *)
Lemma relay_length chunks buffer :
  String.length (bytes (relay chunks buffer))
  = String.length buffer + String.length (bytes chunks)
    + String.length (bytes (List.filter isComment chunks)).
Proof.
  revert buffer. induction chunks as [|chunkStr chunks IH]; intros buffer.
  - cbn [relay]. unfold onEnd. destruct buffer as [|c buffer]; [done|].
    change (0 <? String.length (String c buffer)) with true. cbv iota.
    rewrite bytes_cons. change (bytes []) with "". rewrite append_nil_r.
    cbn [List.filter]. change (bytes []) with "". simpl. lia.
  - cbn [relay]. pose proof (onData_length chunkStr buffer) as Hd.
    destruct (onData chunkStr buffer) as [written buffer'].
    cbn [fst snd] in Hd. rewrite bytes_app, length_append, IH.
    cbn [List.filter]. rewrite bytes_cons, length_append.
    destruct (isComment chunkStr).
    + rewrite bytes_cons, length_append. lia.
    + lia.
Qed.

Lemma length_substring n m s :
  String.length (String.substring n m s) = m `min` (String.length s - n).
Proof.
  revert n m. induction s as [|c s IH]; intros [|n] [|m]; simpl; try done.
  - by rewrite IH, Nat.sub_0_r.
Qed.

Lemma indexOf_bound s p idx :
  indexOf s p = Some idx -> p <> "" -> idx + String.length p <= String.length s.
Proof.
  intros Hidx Hp. apply String.index_correct1 in Hidx.
  apply (f_equal String.length) in Hidx. rewrite length_substring in Hidx.
  destruct p as [|a p]; [done|].
  change (String.length (String a p)) with (S (String.length p)) in *. lia.
Qed.

(** The length of the buffer is enough turns: the loop stops on a
    buffer without a blank line. *)
Lemma drain_complete turns buffer :
  String.length buffer <= turns ->
  indexOf (drain turns buffer).2 blank_line = None.
Proof.
  revert buffer. induction turns as [|turns IH]; intros buffer Hlen.
  - destruct buffer; [done | simpl in Hlen; lia].
  - simpl. destruct (indexOf buffer blank_line) as [idx|] eqn:Hidx; [|done].
    specialize (IH (substring_from (idx + 2) buffer)).
    destruct (drain turns (substring_from (idx + 2) buffer)) as [messages rest].
    apply IH. unfold substring_from. rewrite length_substring.
    apply indexOf_bound in Hidx; [|done]. simpl in Hidx. lia.
Qed.

(** C5. On the sample stream the relay does not emit each frame once.
    Fed the comment frame and the data frame as two chunks, it writes
    the comment frame twice, then the data frame. Fed both in one
    chunk, it writes the whole chunk twice. And however the ten bytes
    are cut into non-empty chunks, more bytes are written than were
    received, so the output is never the two frames once each. *)
Theorem relay_writes_comment_twice :
  relay [comment_frame; data_frame] "" = [comment_frame; comment_frame; data_frame]
  /\ relay [comment_frame +:+ data_frame] ""
     = [comment_frame +:+ data_frame; comment_frame +:+ data_frame]
  /\ forall chunks,
       bytes chunks = comment_frame +:+ data_frame ->
       Forall (fun chunkStr => chunkStr <> "") chunks ->
       String.length (bytes (relay chunks "")) > String.length (bytes chunks)
       /\ relay chunks "" <> [comment_frame; data_frame].
Proof.
  split; [by vm_compute|]. split; [by vm_compute|].
  intros chunks Hbytes Hne.
  assert (String.length (bytes (relay chunks "")) > String.length (bytes chunks)) as Hlen.
  { rewrite relay_length. simpl.
    destruct chunks as [|chunkStr chunks]; [discriminate Hbytes|].
    apply Forall_cons in Hne as [Hc _].
    destruct chunkStr as [|c chunkStr]; [done|].
    rewrite bytes_cons in Hbytes. unfold String.app in Hbytes. simpl in Hbytes.
    injection Hbytes as -> _.
    cbn [List.filter]. change (isComment (String ":" chunkStr)) with true.
    rewrite (bytes_cons (String ":" chunkStr)), (length_append (String ":" chunkStr)).
    simpl. lia. }
  split; [done|]. intros Heq. rewrite Heq, Hbytes in Hlen. vm_compute in Hlen. lia.
Qed.

(** ** Properties of the access check *)

(** C9. When the path is not public and [verifyAccessKey] throws,
    the handler answers 401 with the message of the error, makes no
    call on the key pool, and leaves the pool, cursor and penalties, as
    it was. *)
Theorem handler_unauthorized tz w forward fuel cfg req now km e :
  isPublic cfg req = false ->
  verifyAccessKey (access_key cfg) (authorization req) = Throw e ->
  handler tz w forward fuel cfg req now km
  = Some (mkResponse 401 (error_message e), km, []).
Proof.
  intros Hpub Hver. unfold handler, authorize. by rewrite Hpub, Hver.
Qed.

Lemma handler_unauthorized_witness :
  handler zone_UTC quiet_world (fun _ _ _ km => (mkResponse 200 "", km, []))
    0 (mkConfig "secret" ["/api/v1/models"])
    (mkRequest "chat/completions" (Some "Bearer guess")) 0 pool2
  = Some (mkResponse 401 "無效的訪問金鑰", pool2, []).
Proof.
  apply (handler_unauthorized zone_UTC quiet_world _ 0 (mkConfig "secret" ["/api/v1/models"])
           (mkRequest "chat/completions" (Some "Bearer guess")) 0 pool2
           (Error "無效的訪問金鑰")); reflexivity.
Defined.

(** C10. With the empty string as access key, [verifyAccessKey]
    returns [true] for every header, present or not, well formed or
    not, without looking at it; so the handler never answers 401 on its
    own. A configured key that is not a string is normalized to the
    empty string, with the same effect. *)
Theorem verifyAccessKey_empty_key header :
  verifyAccessKey "" header = Normal true
  /\ (forall cfg req, access_key cfg = "" -> authorize cfg req = None)
  /\ (forall configured,
        (forall key, configured <> Val (JStr key)) ->
        verifyAccessKey (normalizeAccessKey configured) header = Normal true).
Proof.
  split; [done|]. split.
  - intros cfg req Hkey. unfold authorize. rewrite Hkey.
    by destruct (negb (isPublic cfg req)).
  - intros configured Hns.
    assert (normalizeAccessKey configured = "") as ->; [|done].
    destruct configured as [|[| | | key | |]]; try done. by destruct (Hns key).
Qed.

Lemma verifyAccessKey_empty_key_witness :
  verifyAccessKey "" (Some "Basic dXNlcjpwYXNz") = Normal true
  /\ authorize (mkConfig "" []) (mkRequest "chat/completions" None) = None
  /\ verifyAccessKey (normalizeAccessKey (Val (JNum "12345"))) (Some "nonsense")
     = Normal true.
Proof.
  destruct (verifyAccessKey_empty_key (Some "Basic dXNlcjpwYXNz")) as (H1 & H2 & _).
  destruct (verifyAccessKey_empty_key (Some "nonsense")) as (_ & _ & H3).
  split; [exact H1|]. split; [by apply H2|]. apply H3. intros key. discriminate.
Defined.

(** * Further properties *)

(** ** More properties of the key pool *)

(** *** The rendering of a key in the log *)

Lemma substring_0_app (a b : string) :
  String.substring 0 (String.length a) (a +:+ b) = a.
Proof.
  induction a as [|c a IH]; simpl.
  - by destruct b.
  - by rewrite IH.
Qed.

Lemma substring_skip_app (a b : string) m :
  String.substring (String.length a) m (a +:+ b) = String.substring 0 m b.
Proof. induction a as [|c a IH]; simpl; [done|]. apply IH. Qed.

Lemma substring_from_app (a b : string) :
  substring_from (String.length a) (a +:+ b) = b.
Proof.
  unfold substring_from. rewrite substring_skip_app, length_append.
  replace (String.length a + String.length b - String.length a)
    with (String.length b) by lia.
  apply substring_all.
Qed.

(** X1. [maskKey] never writes more than twelve code units. A key of
    at most eight code units is rendered as four stars, whatever it
    is. A longer key is rendered as its first four code units, four
    stars and its last four: nothing of what lies between them reaches
    the log, and two keys that agree on these eight code units have
    the same rendering. *)
Theorem maskKey_hides_middle key :
  String.length (maskKey key) <= 12
  /\ (String.length key <= 8 -> maskKey key = "****")
  /\ (forall head middle tail,
        key = head +:+ middle +:+ tail ->
        String.length head = 4 ->
        String.length tail = 4 ->
        middle <> "" ->
        maskKey key = head +:+ "****" +:+ tail).
Proof.
  assert (forall head middle tail,
        key = head +:+ middle +:+ tail ->
        String.length head = 4 ->
        String.length tail = 4 ->
        middle <> "" ->
        maskKey key = head +:+ "****" +:+ tail) as Hsplit.
  { intros head middle tail -> Hh Ht Hm. unfold maskKey.
    assert (0 < String.length middle) by (destruct middle; [done | simpl; lia]).
    rewrite !length_append, Hh, Ht.
    destruct (Nat.leb_spec (4 + (String.length middle + 4)) 8) as [|_]; [lia|].
    rewrite <- Hh at 1. rewrite substring_0_app.
    rewrite <- (append_assoc head middle tail).
    replace (4 + (String.length middle + 4) - 4)
      with (String.length (head +:+ middle)) by (rewrite length_append; lia).
    rewrite substring_from_app. by rewrite append_assoc. }
  split; [|split; [|done]].
  - unfold maskKey.
    destruct (Nat.leb_spec (String.length key) 8) as [|Hlong]; [simpl; lia|].
    rewrite !length_append, !length_substring. unfold substring_from.
    rewrite length_substring. change (String.length "****") with 4. lia.
  - intros Hshort. unfold maskKey.
    by destruct (Nat.leb_spec (String.length key) 8); [|lia].
Qed.

(** *** Every reachable pool *)

Lemma cooldownSeconds_attempt tz cooldown now km :
  cursor_ok km -> cooldownSeconds (attempt tz cooldown now km).2 = cooldownSeconds km.
Proof.
  intros Hc.
  destruct (attempt_cases tz cooldown now km Hc) as [[_ ->] | (j & _ & _ & _ & ->)]; [done|].
  cbn [snd]. unfold selected, applyCooldown. by destruct (0 <? cooldown)%Z.
Qed.

Lemma entries_attempt tz cooldown now km key :
  cursor_ok km ->
  is_Some (disabledUntil (attempt tz cooldown now km).2 !! key) ->
  is_Some (disabledUntil km !! key) \/ key ∈ keys km.
Proof.
  intros Hc.
  destruct (attempt_cases tz cooldown now km Hc) as [[_ ->] | (j & _ & _ & _ & ->)];
    [by left|].
  cbn [snd]. rewrite disabledUntil_selected.
  destruct (0 <? cooldown)%Z.
  - rewrite lookup_insert_is_Some. intros [<- | [_ Hs]].
    + right. by apply candidate_elem_of.
    + left. apply lookup_delete_is_Some in Hs. tauto.
  - intros Hs. left. apply lookup_delete_is_Some in Hs. tauto.
Qed.

Lemma pool_step_invariant tz km op :
  cursor_ok km ->
  keys (pool_step tz km op) = keys km
  /\ cooldownSeconds (pool_step tz km op) = cooldownSeconds km
  /\ cursor_ok (pool_step tz km op)
  /\ lockPromise (pool_step tz km op) = false
  /\ forall key, is_Some (disabledUntil (pool_step tz km op) !! key) ->
       is_Some (disabledUntil km !! key) \/ key ∈ keys km
       \/ exists resetTimeMs now, op = Penalize key resetTimeMs now.
Proof.
  intros Hc. destruct op as [cooldown now | key0 hint now]; cbn [pool_step].
  - destruct (attempt_invariants tz cooldown now km Hc) as (Hk & Hc' & Hl).
    split; [done|]. split; [by apply cooldownSeconds_attempt|].
    split; [done|]. split; [done|].
    intros key Hs. destruct (entries_attempt tz _ _ _ _ Hc Hs); tauto.
  - rewrite disableKey_state. cbn.
    split; [done|]. split; [done|]. split; [done|]. split; [done|].
    intros key. rewrite lookup_insert_is_Some. intros [<- | [_ Hs]]; [|tauto].
    right. right. eauto.
Qed.

Lemma pool_run_snoc tz ops op km :
  pool_run tz (ops ++ [op]) km = pool_step tz (pool_run tz ops km) op.
Proof. unfold pool_run. by rewrite foldl_app. Qed.

Lemma pool_run_invariant tz km ops :
  cursor_ok km ->
  keys (pool_run tz ops km) = keys km
  /\ cooldownSeconds (pool_run tz ops km) = cooldownSeconds km
  /\ cursor_ok (pool_run tz ops km)
  /\ (ops <> [] -> lockPromise (pool_run tz ops km) = false)
  /\ forall key, is_Some (disabledUntil (pool_run tz ops km) !! key) ->
       is_Some (disabledUntil km !! key) \/ key ∈ keys km
       \/ exists resetTimeMs now, Penalize key resetTimeMs now ∈ ops.
Proof.
  intros Hc. induction ops as [|op ops IH] using rev_ind.
  - cbn. split; [done|]. split; [done|]. split; [done|]. split; [done|]. tauto.
  - destruct IH as (Hk & Hcd & Hc' & _ & He).
    rewrite pool_run_snoc.
    destruct (pool_step_invariant tz (pool_run tz ops km) op Hc')
      as (Hk2 & Hcd2 & Hc2 & Hl2 & He2).
    split; [congruence|]. split; [congruence|]. split; [done|]. split; [done|].
    intros key Hs. destruct (He2 key Hs) as [Hs' | [Hin | (h & t & ->)]].
    + destruct (He key Hs') as [? | [? | (h & t & ?)]]; [tauto | tauto |].
      right. right. exists h, t. apply elem_of_app. by left.
    + rewrite Hk in Hin. tauto.
    + right. right. exists h, t. apply elem_of_app. right.
      by apply list_elem_of_singleton.
Qed.

(** X2. The constructor refuses no key list but the empty one. In
    every pool reached from the constructor by attempts of
    [getNextKey] and calls of [disableKey], in any order, at any
    instants and with any arguments, the key list and the default
    cooldown are those given to the constructor, the cursor points
    into the key list, the lock is free, and every penalty entry
    belongs to a key of the pool or to a key that [disableKey] was
    called with. *)
Theorem reachable_pool_well_formed tz ks cooldown ops :
  match new_KeyManager ks cooldown with
  | None => ks = []
  | Some km =>
      let km' := pool_run tz ops km in
      keys km' = ks
      /\ cooldownSeconds km' = cooldown
      /\ currentIndex km' < length ks
      /\ lockPromise km' = false
      /\ forall key, is_Some (disabledUntil km' !! key) ->
           key ∈ ks \/ exists resetTimeMs now, Penalize key resetTimeMs now ∈ ops
  end.
Proof.
  destruct ks as [|k ks]; [done|]. cbn [new_KeyManager].
  set (km := mkKeyManager (k :: ks) cooldown 0 ∅ false).
  assert (cursor_ok km) as Hc by (unfold cursor_ok; simpl; lia).
  destruct (pool_run_invariant tz km ops Hc) as (Hk & Hcd & Hc' & Hl & He).
  cbv zeta. split; [done|]. split; [done|].
  split; [unfold cursor_ok in Hc'; by rewrite Hk in Hc'|].
  split.
  - destruct ops as [|op ops]; [done|]. by apply Hl.
  - intros key Hs. destruct (He key Hs) as [Hs' | [? | ?]]; [|tauto..].
    subst km. simpl in Hs'. rewrite lookup_empty in Hs'. by destruct Hs'.
Qed.

(** *** What an attempt returns *)



(** Where the offset of local time is the same at the instant of the
    call and for the local time the seconds are moved to, the cooldown
    date is [cooldown] seconds after the call. *)
Lemma cooldownDate_steady tz now cooldown :
  LocalTZA tz (LocalTime tz now + cooldown * 1000) false = LocalTZA tz now true ->
  cooldownDate tz now cooldown = Date.make (now + cooldown * 1000).
Proof.
  intros Hsame. unfold cooldownDate, UTC. rewrite Hsame. unfold LocalTime.
  f_equal. lia.
Qed.

Lemma cooldownDate_fixed offset now cooldown :
  cooldownDate (zone_fixed offset) now cooldown = Date.make (now + cooldown * 1000).
Proof. by apply cooldownDate_steady. Qed.

(** In the hour that clocks moved back repeat, it is not: with the
    clocks moved back from four to five hours behind universal time,
    a cooldown of five seconds asked for ten minutes after the shift
    ends almost an hour before it was asked for. *)
Lemma cooldownDate_repeated_hour shift :
  cooldownDate (zone_shifting shift (-14400000) (-18000000)) (shift + 600000) 5
  = Date.make (shift + 600000 - 3595000).
Proof.
  unfold cooldownDate, UTC, LocalTime, zone_shifting. cbn [LocalTZA].
  destruct (Z.ltb_spec (shift + 600000) shift); [lia|].
  destruct (Z.ltb_spec (shift + 600000 + -18000000 + 5 * 1000) (shift + -14400000));
    [|lia].
  f_equal. lia.
Qed.

(** X4. An attempt of [getNextKey] that returns a key changes no
    penalty entry but the one of that key, which it removes (a stale
    entry is cleared when the key is returned, not before) or, with a
    positive cooldown argument, sets to the cooldown date: the date
    that [setSeconds] gives in the time zone of the process. An
    attempt that finds every key ineligible leaves the pool exactly as
    it was, the cursor included. *)
Theorem attempt_changes_one_entry tz cooldown now km :
  cursor_ok km ->
  lockPromise km = false ->
  match (attempt tz cooldown now km).1.1 with
  | Returned key =>
      (forall other, other <> key ->
         disabledUntil (attempt tz cooldown now km).2 !! other = disabledUntil km !! other)
      /\ disabledUntil (attempt tz cooldown now km).2 !! key
         = (if (0 <? cooldown)%Z
            then Some (Date.make (UTC tz (LocalTime tz now + cooldown * 1000)))
            else None)
  | Suspended _ => (attempt tz cooldown now km).2 = km
  end.
Proof.
  intros Hc Hl.
  destruct (attempt_cases tz cooldown now km Hc) as [[_ ->] | (j & _ & _ & _ & ->)];
    cbn [fst snd].
  - destruct km. simpl in Hl. by subst.
  - rewrite disabledUntil_selected. split.
    + intros other Hne. destruct (0 <? cooldown)%Z.
      * by rewrite lookup_insert_ne, lookup_delete_ne.
      * by rewrite lookup_delete_ne.
    + destruct (0 <? cooldown)%Z.
      * by rewrite lookup_insert_eq.
      * by rewrite lookup_delete_eq.
Qed.

(** One hour ahead of universal time, the key of the one-key pool,
    returned at 60000 with a cooldown of five seconds, is held until
    65000. *)
Lemma attempt_changes_one_entry_witness :
  (forall other, other <> "k" ->
     disabledUntil (attempt (zone_fixed 3600000) 5 60000 penalized1).2 !! other
     = disabledUntil penalized1 !! other)
  /\ disabledUntil (attempt (zone_fixed 3600000) 5 60000 penalized1).2 !! "k"
     = Some (Date.Time 65000).
Proof.
  apply (attempt_changes_one_entry (zone_fixed 3600000) 5 60000 penalized1).
  - unfold cursor_ok. simpl. lia.
  - reflexivity.
Defined.

(** X5. In a time zone whose offset is the same at the instant of the
    attempt and for the local time the seconds are moved to, a key
    returned by an attempt with a positive cooldown argument is
    returned by no attempt made less than that many seconds later,
    whoever makes it, whatever its own cooldown argument, and whatever
    is done to the pool in between, short of a [disableKey] of that
    key. *)
Theorem cooldown_holds_returned_key tz cooldown now km key ops :
  cursor_ok km ->
  (0 < cooldown)%Z ->
  LocalTZA tz (LocalTime tz now + cooldown * 1000) false = LocalTZA tz now true ->
  (attempt tz cooldown now km).1.1 = Returned key ->
  Forall (fun op => ~ penalizes key op) ops ->
  Forall (made_before (now + cooldown * 1000)) ops ->
  Returned key ∉ pool_results tz ops (attempt tz cooldown now km).2.
Proof.
  intros Hc Hcd Hsame Hr Hpen Hbef.
  destruct (attempt_invariants tz cooldown now km Hc) as (_ & Hc' & _).
  apply (pool_run_holds_key tz ops _ key (Date.make (now + cooldown * 1000))
           (now + cooldown * 1000)); try done.
  - rewrite <- (cooldownDate_steady tz now cooldown Hsame).
    destruct (attempt_cases tz cooldown now km Hc) as [[_ Ha] | (j & _ & _ & _ & Ha)];
      rewrite Ha in Hr |- *; cbn [fst snd] in *; [done|].
    simplify_eq. rewrite disabledUntil_selected.
    destruct (Z.ltb_spec 0 cooldown); [|lia]. by rewrite lookup_insert_eq.
  - intros t Ht. unfold Date.make, Date.geb.
    destruct (Z.abs (now + cooldown * 1000) <=? Date.MAX_TIME)%Z; [|done].
    apply Z.leb_gt. lia.
Qed.

(** Five hours behind universal time: ["a"], returned at 0 with a
    cooldown of five seconds, is not returned by the attempts made at
    1000 and at 4999, the other key being penalized in between. *)
Lemma cooldown_holds_returned_key_witness :
  Returned "a" ∉ pool_results (zone_fixed (-18000000))
                   [Acquire 0 1000; Penalize "c" None 2000; Acquire 0 4999]
                   (attempt (zone_fixed (-18000000)) 5 0 pool2).2.
Proof.
  apply (cooldown_holds_returned_key (zone_fixed (-18000000)) 5 0 pool2 "a").
  - unfold cursor_ok. simpl. lia.
  - lia.
  - reflexivity.
  - vm_compute. reflexivity.
  - repeat (apply Forall_cons; split); try apply Forall_nil; simpl;
      try tauto; discriminate.
  - repeat (apply Forall_cons; split); try apply Forall_nil; simpl;
      try tauto; lia.
Defined.

(** X6. [disableKey] overwrites: penalizing a key twice leaves the
    pool that the second call alone would leave, so that a later,
    shorter penalty shortens an earlier one. The call changes no entry
    of another key, and neither the cursor, the key list nor the
    default cooldown. *)
Theorem disableKey_last_wins key hint1 now1 hint2 now2 km :
  (disableKey key hint2 now2 (disableKey key hint1 now1 km).2).2
  = (disableKey key hint2 now2 km).2
  /\ (forall other, other <> key ->
        disabledUntil (disableKey key hint1 now1 km).2 !! other
        = disabledUntil km !! other)
  /\ currentIndex (disableKey key hint1 now1 km).2 = currentIndex km
  /\ keys (disableKey key hint1 now1 km).2 = keys km
  /\ cooldownSeconds (disableKey key hint1 now1 km).2 = cooldownSeconds km.
Proof.
  rewrite !disableKey_state. split.
  - unfold set_lockPromise, set_disabledUntil. cbn.
    rewrite insert_insert_eq. f_equal.
  - split; [|done]. intros other Hne. cbn. by rewrite lookup_insert_ne.
Qed.




(** *** A hint that is not ahead *)

(** X8. A hint that is not after the current instant, such as a
    number of seconds to wait, is not used: the call is the call
    without a hint, and stores the default cooldown date. *)
Theorem disableKey_past_hint key h now km :
  (h <= now)%Z ->
  disableKey key (Some (Num h)) now km = disableKey key None now km
  /\ disabledUntil (disableKey key (Some (Num h)) now km).2 !! key
     = Some (Date.make (now + cooldownSeconds km * 1000)).
Proof.
  intros Hpast.
  assert (resolveDisabledUntil now km (Some (Num h)) = defaultCooldown now km) as Hd.
  { unfold resolveDisabledUntil. destruct (number_truthy (Num h)); [|done].
    by rewrite resetDatetime_not_future. }
  split.
  - unfold disableKey. cbv zeta. by rewrite Hd.
  - rewrite disableKey_state. cbn [disabledUntil set_lockPromise set_disabledUntil].
    by rewrite lookup_insert_eq, Hd.
Qed.

Lemma disableKey_past_hint_witness :
  disableKey "k" (Some (Num 30)) 1700000000000 pool1
  = disableKey "k" None 1700000000000 pool1.
Proof.
  apply (disableKey_past_hint "k" 30 1700000000000 pool1). lia.
Defined.

(** ** More properties of the access check *)

Lemma append_cons a (x y : string) : String a x +:+ y = String a (x +:+ y).
Proof. reflexivity. Qed.

Lemma strip_prefix_ci_split p s rest :
  strip_prefix_ci p s = Some rest ->
  exists scheme, s = scheme +:+ rest /\ toLowerCase scheme = toLowerCase p.
Proof.
  revert s. induction p as [|a p IH]; intros s; simpl.
  - intros [= ->]. by exists "".
  - destruct s as [|b s]; [done|].
    destruct (Ascii.eqb_spec (lower a) (lower b)) as [Hab|]; [|done].
    intros (scheme & -> & Hl)%IH. exists (String b scheme).
    rewrite append_cons. simpl. by rewrite Hl, Hab.
Qed.

Lemma strip_prefix_ci_app p scheme rest :
  toLowerCase scheme = toLowerCase p ->
  strip_prefix_ci p (scheme +:+ rest) = Some rest.
Proof.
  revert scheme. induction p as [|a p IH]; intros [|b scheme]; simpl; try done.
  intros [= Hab Hl]. rewrite Hab, Ascii.eqb_refl. by apply IH.
Qed.

Lemma trimStart_split s :
  exists spaces, s = spaces +:+ trimStart s /\ all_space spaces = true.
Proof.
  induction s as [|a s (spaces & Hs & Ha)]; simpl.
  - by exists "".
  - destruct (is_space a) eqn:Hsp.
    + exists (String a spaces). rewrite append_cons. simpl. by rewrite <- Hs, Hsp, Ha.
    + by exists "".
Qed.

Lemma trimStart_app spaces token :
  all_space spaces = true ->
  token <> "" ->
  no_space token = true ->
  trimStart (spaces +:+ token) = token.
Proof.
  intros Ha Hne Hn. induction spaces as [|a spaces IH]; simpl in *.
  - destruct token as [|b token]; [done|]. simpl in *.
    apply andb_true_iff in Hn as [Hb _]. by destruct (is_space b).
  - apply andb_true_iff in Ha as [-> Ha]. by apply IH.
Qed.

Lemma matchBearer_iff header token :
  matchBearer header = Some token
  <-> exists scheme spaces,
        header = scheme +:+ spaces +:+ token
        /\ toLowerCase scheme = "bearer"
        /\ spaces <> ""
        /\ all_space spaces = true
        /\ token <> ""
        /\ no_space token = true.
Proof.
  unfold matchBearer. split.
  - destruct (strip_prefix_ci "Bearer" header) as [rest|] eqn:Hstrip; [|done].
    apply strip_prefix_ci_split in Hstrip as (scheme & -> & Hscheme).
    destruct (trimStart_split rest) as (spaces & Hrest & Hspaces).
    cbv zeta.
    destruct (String.length (trimStart rest) <? String.length rest) eqn:Hlen; [|done].
    destruct (0 <? String.length (trimStart rest)) eqn:Hpos; [|done].
    destruct (no_space (trimStart rest)) eqn:Hno; [|done].
    intros [= <-]. exists scheme, spaces.
    split; [by rewrite <- Hrest|]. split; [done|].
    apply Nat.ltb_lt in Hlen, Hpos.
    split; [|split; [done|split; [|done]]].
    + intros ->. change (rest = trimStart rest) in Hrest. rewrite <- Hrest in Hlen. lia.
    + intros Hempty. rewrite Hempty in Hpos. simpl in Hpos. lia.
  - intros (scheme & spaces & -> & Hscheme & Hne & Hspaces & Htoken & Hno).
    rewrite (strip_prefix_ci_app "Bearer" scheme) by done.
    cbv zeta. rewrite trimStart_app by done.
    rewrite length_append.
    assert (0 < String.length spaces) by (destruct spaces; [done | simpl; lia]).
    assert (0 < String.length token) by (destruct token; [done | simpl; lia]).
    destruct (Nat.ltb_spec (String.length token) (String.length spaces + String.length token));
      [|lia].
    destruct (Nat.ltb_spec 0 (String.length token)); [|lia].
    by rewrite Hno.
Qed.

(** X9. With a configured key that is not empty, [verifyAccessKey]
    accepts exactly the headers made of the word Bearer in any letter
    case, one or more white space characters, and the configured key,
    the key itself being without white space. *)
Theorem verifyAccessKey_accepts_iff accessKey header :
  accessKey <> "" ->
  verifyAccessKey accessKey header = Normal true
  <-> exists scheme spaces,
        header = Some (scheme +:+ spaces +:+ accessKey)
        /\ toLowerCase scheme = "bearer"
        /\ spaces <> ""
        /\ all_space spaces = true
        /\ no_space accessKey = true.
Proof.
  intros Hkey. unfold verifyAccessKey.
  destruct (String.eqb_spec accessKey "") as [|_]; [done|]. split.
  - destruct header as [[|a header]|]; [done| |done].
    destruct (matchBearer (String a header)) as [token|] eqn:Hmatch; [|done].
    destruct (String.eqb_spec token accessKey) as [->|]; [|done].
    intros _. apply matchBearer_iff in Hmatch
      as (scheme & spaces & Hh & Hscheme & Hne & Hspaces & _ & Hno).
    exists scheme, spaces. by rewrite Hh.
  - intros (scheme & spaces & -> & Hscheme & Hne & Hspaces & Hno).
    assert (matchBearer (scheme +:+ spaces +:+ accessKey) = Some accessKey) as Hmatch.
    { apply matchBearer_iff. by exists scheme, spaces. }
    destruct (scheme +:+ spaces +:+ accessKey) as [|a s] eqn:Hs.
    { by destruct scheme. }
    rewrite Hmatch. by rewrite String.eqb_refl.
Qed.

Lemma verifyAccessKey_accepts_iff_witness :
  verifyAccessKey "secret" (Some ("bEARER" +:+ "   " +:+ "secret")) = Normal true.
Proof.
  apply (verifyAccessKey_accepts_iff "secret" (Some ("bEARER" +:+ "   " +:+ "secret"))).
  - discriminate.
  - exists "bEARER", "   ". split; [reflexivity|]. split; [reflexivity|].
    split; [discriminate|]. split; reflexivity.
Defined.

(** X10. A configured key that contains white space locks every
    caller out: whatever the header, [verifyAccessKey] throws. *)
Theorem verifyAccessKey_key_with_space accessKey header :
  no_space accessKey = false ->
  exists message, verifyAccessKey accessKey header = Throw (Error message).
Proof.
  intros Hsp. unfold verifyAccessKey.
  destruct (String.eqb_spec accessKey "") as [->|_]; [done|].
  destruct header as [[|a header]|]; [by eexists| |by eexists].
  destruct (matchBearer (String a header)) as [token|] eqn:Hmatch; [|by eexists].
  apply matchBearer_iff in Hmatch as (_ & _ & _ & _ & _ & _ & _ & Hno).
  destruct (String.eqb_spec token accessKey) as [->|]; [congruence|].
  by eexists.
Qed.

Lemma verifyAccessKey_key_with_space_witness :
  exists message,
    verifyAccessKey "pass phrase" (Some "Bearer pass phrase") = Throw (Error message).
Proof.
  apply (verifyAccessKey_key_with_space "pass phrase" (Some "Bearer pass phrase")).
  reflexivity.
Defined.

(** ** More properties of the rate-limit extractor *)

Lemma digits_app d s acc :
  all_digit d = true -> digits acc (d +:+ s) = digits (digits acc d) s.
Proof.
  revert acc. induction d as [|a d IH]; intros acc Hd; [done|].
  simpl in Hd. apply andb_true_iff in Hd as [Ha Hd].
  rewrite append_cons. simpl. rewrite Ha. by apply IH.
Qed.

Lemma digits_stop acc s : starts_with_digit s = false -> digits acc s = acc.
Proof. destruct s as [|a s]; [done|]. simpl. by intros ->. Qed.

Lemma all_digit_app a b : all_digit (a +:+ b) = all_digit a && all_digit b.
Proof.
  induction a as [|c a IH]; [done|]. rewrite append_cons. simpl.
  by rewrite IH, andb_assoc.
Qed.

Lemma pretty_N_char_digit d :
  (d < 10)%N ->
  is_digit (pretty_N_char d) = true
  /\ (Z.of_N (N_of_ascii (pretty_N_char d)) - 48 = Z.of_N d)%Z.
Proof.
  intros Hd.
  assert (d = 0 \/ d = 1 \/ d = 2 \/ d = 3 \/ d = 4 \/ d = 5 \/ d = 6 \/ d = 7
          \/ d = 8 \/ d = 9)%N as Hcases by lia.
  repeat (destruct Hcases as [-> | Hcases]; [by vm_compute|]). subst. by vm_compute.
Qed.

Lemma pretty_N_go_app x s : pretty_N_go x s = pretty_N_go x "" +:+ s.
Proof.
  revert s. induction (N.lt_wf_0 x) as [x _ IH]; intros s.
  assert (x = 0 \/ 0 < x)%N as [-> | Hpos] by lia.
  - by rewrite !pretty_N_go_0.
  - rewrite (pretty_N_go_step x s), (pretty_N_go_step x "") by done.
    assert (x `div` 10 < x)%N as Hlt by (by apply N.div_lt).
    rewrite (IH (x `div` 10)%N Hlt (String (pretty_N_char (x `mod` 10)) s)).
    rewrite (IH (x `div` 10)%N Hlt (String (pretty_N_char (x `mod` 10)) "")).
    by rewrite append_assoc.
Qed.

Lemma pretty_N_go_digits x :
  all_digit (pretty_N_go x "") = true
  /\ ((0 < x)%N -> digits None (pretty_N_go x "") = Some (Z.of_N x)).
Proof.
  induction (N.lt_wf_0 x) as [x _ IH].
  assert (x = 0 \/ 0 < x)%N as [-> | Hpos] by lia.
  - rewrite pretty_N_go_0. split; [done | lia].
  - rewrite pretty_N_go_step, pretty_N_go_app by done.
    destruct (IH (x `div` 10)%N) as [Hall Hval]; [by apply N.div_lt|].
    destruct (pretty_N_char_digit (x `mod` 10)%N) as [Hdig Hcode];
      [by apply N.mod_lt|].
    split.
    + rewrite all_digit_app, Hall. simpl. by rewrite Hdig.
    + intros _. rewrite digits_app by done. revert Hdig Hcode.
      pose proof (N.div_mod x 10 ltac:(done)) as Hx.
      revert Hval Hx. generalize (x `div` 10)%N (x `mod` 10)%N. intros q r Hval Hx Hdig Hcode.
      destruct (N.eq_0_gt_0_cases q) as [Hz | Hq].
      * rewrite Hz, pretty_N_go_0. simpl. rewrite Hdig. f_equal. lia.
      * rewrite (Hval Hq). simpl. rewrite Hdig. f_equal. lia.
Qed.

Lemma trimStart_app_head spaces t :
  all_space spaces = true ->
  match t with String a _ => is_space a = false | EmptyString => True end ->
  trimStart (spaces +:+ t) = t.
Proof.
  intros Ha Ht. induction spaces as [|a spaces IH].
  - destruct t as [|b t]; [done|]. change ("" +:+ String b t) with (String b t).
    simpl. by rewrite Ht.
  - simpl in Ha. apply andb_true_iff in Ha as [Hsp Ha].
    rewrite append_cons. simpl. rewrite Hsp. by apply IH.
Qed.

Lemma digit_not_space a : is_digit a = true -> is_space a = false.
Proof.
  unfold is_digit, is_space. cbv zeta. intros H.
  apply andb_true_iff in H as [H1 H2]. apply N.leb_le in H1, H2.
  repeat (apply orb_false_iff; split).
  - apply andb_false_iff. right. apply N.leb_gt. lia.
  - apply N.eqb_neq. lia.
  - apply N.eqb_neq. lia.
Qed.

Lemma pretty_pos_head p :
  exists a s, pretty_N_go (N.pos p) "" = String a s /\ is_digit a = true.
Proof.
  destruct (pretty_N_go_digits (N.pos p)) as [Hall Hval].
  specialize (Hval ltac:(lia)).
  destruct (pretty_N_go (N.pos p) "") as [|a s]; [done|].
  simpl in Hall. apply andb_true_iff in Hall as [Ha _]. by exists a, s.
Qed.

Lemma is_digit_sign a : is_digit a = true -> a <> "-"%char /\ a <> "+"%char.
Proof. intros Ha. split; intros ->; by vm_compute in Ha. Qed.

(** X11. What [parseInt(text, 10)] makes of a header text: for every
    integer [z] that a number holds exactly, the text made of white
    space, the decimal numeral of [z] and a rest that does not start
    with a digit is read as [z]. The rest, for example a unit, is
    ignored. *)
Theorem parseInt_reads_leading_integer (z : Z) spaces rest :
  (Z.abs z <= MAX_SAFE)%Z ->
  all_space spaces = true ->
  starts_with_digit rest = false ->
  parseInt_string (spaces +:+ pretty z +:+ rest) = Num z.
Proof.
  intros _ Hsp Hrest. unfold parseInt_string.
  destruct z as [|p|p]; unfold pretty, pretty_Z.
  - rewrite trimStart_app_head by done.
    change ("0" +:+ rest) with (String "0" rest).
    cbn [digits]. change (is_digit "0") with true. cbn.
    by rewrite digits_stop.
  - unfold pretty, pretty_positive, pretty, pretty_N.
    destruct (decide (N.pos p = 0%N)) as [|_]; [done|].
    destruct (pretty_pos_head p) as (a & s & Hhead & Ha).
    destruct (pretty_N_go_digits (N.pos p)) as [Hall Hval].
    specialize (Hval ltac:(lia)).
    rewrite trimStart_app_head; [|done|].
    2:{ rewrite Hhead, append_cons. by apply digit_not_space. }
    assert (digits None (pretty_N_go (N.pos p) "" +:+ rest) = Some (Z.pos p)) as Hd.
    { rewrite digits_app by done. rewrite Hval. by rewrite digits_stop. }
    rewrite Hhead, append_cons in Hd |- *.
    destruct (is_digit_sign a Ha) as [Hminus Hplus].
    destruct (Ascii.eqb_spec a "-") as [|_]; [done|].
    destruct (Ascii.eqb_spec a "+") as [|_]; [done|].
    destruct a as [[] [] [] [] [] [] [] []]; try done; by rewrite Hd.
  - unfold pretty, pretty_positive, pretty, pretty_N.
    destruct (decide (N.pos p = 0%N)) as [|_]; [done|].
    destruct (pretty_N_go_digits (N.pos p)) as [Hall Hval].
    specialize (Hval ltac:(lia)).
    rewrite trimStart_app_head; [|done|done].
    rewrite append_assoc.
    change ("-" +:+ (pretty_N_go (N.pos p) "" +:+ rest))
      with (String "-" (pretty_N_go (N.pos p) "" +:+ rest)).
    cbv beta iota.
    rewrite digits_app by done. rewrite Hval. by rewrite digits_stop.
Qed.

Lemma parseInt_reads_leading_integer_witness :
  parseInt_string (" " +:+ pretty 6%Z +:+ "m0s") = Num 6.
Proof.
  apply (parseInt_reads_leading_integer 6 " " "m0s").
  - vm_compute. discriminate.
  - reflexivity.
  - reflexivity.
Defined.

Lemma is_string_of_option o text :
  is_string (of_option o) text = true -> o = Some (JStr text).
Proof.
  destruct o as [[| | |s| |]|]; try done. cbn.
  by intros ->%String.eqb_eq.
Qed.

Lemma isRateLimitError_true v :
  isRateLimitError v = Normal true ->
  exists members error,
    v = Val (JObj members)
    /\ member "error" members = Some error
    /\ rateLimitShaped error.
Proof.
  destruct v as [|[| b | text | text | items | members]]; try done.
  unfold isRateLimitError. rewrite get_member, bind_Normal.
  destruct (member "error" members) as [error|] eqn:Hm; cbn [of_option]; [|done].
  destruct (truthy (Val error)) eqn:Ht; [|done].
  intros H. exists members, error. split; [done|]. split; [done|].
  destruct error as [| b | text | text | items | errorMembers].
  - by vm_compute in Ht.
  - by cbn in H.
  - by cbn in H.
  - cbn in H. injection H as H.
    apply orb_true_iff in H as [H | H]; [apply orb_true_iff in H as [H | H]|];
      cbn; tauto.
  - by cbn in H.
  - cbn [typeof_object] in H.
    rewrite (get_member errorMembers "type"), bind_Normal in H.
    destruct (is_string (of_option (member "type" errorMembers)) "rate_limit_exceeded")
      eqn:Htype.
    { left. by apply is_string_of_option. }
    rewrite (get_member errorMembers "code"), bind_Normal in H.
    destruct (is_string (of_option (member "code" errorMembers)) "rate_limit_exceeded")
      eqn:Hcode; [|done].
    right. by apply is_string_of_option.
Qed.

Section extractor_converse.

Variable JSON_parse : string -> option json.

(** X12. [checkRateLimit] reports a rate limit only for a body that
    parses to an object whose [error] member is an object with [type]
    or [code] equal to ["rate_limit_exceeded"], or a string that
    contains one of the three phrases. The reset time it returns is
    then [parseInt] of the header value found, and [undefined] when
    there is none. Neither a status code nor the message text of an
    error object can make it report one. *)
Theorem checkRateLimit_limited_only_if body :
  (checkRateLimit JSON_parse body).1 = true ->
  exists members error,
    JSON_parse body = Some (JObj members)
    /\ member "error" members = Some error
    /\ rateLimitShaped error
    /\ (checkRateLimit JSON_parse body).2
       = match rawResetTime members error with
         | Some raw =>
             match parseInt raw with
             | Normal n => Some n
             | Throw _ => None
             end
         | None => None
         end.
Proof.
  unfold checkRateLimit.
  destruct (JSON_parse body) as [bodyObj|]; [|done].
  destruct (isRateLimitError (Val bodyObj)) as [[]|e] eqn:Hlim.
  - apply isRateLimitError_true in Hlim as (members & error & [= ->] & Hm & Hs).
    rewrite (checkRateLimit_parsed_shaped _ _ Hm Hs).
    intros Hres. exists members, error. split; [done|]. split; [done|]. split; [done|].
    destruct (rawResetTime members error) as [raw|]; [|done].
    by destruct (parseInt raw).
  - unfold checkRateLimit_parsed. by rewrite Hlim.
  - unfold checkRateLimit_parsed. by rewrite Hlim.
Qed.

End extractor_converse.

Lemma checkRateLimit_limited_only_if_witness :
  exists members error,
    Some limited_duration = Some (JObj members)
    /\ member "error" members = Some error
    /\ rateLimitShaped error
    /\ (checkRateLimit (fun _ => Some limited_duration) "body").2
       = match rawResetTime members error with
         | Some raw =>
             match parseInt raw with
             | Normal n => Some n
             | Throw _ => None
             end
         | None => None
         end.
Proof.
  apply (checkRateLimit_limited_only_if (fun _ => Some limited_duration) "body").
  reflexivity.
Defined.

(** ** More properties of the catalog filter *)

Lemma isFreeModel_not_null model :
  model <> JNull -> exists b, isFreeModel model = Normal b.
Proof. intros Hn. rewrite isFreeModel_zeroPriced by done. by eexists. Qed.

Lemma clearData_null models : JNull ∈ models -> clearData models = Throw TypeError.
Proof.
  induction models as [|model models IH]; [by intros ?%elem_of_nil|].
  intros Hin. cbn [clearData].
  assert (model = JNull \/ model <> JNull) as [->|Hne]
    by (destruct model; (by left) || (by right)); [done|].
  destruct (isFreeModel_not_null model Hne) as [b ->]. rewrite bind_Normal.
  apply elem_of_cons in Hin as [Heq | Hin]; [congruence|].
  by rewrite (IH Hin).
Qed.

Lemma clearData_Normal models kept :
  clearData models = Normal kept ->
  (JNull ∉ models) /\ kept = List.filter zeroPriced models.
Proof.
  intros Hc. assert (JNull ∉ models) as Hn.
  { intros Hin. rewrite (clearData_null _ Hin) in Hc. done. }
  split; [done|]. rewrite (clearData_filter _ Hn) in Hc. by injection Hc.
Qed.

Lemma filter_zeroPriced_no_null models : JNull ∉ List.filter zeroPriced models.
Proof.
  induction models as [|m models IH]; [apply not_elem_of_nil|]. simpl.
  destruct (zeroPriced m) eqn:Hz; [|done].
  rewrite not_elem_of_cons. split; [|done]. intros <-. done.
Qed.

Lemma filter_filter_zeroPriced models :
  List.filter zeroPriced (List.filter zeroPriced models) = List.filter zeroPriced models.
Proof.
  induction models as [|m models IH]; [done|]. simpl.
  destruct (zeroPriced m) eqn:Hz; [|done]. simpl. by rewrite Hz, IH.
Qed.

Lemma set_member_twice name v members :
  set_member name v (set_member name v members) = set_member name v members.
Proof.
  induction members as [|[n x] members IH]; simpl.
  - by rewrite String.eqb_refl.
  - destruct (String.eqb n name) eqn:Hn; simpl; rewrite Hn; [done|]. by rewrite IH.
Qed.

Section filter_edges.

Variable JSON_parse : string -> option json.
Variable JSON_stringify : json -> string.

(** X13. A [null] entry in the model list makes [removePaidModels]
    give up: reading [model.pricing] throws, the exception is caught,
    and the body is returned unchanged, paid models included. *)
Theorem removePaidModels_null_entry free_only body members models :
  JSON_parse body = Some (JObj members) ->
  member "data" members = Some (JArr models) ->
  JNull ∈ models ->
  removePaidModels JSON_parse JSON_stringify free_only body = body.
Proof.
  intros Hp Hm Hin. unfold removePaidModels.
  destruct free_only; [|done]. cbn [negb]. rewrite Hp.
  unfold removePaidModels_parsed. rewrite get_member, Hm, bind_Normal.
  cbn [of_option]. by rewrite (clearData_null _ Hin).
Qed.

(** X14. Filtering twice is filtering once: when [JSON.parse] reads
    the filtered document back from what [JSON.stringify] printed,
    [removePaidModels] maps its own result to itself. *)
Theorem removePaidModels_idempotent free_only body :
  (forall data filtered,
     JSON_parse body = Some data ->
     removePaidModels_parsed data = Normal (Some filtered) ->
     JSON_parse (JSON_stringify filtered) = Some filtered) ->
  removePaidModels JSON_parse JSON_stringify free_only
    (removePaidModels JSON_parse JSON_stringify free_only body)
  = removePaidModels JSON_parse JSON_stringify free_only body.
Proof.
  intros Hround. unfold removePaidModels at 2 3.
  destruct free_only; [|done]. cbn [negb].
  destruct (JSON_parse body) as [data|] eqn:Hp.
  2:{ unfold removePaidModels. by rewrite Hp. }
  destruct (removePaidModels_parsed data) as [[filtered|]|e] eqn:Hf.
  2,3: unfold removePaidModels; by rewrite Hp, Hf.
  unfold removePaidModels. cbn [negb]. rewrite (Hround data filtered eq_refl Hf).
  unfold removePaidModels_parsed in Hf.
  destruct data as [| b | text | text | items | members]; try done.
  rewrite get_member, bind_Normal in Hf.
  destruct (member "data" members) as [[| | | | models |]|] eqn:Hm; try done.
  cbn [of_option] in Hf.
  destruct (clearData models) as [kept|] eqn:Hc; [|done].
  rewrite bind_Normal in Hf.
  destruct kept as [|m kept]; [done|]. injection Hf as <-.
  apply clearData_Normal in Hc as [Hn Hkept].
  unfold removePaidModels_parsed.
  rewrite get_member, member_set_member_eq, bind_Normal. cbn [of_option].
  rewrite clearData_filter by (rewrite Hkept; apply filter_zeroPriced_no_null).
  rewrite Hkept, filter_filter_zeroPriced, <- Hkept, bind_Normal.
  by rewrite set_member_twice.
Qed.

End filter_edges.

Lemma removePaidModels_null_entry_witness :
  removePaidModels (fun _ => Some (JObj [("data", JArr [free_model; JNull; paid_model])]))
    sample_stringify true "body"
  = "body".
Proof.
  apply (removePaidModels_null_entry _ sample_stringify true "body"
           [("data", JArr [free_model; JNull; paid_model])]
           [free_model; JNull; paid_model]).
  - reflexivity.
  - reflexivity.
  - apply elem_of_cons. right. apply elem_of_cons. by left.
Defined.

Lemma removePaidModels_idempotent_witness :
  removePaidModels sample_reparse sample_stringify true
    (removePaidModels sample_reparse sample_stringify true "body")
  = removePaidModels sample_reparse sample_stringify true "body".
Proof.
  apply (removePaidModels_idempotent sample_reparse sample_stringify true "body").
  intros data filtered Hp Hf. injection Hp as <-.
  vm_compute in Hf. injection Hf as <-. reflexivity.
Defined.

(** ** Properties of the headers sent upstream *)

Lemma forwardHeader_lookup headers key value key' :
  forwardHeader headers (key, value) !! key'
  = if decide (key' = key /\ forwardable key = true /\ key <> "__proto__"
               /\ is_Some (forwarded_value value))
    then forwarded_value value
    else headers !! key'.
Proof.
  unfold forwardHeader, assign.
  destruct (forwardable key) eqn:Hf.
  2:{ case_decide as H; [|done]. destruct H as (_ & ? & _). done. }
  destruct (String.eqb_spec key "__proto__") as [Hp | Hp].
  { case_decide as H; [destruct H as (_ & _ & ? & _); done|].
    by destruct value as [s|[|first l]|]. }
  destruct value as [s|[|first l]|]; cbn [forwarded_value head].
  - case_decide as H.
    + destruct H as (-> & _). by rewrite lookup_insert_eq.
    + rewrite lookup_insert_ne; [done|]. intros <-. apply H. eauto.
  - case_decide as H; [|done]. destruct H as (_ & _ & _ & []). done.
  - case_decide as H.
    + destruct H as (-> & _). by rewrite lookup_insert_eq.
    + rewrite lookup_insert_ne; [done|]. intros <-. apply H. eauto.
  - case_decide as H; [|done]. destruct H as (_ & _ & _ & []). done.
Qed.

Lemma foldl_forwardHeader_excluded entries headers key :
  forwardable key = false ->
  foldl forwardHeader headers entries !! key = headers !! key.
Proof.
  intros Hf. revert headers.
  induction entries as [|[k v] entries IH]; intros headers; [done|].
  cbn [foldl]. rewrite IH, forwardHeader_lookup.
  case_decide as H; [|done]. destruct H as (-> & ? & _). congruence.
Qed.

Lemma foldl_forwardHeader_origin entries headers key v :
  foldl forwardHeader headers entries !! key = Some v ->
  headers !! key = Some v
  \/ exists value, (key, value) ∈ entries /\ forwarded_value value = Some v
                   /\ forwardable key = true /\ key <> "__proto__".
Proof.
  revert headers. induction entries as [|[k x] entries IH]; intros headers; [by left|].
  cbn [foldl]. intros [Hl | (value & Hin & Hv)]%IH.
  - rewrite forwardHeader_lookup in Hl. case_decide as H; [|by left].
    destruct H as (-> & Hf & Hp & _). right. exists x.
    split; [apply elem_of_cons; by left | done].
  - right. exists value. split; [apply elem_of_cons; by right | done].
Qed.

Lemma foldl_forwardHeader_absent entries headers key :
  key ∉ entries.*1 ->
  foldl forwardHeader headers entries !! key = headers !! key.
Proof.
  revert headers. induction entries as [|[k x] entries IH]; intros headers; [done|].
  cbn [fmap list_fmap]. rewrite not_elem_of_cons. intros [Hne Hnot]. cbn [foldl].
  rewrite IH by done. rewrite forwardHeader_lookup.
  case_decide as H; [|done]. destruct H as [-> _]. done.
Qed.

Lemma foldl_forwardHeader_present entries headers key value :
  NoDup entries.*1 ->
  (key, value) ∈ entries ->
  forwardable key = true ->
  key <> "__proto__" ->
  headers !! key = None ->
  foldl forwardHeader headers entries !! key = forwarded_value value.
Proof.
  revert headers. induction entries as [|[k x] entries IH];
    intros headers Hnd Hin Hf Hp Hnone; [by apply elem_of_nil in Hin|].
  cbn [fmap list_fmap] in Hnd. apply NoDup_cons in Hnd as [Hk Hnd].
  cbn [foldl]. apply elem_of_cons in Hin as [[= <- <-] | Hin].
  - rewrite foldl_forwardHeader_absent by done.
    rewrite forwardHeader_lookup. case_decide as H; [done|].
    rewrite Hnone. destruct (forwarded_value value) eqn:Hv; [|done].
    exfalso. apply H. eauto.
  - apply IH; try done.
    rewrite forwardHeader_lookup. case_decide as H; [|done].
    destruct H as [-> _]. exfalso. apply Hk.
    apply list_elem_of_fmap. by exists (k, value).
Qed.

Lemma forwardable_spec key :
  forwardable key = true
  <-> toLowerCase key <> "host" /\ toLowerCase key <> "content-length"
      /\ toLowerCase key <> "connection" /\ toLowerCase key <> "authorization".
Proof.
  unfold forwardable. cbv zeta. rewrite !andb_true_iff, !negb_true_iff.
  rewrite !String.eqb_neq. tauto.
Qed.

(** X15. [prepareForwardHeaders] never forwards a header whose name
    is, in any letter case, [host], [content-length], [connection] or
    [authorization]. Every header it forwards comes from the request,
    with its string value or the first string of its list. And when
    the names of the request are distinct, every header whose name is
    none of those four, except under the name [__proto__], is
    forwarded so; one without a value is not forwarded. *)
Theorem prepareForwardHeaders_forwards entries :
  (forall key,
     toLowerCase key = "host" \/ toLowerCase key = "content-length"
     \/ toLowerCase key = "connection" \/ toLowerCase key = "authorization" ->
     prepareForwardHeaders entries !! key = None)
  /\ (forall key v,
        prepareForwardHeaders entries !! key = Some v ->
        exists value, (key, value) ∈ entries /\ forwarded_value value = Some v)
  /\ (NoDup entries.*1 ->
      forall key value,
        (key, value) ∈ entries ->
        toLowerCase key <> "host" ->
        toLowerCase key <> "content-length" ->
        toLowerCase key <> "connection" ->
        toLowerCase key <> "authorization" ->
        key <> "__proto__" ->
        prepareForwardHeaders entries !! key = forwarded_value value).
Proof.
  unfold prepareForwardHeaders. split; [|split].
  - intros key Hkey. rewrite foldl_forwardHeader_excluded; [done|].
    apply not_true_is_false. rewrite forwardable_spec. tauto.
  - intros key v [Hl | (value & ? & ? & _)]%foldl_forwardHeader_origin; [done|].
    by exists value.
  - intros Hnd key value Hin H1 H2 H3 H4 Hp.
    apply foldl_forwardHeader_present; try done. by apply forwardable_spec.
Qed.

Lemma forwardable_authorization key :
  toLowerCase key = "authorization" -> forwardable key = false.
Proof. unfold forwardable. cbv zeta. intros ->. reflexivity. Qed.

(** X16. The credential of the client never goes upstream. Among the
    names that are [authorization] in some letter case, the headers of
    the upstream request hold only [Authorization], with the key of
    the pool, and none at all when the request was made without a key
    (a public endpoint). *)
Theorem forwardHeaders_authorization entries apiKey key :
  toLowerCase key = "authorization" ->
  forwardHeaders entries apiKey !! key
  = if String.eqb key "Authorization" && negb (String.eqb apiKey "")
    then Some ("Bearer " +:+ apiKey)
    else None.
Proof.
  intros Hkey. unfold forwardHeaders. cbv zeta.
  pose proof (forwardable_authorization key Hkey) as Hf.
  assert (prepareForwardHeaders entries !! key = None) as Hnone
    by (unfold prepareForwardHeaders; by rewrite foldl_forwardHeader_excluded).
  destruct (String.eqb apiKey ""); cbn [negb].
  - by rewrite andb_false_r.
  - rewrite andb_true_r. destruct (String.eqb_spec key "Authorization") as [->|Hne].
    + by rewrite lookup_insert_eq.
    + by rewrite lookup_insert_ne.
Qed.

Lemma forwardHeaders_authorization_witness :
  forwardHeaders [("authorization", HString "Bearer client-secret");
                  ("accept", HString "text/event-stream")] "sk-pool"
    !! "authorization" = None.
Proof.
  apply (forwardHeaders_authorization
           [("authorization", HString "Bearer client-secret");
            ("accept", HString "text/event-stream")] "sk-pool" "authorization").
  reflexivity.
Defined.

(** ** Properties of the replies of the upstream *)

Section feedback.

Variable JSON_parse : string -> option json.

Lemma checkRateLimit_not_shaped body :
  (forall members error,
     JSON_parse body = Some (JObj members) ->
     member "error" members = Some error ->
     ~ rateLimitShaped error) ->
  checkRateLimit JSON_parse body = (false, None).
Proof.
  intros Hnot. unfold checkRateLimit.
  destruct (JSON_parse body) as [bodyObj|]; [|done].
  unfold checkRateLimit_parsed.
  destruct (isRateLimitError (Val bodyObj)) as [[]|e] eqn:Hlim; [|done..].
  apply isRateLimitError_true in Hlim as (members & error & [= ->] & Hm & Hs).
  by destruct (Hnot members error eq_refl Hm).
Qed.

(** X17. The feedback loop of the buffered path. When the upstream
    answers a request made with a key of the pool with a status of 400
    or more and a body of rate-limit shape whose reset header is the
    text of an instant [T] ahead, the reply goes to the client
    unchanged, [disableKey] is called once with that key and [T], and
    the key is held until [T]: whatever is then done to the pool short
    of penalizing that key again, attempts of [getNextKey] and
    penalties of other keys, no attempt made before [T] returns it. *)
Theorem rate_limit_reply_holds_key
    tz apiKey upstream_status body now km members error text T :
  cursor_ok km ->
  apiKey <> "" ->
  (400 <= upstream_status)%Z ->
  JSON_parse body = Some (JObj members) ->
  member "error" members = Some error ->
  rateLimitShaped error ->
  rawResetTime members error = Some (JStr text) ->
  parseInt_string text = Num T ->
  (0 <= now < T)%Z ->
  (T <= Date.MAX_TIME)%Z ->
  let '(reply, km', pool_calls) :=
    proxyBuffered JSON_parse apiKey upstream_status body now km in
  reply = (upstream_status, body)
  /\ pool_calls = [CallDisableKey apiKey (Some (Num T))]
  /\ disabledUntil km' !! apiKey = Some (Date.Time T)
  /\ forall ops,
       Forall (fun op => ~ penalizes apiKey op) ops ->
       Forall (made_before T) ops ->
       Returned apiKey ∉ pool_results tz ops km'.
Proof.
  intros Hc Hkey Hstatus Hp Hm Hs Hraw Hint Hnow Hmax.
  assert (checkRateLimit JSON_parse body = (true, Some (Num T))) as Hlimited.
  { unfold checkRateLimit.
    rewrite Hp, (checkRateLimit_parsed_shaped _ _ Hm Hs), Hraw.
    unfold parseInt. cbn [ToString]. by rewrite bind_Normal, bind_Normal, Hint. }
  unfold proxyBuffered. rewrite Hlimited.
  destruct (Z.leb_spec 400 upstream_status); [|lia].
  destruct (String.eqb_spec apiKey "") as [|_]; [done|]. cbn [andb negb].
  assert (disabledUntil (disableKey apiKey (Some (Num T)) now km).2 !! apiKey
          = Some (Date.Time T)) as Hentry.
  { rewrite disableKey_state. cbn [disabledUntil set_lockPromise set_disabledUntil].
    rewrite lookup_insert_eq. f_equal.
    unfold resolveDisabledUntil, number_truthy.
    destruct (Z.eqb_spec T 0); [lia|]. cbn [negb].
    unfold resetDatetime. destruct (Z.ltb_spec now T); [|lia].
    unfold Date.make. destruct (Z.leb_spec (Z.abs T) Date.MAX_TIME); [|lia].
    unfold Date.gtb, Date.ltb. by destruct (Z.ltb_spec now T); [|lia]. }
  split; [done|]. split; [done|]. split; [done|].
  assert (cursor_ok (disableKey apiKey (Some (Num T)) now km).2) as Hc' by done.
  intros ops Hpen Hbef.
  apply (pool_run_holds_key tz ops _ apiKey (Date.Time T) T); try done.
  intros t Ht. unfold Date.geb. apply Z.leb_gt. lia.
Qed.

(** X18. The status of the reply decides nothing. Whatever the
    status, 429 included, a reply whose body is not an object with an
    [error] member of rate-limit shape is sent to the client unchanged
    and leaves the pool untouched: the key is not penalized. *)
Theorem unrecognized_reply_keeps_pool apiKey upstream_status body now km :
  (forall members error,
     JSON_parse body = Some (JObj members) ->
     member "error" members = Some error ->
     ~ rateLimitShaped error) ->
  proxyBuffered JSON_parse apiKey upstream_status body now km
  = ((upstream_status, body), km, []).
Proof.
  intros Hnot. unfold proxyBuffered.
  rewrite (checkRateLimit_not_shaped body Hnot). by destruct (400 <=? upstream_status)%Z.
Qed.

End feedback.

Lemma rate_limit_reply_holds_key_witness :
  let '(reply, km', pool_calls) :=
    proxyBuffered (fun _ => Some limited_until) "a" 429 "body" 1700000000000 pool2 in
  reply = (429%Z, "body")
  /\ pool_calls = [CallDisableKey "a" (Some (Num 1700000030000))]
  /\ disabledUntil km' !! "a" = Some (Date.Time 1700000030000)
  /\ (Returned "a" ∉ pool_results zone_UTC
                       [Acquire 0 1700000010000; Penalize "c" None 1700000011000;
                        Acquire 0 1700000020000] km').
Proof.
  pose proof (rate_limit_reply_holds_key (fun _ => Some limited_until) zone_UTC "a" 429
           "body" 1700000000000 pool2
           [("error", JObj [("code", JStr "rate_limit_exceeded")]);
            ("headers", JObj [("x-ratelimit-reset", JStr "1700000030000")])]
           (JObj [("code", JStr "rate_limit_exceeded")])
           "1700000030000" 1700000030000) as H.
  destruct (proxyBuffered (fun _ => Some limited_until) "a" 429 "body" 1700000000000 pool2)
    as [[reply km'] pool_calls].
  destruct H as (Hreply & Hcalls & Hentry & Hheld).
  - unfold cursor_ok. simpl. lia.
  - discriminate.
  - lia.
  - reflexivity.
  - reflexivity.
  - right. reflexivity.
  - reflexivity.
  - vm_compute. reflexivity.
  - lia.
  - unfold Date.MAX_TIME. lia.
  - split; [done|]. split; [done|]. split; [done|]. apply Hheld.
    + repeat (apply Forall_cons; split); try apply Forall_nil; simpl;
        try tauto; discriminate.
    + repeat (apply Forall_cons; split); try apply Forall_nil; simpl;
        try tauto; lia.
Defined.

Lemma unrecognized_reply_keeps_pool_witness :
  proxyBuffered (fun _ => Some limited_by_status) "k" 429 "body" 1700000000000 pool1
  = ((429%Z, "body"), pool1, []).
Proof.
  apply (unrecognized_reply_keeps_pool (fun _ => Some limited_by_status)
           "k" 429 "body" 1700000000000 pool1).
  intros members error [= <-] [= <-]. intros [H | H]; discriminate H.
Defined.

(** X19. On the completions path an API error penalizes the key only
    through a nested [error] member. What is given to
    [checkRateLimit] is [error.error], or the message; when that value
    has no [error] member of its own (a message, or an error object
    with only [type], [code] and [message]), the pool is left
    untouched and the error is passed on to the client, even for an
    error object of type ["rate_limit_exceeded"]. *)
Theorem onAPIError_needs_nested_error JSON_parse JSON_stringify
    apiKey error_status error_error error_message now km :
  let payload := apiErrorPayload error_error error_message in
  JSON_parse (JSON_stringify payload) = Some payload ->
  noErrorField payload ->
  onAPIError JSON_parse JSON_stringify apiKey error_status error_error error_message now km
  = (Normal (apiErrorReply error_status error_error error_message), km, []).
Proof.
  intros payload Hround Hno. unfold onAPIError. fold payload.
  unfold checkRateLimit. rewrite Hround.
  by destruct (checkRateLimit_parsed_no_error payload Hno) as [-> | ->].
Qed.

Lemma onAPIError_needs_nested_error_witness :
  onAPIError (fun _ => Some inner_error) (fun _ => "body") "k"
    (Some 429%Z) (Val inner_error) "429 slow down" 0 pool1
  = (Normal (429%Z, inner_error), pool1, []).
Proof.
  apply (onAPIError_needs_nested_error (fun _ => Some inner_error) (fun _ => "body")
           "k" (Some 429%Z) (Val inner_error) "429 slow down" 0 pool1).
  - reflexivity.
  - reflexivity.
Defined.

(** ** More properties of the request handler *)

Lemma startsWith_app s t p : startsWith s p = true -> startsWith (s +:+ t) p = true.
Proof.
  revert s. induction p as [|a p IH]; intros s; [done|].
  destruct s as [|b s]; [done|]. rewrite append_cons. simpl.
  intros [-> Hs]%andb_true_iff. by rewrite IH.
Qed.

Lemma startsWith_trans s p q :
  startsWith s p = true -> startsWith p q = true -> startsWith s q = true.
Proof.
  revert s p. induction q as [|c q IH]; intros s p; [done|].
  destruct p as [|a p]; [done|]. destruct s as [|b s]; [done|]. simpl.
  intros [Hab Hs]%andb_true_iff [Hca Hp]%andb_true_iff.
  apply Ascii.eqb_eq in Hab, Hca. subst. rewrite Ascii.eqb_refl. simpl.
  by apply (IH s p).
Qed.

Lemma isPublic_app cfg req suffix auth :
  isPublic cfg req = true ->
  isPublic cfg (mkRequest (path req +:+ suffix) auth) = true.
Proof.
  unfold isPublic. rewrite !existsb_exists. intros (ep & Hin & Hs).
  exists ep. split; [done|]. cbn [path].
  rewrite <- append_assoc. by apply startsWith_app.
Qed.

(** X20. Public endpoints are matched as prefixes: when a path is
    public, every path that extends it is public too, and a request
    for it passes without any access check, takes no key from the
    pool, and is forwarded with the empty key, whatever its
    authorization header. *)
Theorem public_prefix_skips_access_check tz w forward fuel cfg req suffix auth now km :
  isPublic cfg req = true ->
  let req' := mkRequest (path req +:+ suffix) auth in
  isPublic cfg req' = true
  /\ authorize cfg req' = None
  /\ handler tz w forward fuel cfg req' now km = Some (forward req' "" now km).
Proof.
  intros Hpub req'. pose proof (isPublic_app cfg req suffix auth Hpub) as Hpub'.
  fold req' in Hpub'. split; [done|].
  assert (authorize cfg req' = None) as Ha by (unfold authorize; by rewrite Hpub').
  split; [done|]. unfold handler. by rewrite Ha, Hpub'.
Qed.

Lemma public_prefix_skips_access_check_witness :
  handler zone_UTC quiet_world (fun _ key _ km => (mkResponse 200 key, km, []))
    0 (mkConfig "secret" ["/api/v1/models"])
    (mkRequest ("models" +:+ "/../chat/completions") None) 0 pool2
  = Some (mkResponse 200 "", pool2, []).
Proof.
  apply (public_prefix_skips_access_check zone_UTC quiet_world
           (fun _ key _ km => (mkResponse 200 key, km, []))
           0 (mkConfig "secret" ["/api/v1/models"])
           (mkRequest "models" (Some "x")) "/../chat/completions" None 0 pool2).
  reflexivity.
Defined.

(** X21. The choice of the upstream call. [proxyWithHTTP] is never
    called with [isCompletion] set: the completion endpoints are the
    OpenAI endpoints, which go to [handleCompletions]. That function is
    called only for a path that starts with [chat/completions] or
    [completions], and [handleModelsEndpoint] only with [free_only]
    set and for a path that starts with [models]. *)
Theorem proxyWithHTTP_never_completion free_only path isStream :
  match dispatch free_only path isStream with
  | ProxyWithHTTP _ isCompletion => isCompletion = false
  | HandleCompletions _ =>
      startsWith path "chat/completions" = true \/ startsWith path "completions" = true
  | HandleModelsEndpoint => free_only = true /\ startsWith path "models" = true
  end.
Proof.
  unfold dispatch. cbv zeta.
  change COMPLETION_ENDPOINTS with OPENAI_ENDPOINTS.
  destruct (someStartsWith OPENAI_ENDPOINTS path) eqn:Hopen.
  - unfold someStartsWith, OPENAI_ENDPOINTS in Hopen. cbn [existsb] in Hopen.
    rewrite orb_false_r in Hopen.
    apply orb_true_iff in Hopen as [H | H]; [left | right]; exact H.
  - destruct (someStartsWith MODELS_ENDPOINTS path) eqn:Hmodels; cbn [andb]; [|done].
    destruct free_only; [|done]. split; [done|].
    unfold someStartsWith, MODELS_ENDPOINTS in Hmodels. cbn [existsb] in Hmodels.
    rewrite orb_false_r in Hmodels. exact Hmodels.
Qed.

(** *** The configuration *)

Lemma normalizePublicEndpoints_elem items ep :
  ep ∈ normalizePublicEndpoints (Val (JArr items))
  <-> exists s, JStr s ∈ items /\ s <> ""
        /\ ep = if startsWith s "/" then s else "/" +:+ s.
Proof.
  cbn [normalizePublicEndpoints]. rewrite list_elem_of_omap. split.
  - intros (item & Hin & Hsome).
    destruct item as [| | |s| |]; try done.
    destruct (String.eqb_spec s "") as [|Hne]; [done|].
    exists s. split; [done|]. split; [done|].
    destruct (startsWith s "/"); by injection Hsome.
  - intros (s & Hin & Hne & ->). exists (JStr s). split; [done|].
    destruct (String.eqb_spec s "") as [|_]; [done|].
    by destruct (startsWith s "/").
Qed.

(** X22. Every public endpoint of the normalized configuration starts
    with a slash, and normalizing the normalized list changes
    nothing. *)
Theorem normalizePublicEndpoints_leading_slash configured :
  Forall (fun ep => startsWith ep "/" = true) (normalizePublicEndpoints configured)
  /\ normalizePublicEndpoints (Val (JArr (JStr <$> normalizePublicEndpoints configured)))
     = normalizePublicEndpoints configured.
Proof.
  assert (forall items,
    Forall (fun ep => startsWith ep "/" = true) (normalizePublicEndpoints (Val (JArr items))))
    as Hslash.
  { intros items. apply Forall_forall. intros ep (s & _ & _ & ->)%normalizePublicEndpoints_elem.
    by destruct (startsWith s "/") eqn:Hs. }
  assert (forall l, Forall (fun ep => startsWith ep "/" = true) l ->
            normalizePublicEndpoints (Val (JArr (JStr <$> l))) = l) as Hfix.
  { intros l Hl. cbn [normalizePublicEndpoints].
    induction Hl as [|ep l Hep _ IH]; [done|]. cbn [fmap list_fmap omap list_omap].
    destruct (String.eqb_spec ep "") as [->|_]; [done|]. rewrite Hep.
    cbn [fmap list_fmap] in IH. by rewrite IH. }
  assert (Forall (fun ep => startsWith ep "/" = true) (normalizePublicEndpoints configured))
    as Hall.
  { destruct configured as [|[| | | | items |]]; try apply Hslash;
      by repeat constructor. }
  split; [done|]. by apply Hfix.
Qed.

(** X23. A short public endpoint opens the proxy. When the configured
    list holds a non-empty string that, with its leading slash, is a
    prefix of [/api/v1/], such as [/] or [api], every request is
    public, whatever the access key. *)
Theorem short_public_endpoint_opens_everything items s access_key req :
  JStr s ∈ items ->
  s <> "" ->
  startsWith "/api/v1/" (if startsWith s "/" then s else "/" +:+ s) = true ->
  isPublic (mkConfig access_key (normalizePublicEndpoints (Val (JArr items)))) req = true.
Proof.
  intros Hin Hne Hshort. unfold isPublic. rewrite existsb_exists.
  exists (if startsWith s "/" then s else "/" +:+ s). split.
  - apply list_elem_of_In. apply normalizePublicEndpoints_elem. by exists s.
  - cbn [public_endpoints]. apply (startsWith_trans _ "/api/v1/"); [|done].
    apply (startsWith_app "/api/v1/"). reflexivity.
Qed.

Lemma short_public_endpoint_opens_everything_witness :
  isPublic (mkConfig "secret" (normalizePublicEndpoints (Val (JArr [JNum "1"; JStr "api"]))))
    (mkRequest "chat/completions" None)
  = true.
Proof.
  apply (short_public_endpoint_opens_everything [JNum "1"; JStr "api"] "api").
  - apply elem_of_cons. right. apply elem_of_cons. by left.
  - discriminate.
  - reflexivity.
Defined.

Lemma stripTrailingSlashes_split s :
  endsWithSlash (stripTrailingSlashes s) = false
  /\ exists n, s = stripTrailingSlashes s +:+ slashes n.
Proof.
  induction s as [|a s [Hend [n Hs]]]; [split; [done | by exists 0]|].
  cbn [stripTrailingSlashes].
  destruct (stripTrailingSlashes s) as [|b r] eqn:Hr.
  - destruct (Ascii.eqb_spec a "/") as [->|Hne].
    + split; [done|]. exists (S n). by rewrite Hs.
    + split; [cbn; by apply Ascii.eqb_neq|]. exists n. by rewrite Hs.
  - split; [done|]. exists n. by rewrite Hs at 1.
Qed.

Lemma stripTrailingSlashes_fixed r :
  endsWithSlash r = false -> stripTrailingSlashes r = r.
Proof.
  induction r as [|a r IH]; [done|]. intros Hend. cbn [stripTrailingSlashes].
  destruct r as [|b r].
  - cbn in Hend |- *. by rewrite Hend.
  - rewrite IH by done. done.
Qed.

(** X24. The normalized base URL never ends with a slash, and
    stripping it again changes nothing. It is the configured string
    without the run of slashes at its end, and the default URL when
    the configured value is not a string. *)
Theorem normalizeBaseUrl_no_trailing_slash configured :
  endsWithSlash (normalizeBaseUrl configured) = false
  /\ stripTrailingSlashes (normalizeBaseUrl configured) = normalizeBaseUrl configured
  /\ (forall base_url, configured = Val (JStr base_url) ->
        exists n, base_url = normalizeBaseUrl configured +:+ slashes n)
  /\ ((forall base_url, configured <> Val (JStr base_url)) ->
        normalizeBaseUrl configured = "https://openrouter.ai/api/v1").
Proof.
  unfold normalizeBaseUrl.
  split; [apply stripTrailingSlashes_split|].
  split; [apply stripTrailingSlashes_fixed, stripTrailingSlashes_split|].
  split.
  - intros base_url ->. apply stripTrailingSlashes_split.
  - intros Hnot. destruct configured as [|[| | |base_url| |]]; try done.
    by destruct (Hnot base_url).
Qed.

(** *** The key handed to the upstream exchange *)

Lemma getNextKey_key_of_pool tz w fuel cooldown now km key t km' :
  (forall a b km0, cursor_ok km0 ->
     cursor_ok (meanwhile w a b km0) /\ keys (meanwhile w a b km0) = keys km0) ->
  cursor_ok km ->
  getNextKey tz w fuel cooldown now km = Some (key, t, km') ->
  key ∈ keys km.
Proof.
  intros Hw. revert now km. induction fuel as [|fuel IH]; intros now km Hc Hget;
    cbn [getNextKey] in Hget;
    destruct (attempt_cases tz cooldown now km Hc) as [[_ Ha] | (j & Hj & _ & _ & Ha)];
    rewrite Ha in Hget; try done;
    try (simplify_eq; by apply candidate_elem_of).
  destruct (Hw now (fires w now (Z.max 0 (soonestAvailable (disabledUntil km) - now)))
              (set_lockPromise false km) Hc) as [Hc' Hk'].
  apply IH in Hget; [|done]. by rewrite Hk' in Hget.
Qed.

(** X25. When no key of the pool is the empty string, and the other
    requests leave the key list and the cursor alone, the handler
    never answers that no key is available: a request for an endpoint
    that is not public is answered 401, or is forwarded with a key of
    the pool obtained by one call of [getNextKey]. *)
Theorem handler_forwards_pool_key tz w forward fuel cfg req now km result :
  (forall a b km0, cursor_ok km0 ->
     cursor_ok (meanwhile w a b km0) /\ keys (meanwhile w a b km0) = keys km0) ->
  cursor_ok km ->
  "" ∉ keys km ->
  isPublic cfg req = false ->
  handler tz w forward fuel cfg req now km = Some result ->
  (exists message, result = (mkResponse 401 message, km, []))
  \/ (exists apiKey woken km',
        apiKey ∈ keys km
        /\ getNextKey tz w fuel 0 now km = Some (apiKey, woken, km')
        /\ result = (let '(response, km'', calls) := forward req apiKey woken km' in
                     (response, km'', CallGetNextKey :: calls))).
Proof.
  intros Hw Hc Hempty Hpub. unfold handler.
  destruct (authorize cfg req) as [unauthorized|] eqn:Hauth.
  - intros [= <-]. left. unfold authorize in Hauth. rewrite Hpub in Hauth.
    cbn [negb] in Hauth.
    destruct (verifyAccessKey (access_key cfg) (authorization req)) as [|e]; [done|].
    injection Hauth as <-. by eexists.
  - rewrite Hpub.
    destruct (getNextKey tz w fuel 0 now km) as [[[apiKey woken] km']|] eqn:Hget; [|done].
    pose proof (getNextKey_key_of_pool tz _ _ _ _ _ _ _ _ Hw Hc Hget) as Hin.
    destruct (String.eqb_spec apiKey "") as [->|_]; [done|].
    intros Hres. right. exists apiKey, woken, km'.
    split; [done|]. split; [done|].
    destruct (forward req apiKey woken km') as [[response km''] calls].
    by injection Hres.
Qed.

Lemma handler_forwards_pool_key_witness :
  exists apiKey woken km',
    apiKey ∈ keys pool2
    /\ getNextKey zone_UTC quiet_world 0 0 0 pool2 = Some (apiKey, woken, km').
Proof.
  destruct (handler_forwards_pool_key zone_UTC quiet_world
              (fun _ key _ km => (mkResponse 200 key, km, []))
              0 (mkConfig "secret" ["/api/v1/models"])
              (mkRequest "chat/completions" (Some "Bearer secret")) 0 pool2
              (mkResponse 200 "a", (attempt zone_UTC 0 0 pool2).2, [CallGetNextKey]))
    as [[message Hm] | (apiKey & woken & km' & Hin & Hget & _)].
  - intros a b km0 Hc. split; [exact Hc | reflexivity].
  - unfold cursor_ok. simpl. lia.
  - intros Hin. apply elem_of_cons in Hin as [Hin | Hin]; [discriminate Hin|].
    apply elem_of_cons in Hin as [Hin | Hin]; [discriminate Hin|].
    by apply elem_of_nil in Hin.
  - reflexivity.
  - vm_compute. reflexivity.
  - discriminate Hm.
  - exists apiKey, woken, km'. split; [exact Hin | exact Hget].
Defined.

(** *** The arguments of the completions call *)

Lemma member_delete_member name d members :
  member name (delete_member d members)
  = if String.eqb d name then None else member name members.
Proof.
  unfold delete_member. induction members as [|[n v] members IH]; simpl.
  - by destruct (String.eqb d name).
  - destruct (String.eqb_spec n d) as [->|Hnd]; simpl.
    + rewrite IH. destruct (String.eqb_spec d name) as [->|Hne]; [done|]. done.
    + rewrite IH. destruct (String.eqb_spec n name) as [->|Hnn].
      * by destruct (String.eqb_spec d name) as [->|].
      * done.
Qed.

Lemma member_snoc name members p v :
  member name (members ++ [(p, v)])
  = match member name members with
    | Some x => Some x
    | None => if String.eqb p name then Some v else None
    end.
Proof.
  induction members as [|[n x] members IH]; simpl; [done|].
  by destruct (String.eqb n name).
Qed.

Lemma foldl_moveParam params args extra name :
  (member name (foldl moveParam (args, extra) params).1
   = if bool_decide (name ∈ params) then None else member name args)
  /\ (NoDup params ->
      (forall p, p ∈ params -> member p extra = None) ->
      member name (foldl moveParam (args, extra) params).2
      = if bool_decide (name ∈ params) then member name args else member name extra).
Proof.
  revert args extra. induction params as [|p params IH]; intros args extra.
  - split; [done|]. intros _ _. by rewrite bool_decide_eq_false_2 by apply not_elem_of_nil.
  - cbn [foldl]. unfold moveParam at 2 4. cbn [fst snd].
    destruct (member p args) as [v|] eqn:Hp.
    + destruct (IH (delete_member p args) (extra ++ [(p, v)])) as [IH1 IH2]. split.
      * rewrite IH1, member_delete_member.
        destruct (decide (name ∈ params)) as [Hin|Hnin].
        -- rewrite !bool_decide_eq_true_2; [done | | done].
           apply elem_of_cons. by right.
        -- rewrite (bool_decide_eq_false_2 _ Hnin).
           destruct (String.eqb_spec p name) as [->|Hne].
           ++ rewrite bool_decide_eq_true_2; [done|]. apply elem_of_cons. by left.
           ++ rewrite bool_decide_eq_false_2; [done|].
              rewrite not_elem_of_cons. split; [congruence | done].
      * intros Hnd Hextra. apply NoDup_cons in Hnd as [Hpn Hnd].
        rewrite IH2; [|done|].
        2:{ intros q Hq. rewrite member_snoc, Hextra by (apply elem_of_cons; by right).
            destruct (String.eqb_spec p q) as [->|]; [done|]. done. }
        rewrite member_delete_member, member_snoc.
        destruct (decide (name ∈ params)) as [Hin|Hnin].
        -- rewrite !bool_decide_eq_true_2; [| apply elem_of_cons; by right | done].
           destruct (String.eqb_spec p name) as [->|]; [done|]. done.
        -- rewrite (bool_decide_eq_false_2 _ Hnin).
           destruct (String.eqb_spec p name) as [->|Hne].
           ++ rewrite bool_decide_eq_true_2 by (apply elem_of_cons; by left).
              rewrite Hextra by (apply elem_of_cons; by left). done.
           ++ rewrite bool_decide_eq_false_2
                by (rewrite not_elem_of_cons; split; [congruence | done]).
              by destruct (member name extra).
    + destruct (IH args extra) as [IH1 IH2]. split.
      * rewrite IH1.
        destruct (decide (name ∈ params)) as [Hin|Hnin].
        -- rewrite !bool_decide_eq_true_2; [done | | done].
           apply elem_of_cons. by right.
        -- rewrite (bool_decide_eq_false_2 _ Hnin).
           destruct (String.eqb_spec p name) as [->|Hne].
           ++ rewrite bool_decide_eq_true_2; [done|]. apply elem_of_cons. by left.
           ++ rewrite bool_decide_eq_false_2; [done|].
              rewrite not_elem_of_cons. split; [congruence | done].
      * intros Hnd Hextra. apply NoDup_cons in Hnd as [Hpn Hnd].
        rewrite IH2; [|done|].
        2:{ intros q Hq. apply Hextra. apply elem_of_cons. by right. }
        destruct (decide (name ∈ params)) as [Hin|Hnin].
        -- rewrite !bool_decide_eq_true_2; [done | apply elem_of_cons; by right | done].
        -- rewrite (bool_decide_eq_false_2 _ Hnin).
           destruct (String.eqb_spec p name) as [->|Hne].
           ++ rewrite bool_decide_eq_true_2 by (apply elem_of_cons; by left).
              rewrite Hextra by (apply elem_of_cons; by left). done.
           ++ rewrite bool_decide_eq_false_2
                by (rewrite not_elem_of_cons; split; [congruence | done]).
              done.
Qed.

Lemma field_set_field_eq name v fields : field name (set_field name v fields) = Some v.
Proof.
  induction fields as [|[n x] fields IH]; simpl.
  - by rewrite String.eqb_refl.
  - destruct (String.eqb n name) eqn:Hn; simpl; by rewrite Hn.
Qed.

Lemma field_set_field_ne name name' v fields :
  name <> name' -> field name' (set_field name v fields) = field name' fields.
Proof.
  intros Hne. induction fields as [|[n x] fields IH]; simpl.
  - by destruct (String.eqb_spec name name').
  - destruct (String.eqb_spec n name) as [->|]; simpl.
    + by destruct (String.eqb_spec name name').
    + by rewrite IH.
Qed.

Lemma field_fmap name members :
  field name ((fun m : string * json => (m.1, Val m.2)) <$> members)
  = Val <$> member name members.
Proof.
  induction members as [|[n x] members IH]; simpl; [done|].
  by destruct (String.eqb n name).
Qed.

(** X26. The argument of the completions call. Its [stream] member is
    the flag of the handler, whatever the body said. None of
    [include_reasoning], [transforms], [route] and [provider] is a
    member of it: those of the body are the members of [extra_body],
    and no other. An [extra_body] sent by the client is replaced, by
    [undefined] when the body has none of the four. Every other member
    of the body is passed with its value. *)
Theorem createArgs_members requestBody isStream :
  let args := createArgs requestBody isStream in
  let own := delete_member "stream" (spread requestBody) in
  let moved := ["include_reasoning"; "transforms"; "route"; "provider"] in
  field "stream" args = Some (Val (JBool isStream))
  /\ field "include_reasoning" args = None
  /\ field "transforms" args = None
  /\ field "route" args = None
  /\ field "provider" args = None
  /\ (exists extraBody,
        field "extra_body" args
        = Some (match extraBody with [] => Undefined | _ => Val (JObj extraBody) end)
        /\ (extraBody = [] <->
            member "include_reasoning" own = None /\ member "transforms" own = None
            /\ member "route" own = None /\ member "provider" own = None)
        /\ forall name,
             member name extraBody
             = if bool_decide (name ∈ moved) then member name own else None)
  /\ (forall name,
        name <> "stream" -> name <> "extra_body" -> name ∉ moved ->
        field name args = Val <$> member name (spread requestBody)).
Proof.
  intros args own moved. subst args. unfold createArgs, splitArgs. fold own.
  change moved with unsupportedParams. clear moved.
  pose proof (fun name => proj1 (foldl_moveParam unsupportedParams own [] name)) as Hargs.
  assert (NoDup unsupportedParams) as Hnd.
  { unfold unsupportedParams. repeat (apply NoDup_cons; split);
      rewrite ?not_elem_of_cons, ?elem_of_nil; try apply NoDup_nil_2;
      repeat split; try discriminate; tauto. }
  pose proof (fun name => proj2 (foldl_moveParam unsupportedParams own [] name)
                            Hnd (fun _ _ => eq_refl)) as Hextra.
  destruct (foldl moveParam (own, []) unsupportedParams) as [completionArgs extraBody].
  cbn [fst snd] in Hargs, Hextra.
  assert (forall param, param ∈ unsupportedParams ->
            field param
              (set_field "extra_body"
                 match extraBody with [] => Undefined | _ => Val (JObj extraBody) end
                 (set_field "stream" (Val (JBool isStream))
                    ((fun m : string * json => (m.1, Val m.2)) <$> completionArgs)))
            = None) as Hmoved.
  { intros param Hin.
    rewrite !field_set_field_ne, field_fmap, Hargs.
    + by rewrite bool_decide_eq_true_2.
    + intros <-. unfold unsupportedParams in Hin.
      rewrite !elem_of_cons, elem_of_nil in Hin.
      destruct Hin as [H | [H | [H | [H | []]]]]; discriminate H.
    + intros <-. unfold unsupportedParams in Hin.
      rewrite !elem_of_cons, elem_of_nil in Hin.
      destruct Hin as [H | [H | [H | [H | []]]]]; discriminate H. }
  assert ((forall param, param ∈ unsupportedParams -> member param own = None)
          <-> member "include_reasoning" own = None /\ member "transforms" own = None
              /\ member "route" own = None /\ member "provider" own = None) as Hfour.
  { unfold unsupportedParams. split.
    - intros H. repeat split; apply H; rewrite !elem_of_cons; tauto.
    - intros (? & ? & ? & ?) param. rewrite !elem_of_cons, elem_of_nil.
      intros [-> | [-> | [-> | [-> | []]]]]; done. }
  split; [rewrite field_set_field_ne by discriminate; apply field_set_field_eq|].
  split; [apply Hmoved; unfold unsupportedParams; rewrite !elem_of_cons; tauto|].
  split; [apply Hmoved; unfold unsupportedParams; rewrite !elem_of_cons; tauto|].
  split; [apply Hmoved; unfold unsupportedParams; rewrite !elem_of_cons; tauto|].
  split; [apply Hmoved; unfold unsupportedParams; rewrite !elem_of_cons; tauto|].
  split.
  - exists extraBody. split; [apply field_set_field_eq|].
    split; [|intros name; apply Hextra]. rewrite <- Hfour. split.
    + intros -> param Hin. specialize (Hextra param).
      rewrite bool_decide_eq_true_2 in Hextra by done. done.
    + intros Hnone. destruct extraBody as [|[n v] rest]; [done|].
      specialize (Hextra n). cbn [member] in Hextra.
      rewrite String.eqb_refl in Hextra.
      destruct (decide (n ∈ unsupportedParams)) as [Hin|Hnin].
      * rewrite bool_decide_eq_true_2, (Hnone n Hin) in Hextra by done. done.
      * rewrite bool_decide_eq_false_2 in Hextra by done. done.
  - intros name Hs He Hn.
    rewrite !field_set_field_ne, field_fmap, Hargs by done.
    rewrite bool_decide_eq_false_2 by done. subst own.
    rewrite member_delete_member. by destruct (String.eqb_spec "stream" name).
Qed.

(** ** More properties of the streaming relay *)

Lemma substring_app_l n m (x y : string) :
  n + m <= String.length x ->
  String.substring n m (x +:+ y) = String.substring n m x.
Proof.
  revert n m. induction x as [|a x IH]; intros n m Hlen.
  - simpl in Hlen. assert (n = 0) as -> by lia. assert (m = 0) as -> by lia.
    by destruct y.
  - rewrite append_cons. destruct n as [|n].
    + destruct m as [|m]; [done|]. simpl. rewrite IH; [done|]. simpl in Hlen. lia.
    + simpl. apply IH. simpl in Hlen. lia.
Qed.

Lemma substring_from_app_l n (x y : string) :
  n <= String.length x ->
  substring_from n (x +:+ y) = substring_from n x +:+ y.
Proof.
  unfold substring_from. revert n. induction x as [|a x IH]; intros n Hlen.
  - simpl in Hlen. assert (n = 0) as -> by lia.
    change ("" +:+ y) with y. rewrite Nat.sub_0_r, substring_all. done.
  - rewrite append_cons. destruct n as [|n].
    + rewrite !Nat.sub_0_r.
      change (String a (x +:+ y)) with (String a x +:+ y).
      by rewrite !substring_all.
    + simpl. apply IH. simpl in Hlen. lia.
Qed.

Lemma indexOf_app s t p idx :
  indexOf s p = Some idx -> p <> "" -> indexOf (s +:+ t) p = Some idx.
Proof.
  intros Hidx Hp. pose proof (indexOf_bound _ _ _ Hidx Hp) as Hb.
  unfold indexOf in *.
  destruct (String.index 0 p (s +:+ t)) as [k|] eqn:Hk.
  - destruct (Nat.lt_trichotomy k idx) as [Hlt | [-> | Hgt]]; [|done|].
    + exfalso. apply (String.index_correct2 _ _ _ _ Hidx k); [lia | done|].
      rewrite <- (substring_app_l k (String.length p) s t) by lia.
      by apply (String.index_correct1 0).
    + exfalso. apply (String.index_correct2 _ _ _ _ Hk idx); [lia | done|].
      rewrite substring_app_l by lia. by apply (String.index_correct1 0).
  - exfalso. apply (String.index_correct3 _ idx _ _ Hk Hp); [lia|].
    rewrite substring_app_l by lia. by apply (String.index_correct1 0).
Qed.

Lemma indexOf_app_inv s t p idx :
  indexOf (s +:+ t) p = Some idx ->
  p <> "" ->
  idx + String.length p <= String.length s ->
  indexOf s p = Some idx.
Proof.
  intros Hidx Hp Hb.
  destruct (indexOf s p) as [k|] eqn:Hk.
  - rewrite (indexOf_app s t p k Hk Hp) in Hidx. done.
  - exfalso. unfold indexOf in *.
    apply (String.index_correct3 _ idx _ _ Hk Hp); [lia|].
    rewrite <- (substring_app_l idx (String.length p) s t) by lia.
    by apply (String.index_correct1 0).
Qed.

Lemma drain_fuel n m s :
  String.length s <= n -> String.length s <= m -> drain n s = drain m s.
Proof.
  revert m s. induction n as [|n IH]; intros m s Hn Hm.
  - destruct s; [|simpl in Hn; lia]. by destruct m.
  - destruct m as [|m].
    + destruct s; [done | simpl in Hm; lia].
    + simpl. destruct (indexOf s blank_line) as [idx|] eqn:Hidx; [|done].
      apply indexOf_bound in Hidx; [|done]. simpl in Hidx.
      rewrite (IH m); [done|..]; unfold substring_from; rewrite length_substring; lia.
Qed.

Lemma drain_app n m (x y : string) :
  String.length x <= n ->
  String.length (x +:+ y) <= m ->
  drain m (x +:+ y)
  = ((drain n x).1
       ++ (drain (String.length ((drain n x).2 +:+ y)) ((drain n x).2 +:+ y)).1,
     (drain (String.length ((drain n x).2 +:+ y)) ((drain n x).2 +:+ y)).2).
Proof.
  revert m x. induction n as [|n IH]; intros m x Hn Hm.
  - destruct x; [|simpl in Hn; lia]. cbn [drain fst snd app].
    rewrite <- surjective_pairing. by apply drain_fuel.
  - cbn [drain]. destruct (indexOf x blank_line) as [idx|] eqn:Hidx.
    + pose proof (indexOf_bound _ _ _ Hidx ltac:(done)) as Hb. simpl in Hb.
      pose proof (indexOf_app x y blank_line idx Hidx ltac:(done)) as Hidx'.
      rewrite length_append in Hm.
      destruct m as [|m]; [lia|]. cbn [drain]. rewrite Hidx'.
      rewrite substring_app_l by lia. rewrite substring_from_app_l by lia.
      assert (String.length (substring_from (idx + 2) x) <= n) as Hlen
        by (unfold substring_from; rewrite length_substring; lia).
      rewrite (IH m (substring_from (idx + 2) x)); [|done|].
      2:{ rewrite length_append. unfold substring_from in *.
          rewrite length_substring in *. lia. }
      destruct (drain n (substring_from (idx + 2) x)) as [messages rest].
      cbn [fst snd].
      by destruct (drain (String.length (rest +:+ y)) (rest +:+ y)).
    + cbn [fst snd app]. rewrite <- surjective_pairing. by apply drain_fuel.
Qed.

Lemma drain_no_blank n s : indexOf s blank_line = None -> drain n s = ([], s).
Proof. intros H. destruct n; [done|]. simpl. by rewrite H. Qed.

Lemma trimStart_app_cases c r :
  match trimStart c with
  | EmptyString => trimStart (c +:+ r) = trimStart r
  | String a t => trimStart (c +:+ r) = String a (t +:+ r)
  end.
Proof.
  induction c as [|a c IH]; [done|]. rewrite append_cons. simpl.
  destruct (is_space a); [done|]. done.
Qed.

Lemma isComment_app c r :
  isComment c = false -> isComment r = false -> isComment (c +:+ r) = false.
Proof.
  unfold isComment. intros Hc Hr. pose proof (trimStart_app_cases c r) as H.
  destruct (trimStart c) as [|a t]; rewrite H; [done|].
  simpl in Hc |- *. by destruct (Ascii.eqb ":" a).
Qed.

Lemma isComment_bytes chunks :
  Forall (fun chunkStr => isComment chunkStr = false) chunks ->
  isComment (bytes chunks) = false.
Proof.
  induction 1 as [|c chunks Hc _ IH]; [done|].
  rewrite bytes_cons. by apply isComment_app.
Qed.

Lemma relay_plain chunks buffer :
  Forall (fun chunkStr => isComment chunkStr = false) chunks ->
  indexOf buffer blank_line = None ->
  let whole := buffer +:+ bytes chunks in
  relay chunks buffer
  = (drain (String.length whole) whole).1 ++ onEnd (drain (String.length whole) whole).2.
Proof.
  intros Hall. revert buffer. induction Hall as [|c chunks Hc _ IH]; intros buffer Hb whole.
  - subst whole. change (bytes []) with "". rewrite append_nil_r.
    rewrite (drain_no_blank _ _ Hb). done.
  - cbn [relay]. unfold onData. rewrite Hc.
    subst whole. rewrite bytes_cons, <- append_assoc.
    rewrite (drain_app (String.length (buffer +:+ c)) _ (buffer +:+ c) (bytes chunks))
      by done.
    pose proof (drain_complete (String.length (buffer +:+ c)) (buffer +:+ c) ltac:(done))
      as Hrest.
    destruct (drain (String.length (buffer +:+ c)) (buffer +:+ c)) as [written buffer'].
    cbn [fst snd] in *. rewrite (IH buffer' Hrest). by rewrite app_assoc.
Qed.

Lemma relay_plain_bytes chunks :
  Forall (fun chunkStr => isComment chunkStr = false) chunks ->
  bytes (relay chunks "") = bytes chunks.
Proof.
  intros Hall. pose proof (relay_plain chunks "" Hall eq_refl) as Hr.
  cbv zeta in Hr. change ("" +:+ bytes chunks) with (bytes chunks) in Hr.
  rewrite Hr, bytes_app. unfold onEnd.
  pose proof (drain_bytes (String.length (bytes chunks)) (bytes chunks)) as Hd.
  destruct (drain (String.length (bytes chunks)) (bytes chunks)).2 as [|a rest] eqn:Hrest.
  - change (bytes []) with "". by rewrite append_nil_r in Hd |- *.
  - change (0 <? String.length (String a rest)) with true. cbv iota.
    rewrite bytes_cons. change (bytes []) with "". by rewrite append_nil_r.
Qed.

(** X27. For a stream of ASCII chunks none of which is taken for a
    comment, what the relay writes does not depend on how the upstream
    cut the stream into chunks: it writes what it would write for the
    whole stream in one chunk. *)
Theorem relay_chunking_independent chunks :
  Forall (fun chunkStr => isASCII chunkStr = true) chunks ->
  Forall (fun chunkStr => isComment chunkStr = false) chunks ->
  relay chunks "" = relay [bytes chunks] "".
Proof.
  intros _ Hall. pose proof (relay_plain chunks "" Hall eq_refl) as Hr.
  cbv zeta in Hr. change ("" +:+ bytes chunks) with (bytes chunks) in Hr.
  rewrite Hr. cbn [relay]. unfold onData.
  change ("" +:+ bytes chunks) with (bytes chunks).
  rewrite (isComment_bytes _ Hall).
  by destruct (drain (String.length (bytes chunks)) (bytes chunks)).
Qed.

Lemma relay_chunking_independent_witness :
  relay ["data: a" +:+ String LF ""; String LF "data: b"; blank_line] ""
  = relay [bytes ["data: a" +:+ String LF ""; String LF "data: b"; blank_line]] "".
Proof.
  apply (relay_chunking_independent
           ["data: a" +:+ String LF ""; String LF "data: b"; blank_line]).
  - repeat constructor.
  - repeat constructor.
Defined.

Lemma filter_isComment_length chunks :
  String.length (bytes (List.filter isComment chunks)) = 0 ->
  Forall (fun chunkStr => isComment chunkStr = false) chunks.
Proof.
  induction chunks as [|c chunks IH]; [by constructor|]. cbn [List.filter].
  destruct (isComment c) eqn:Hc.
  - rewrite bytes_cons, length_append. destruct c as [|a c]; [done|]. simpl. lia.
  - intros Hlen. constructor; [done | by apply IH].
Qed.

(** X28. For a stream of ASCII chunks, the relay writes exactly the
    bytes it received if and only if no chunk is taken for a
    comment. *)
Theorem relay_lossless_iff chunks :
  Forall (fun chunkStr => isASCII chunkStr = true) chunks ->
  bytes (relay chunks "") = bytes chunks
  <-> Forall (fun chunkStr => isComment chunkStr = false) chunks.
Proof.
  intros _. split; [|apply relay_plain_bytes].
  intros Heq. apply filter_isComment_length.
  pose proof (relay_length chunks "") as Hlen. rewrite Heq in Hlen.
  simpl in Hlen. lia.
Qed.

Lemma relay_lossless_iff_witness :
  bytes (relay ["data: a" +:+ blank_line; "data: b" +:+ blank_line] "")
  = bytes ["data: a" +:+ blank_line; "data: b" +:+ blank_line].
Proof.
  apply (relay_lossless_iff ["data: a" +:+ blank_line; "data: b" +:+ blank_line]).
  - repeat constructor.
  - repeat constructor.
Defined.

(** X29. The [while] loop of the relay cuts the buffer into complete
    messages: what it writes followed by what it keeps is the buffer,
    every message it writes ends with its first blank line, and what
    it keeps holds no blank line. *)
Theorem drain_writes_frames buffer :
  let '(messages, rest) := drain (String.length buffer) buffer in
  bytes messages +:+ rest = buffer
  /\ Forall isFrame messages
  /\ indexOf rest blank_line = None.
Proof.
  pose proof (drain_bytes (String.length buffer) buffer) as Hbytes.
  pose proof (drain_complete (String.length buffer) buffer ltac:(done)) as Hrest.
  assert (Forall isFrame (drain (String.length buffer) buffer).1) as Hframes.
  { generalize (String.length buffer). intros n. clear. revert buffer.
    induction n as [|n IH]; intros buffer; [by constructor|].
    cbn [drain]. destruct (indexOf buffer blank_line) as [idx|] eqn:Hidx;
      [|by constructor].
    specialize (IH (substring_from (idx + 2) buffer)).
    destruct (drain n (substring_from (idx + 2) buffer)) as [messages rest].
    cbn [fst] in *. constructor; [|done].
    pose proof (indexOf_bound _ _ _ Hidx ltac:(done)) as Hb. simpl in Hb.
    exists idx. split.
    - apply (indexOf_app_inv _ (substring_from (idx + 2) buffer)); [|done|].
      + by rewrite substring_split.
      + rewrite length_substring. simpl. lia.
    - rewrite length_substring. lia. }
  by destruct (drain (String.length buffer) buffer).
Qed.
